(** * SPmerge02: the refinement engine of scanning-drift-corr

    A shallow embedding of [scanning_drift_corr/SPmerge02.py] and the
    properties of its refinement loop.

    Conventions of the embedding.
    - numpy's float64 values are exact rationals ([Q]); equalities between
      computed values are stated with [==].  The only non-finite values the
      code can produce come from dividing by an empty selection or by a zero
      mean: the consistency metric is therefore a [Metric] ([None] stands
      for nan or inf, every comparison with it is false).
    - numpy arrays are lists; a 2-D image is a list of rows.  An indexing
      that raises in Python yields [Raise].
    - the array objects that the code aliases (the origin array bound to
      [sm.scanOr], the step-size array of the caller, and their snapshots)
      live in a store and are named by locations.
    - functions of numpy and scipy that leave the rationals (sqrt, exp, sin,
      the FFT based correlation peak, the median) and the collaborators of
      the repository that are not part of this file ([SPmakeImage],
      [tools.distance_transform]) are the fields of an environment [Env].
    - [SPmerge02] below is the function from "Beginning primary
      refinement" to the final statistics; [SPmerge02_call] is the whole
      function, from the keyword arguments to the plot, with the initial
      alignment [SPmerge02_initial] as a parameter; [_plot] returns what it
      hands to matplotlib. *)

From Stdlib Require Import ZArith QArith Qround Qabs Qminmax Qfield Lia Lqa.
From stdpp Require Import base option list strings.

Local Open Scope Q_scope.

(** ** Numbers and vectors *)

(** [a < b] on floats, as a boolean. *)
Definition Qltb (a b : Q) : bool := negb (Qle_bool b a).

(** [np.clip(x, lo, hi)], that is [minimum(maximum(x, lo), hi)]. *)
Definition clip (x lo hi : Q) : Q := Qmin (Qmax x lo) hi.

(** [v.sum()] *)
Definition vsum (v : list Q) : Q := foldr Qplus 0 v.

(** [v.mean()] of a non-empty selection. *)
Definition mean (v : list Q) : Q := vsum v / inject_Z (Z.of_nat (length v)).

(** [x % n] on floats, for a positive [n]. *)
Definition Qmod (x n : Q) : Q := x - n * inject_Z (Qfloor (x / n)).

(** [v.min()] and [v.max()]; they raise on an empty array. *)
Definition vmin (v : list Q) : option Q :=
  match v with
  | [] => None
  | x :: r => Some (foldl Qmin x r)
  end.

Definition vmax (v : list Q) : option Q :=
  match v with
  | [] => None
  | x :: r => Some (foldl Qmax x r)
  end.

(** [np.argmin(score)]: the first index at which the minimum is attained. *)
Fixpoint argmin_from (best : Q) (besti i : nat) (l : list Q) : nat :=
  match l with
  | [] => besti
  | x :: r =>
      if Qltb x best then argmin_from x i (S i) r
      else argmin_from best besti (S i) r
  end.

Definition argmin (l : list Q) : option nat :=
  match l with
  | [] => None
  | x :: r => Some (argmin_from x 0 1 r)
  end.

(** ** Images *)

Abbreviation Image := (list (list Q)) (only parsing).

(** [image.shape] *)
Definition shape (image : Image) : Z * Z :=
  (Z.of_nat (length image),
   Z.of_nat (match image with [] => 0%nat | row :: _ => length row end)).

(** [image.ravel()] *)
Definition ravel (image : Image) : list Q := concat image.

(** A numpy 2-D array is rectangular. *)
Definition rect (R C : nat) (image : Image) : Prop :=
  length image = R ∧ Forall (λ row, length row = C) image.

(** [image[x, y]] *)
Definition pixel (image : Image) (x y : Z) : option Q :=
  if (0 <=? x)%Z && (0 <=? y)%Z
  then image !! Z.to_nat x ≫= λ row, row !! Z.to_nat y
  else None.

(** [np.ravel_multi_index((x, y), imgsz)] for one pair of coordinates; it
    raises when a coordinate is outside the shape. *)
Definition ravel_multi_index1 (imgsz : Z * Z) (x y : Z) : option Z :=
  if (0 <=? x)%Z && (x <? imgsz.1)%Z && (0 <=? y)%Z && (y <? imgsz.2)%Z
  then Some (x * imgsz.2 + y)%Z
  else None.

(** The same on coordinate arrays. *)
Definition ravel_multi_index (xs ys : list Z) (imgsz : Z * Z) : option (list Z) :=
  mapM (λ xy : Z * Z, ravel_multi_index1 imgsz xy.1 xy.2) (zip xs ys).

(** [flat[rind]] with an index array. *)
Definition take_flat (flat : list Q) (rind : list Z) : option (list Q) :=
  mapM (λ i : Z, flat !! Z.to_nat i) rind.

(** Elementwise product and sum of arrays of one shape. *)
Definition vmul (a b : list Q) : list Q := zip_with Qmult a b.
Definition vadd (a b : list Q) : list Q := zip_with Qplus a b.

(** [1 - d] *)
Definition vone_minus (d : list Q) : list Q := fmap (λ t, 1 - t) d.

(** [a - b]; numpy raises when the lengths differ. *)
Definition vsub (a b : list Q) : option (list Q) :=
  if (length a =? length b)%nat then Some (zip_with Qminus a b) else None.

(** ** ScoreFunction: [calcScore] *)

Definition calcScore (image : Image) (xF yF : list Z) (dx dy intMeas : list Q)
  : option Q :=
  let imgsz := shape image in
  rind1 ← ravel_multi_index xF yF imgsz;
  rind2 ← ravel_multi_index (fmap Z.succ xF) yF imgsz;
  rind3 ← ravel_multi_index xF (fmap Z.succ yF) imgsz;
  rind4 ← ravel_multi_index (fmap Z.succ xF) (fmap Z.succ yF) imgsz;
  v1 ← take_flat (ravel image) rind1;
  v2 ← take_flat (ravel image) rind2;
  v3 ← take_flat (ravel image) rind3;
  v4 ← take_flat (ravel image) rind4;
  let int1 := vmul (vmul v1 (vone_minus dx)) (vone_minus dy) in
  let int2 := vmul (vmul v2 dx) (vone_minus dy) in
  let int3 := vmul (vmul v3 (vone_minus dx)) dy in
  let int4 := vmul (vmul v4 dx) dy in
  let imageSample := vadd (vadd (vadd int1 int2) int3) int4 in
  diff ← vsub imageSample intMeas;
  Some (vsum (fmap Qabs diff)).

(** ** The session object and the store *)

(** The consistency metric; [None] is a non-finite float. *)
Abbreviation Metric := (option Q) (only parsing).

(** [a < b] on metrics: false as soon as one side is not finite. *)
Definition metric_lt (a b : Metric) : bool :=
  match a, b with
  | Some x, Some y => Qltb x y
  | _, _ => false
  end.

(** An origin array of shape [(numImages, 2, nr)]: for every acquisition
    the row of x origins and the row of y origins. *)
Abbreviation OrArr := (list (list Q * list Q)) (only parsing).

(** A step-size array of shape [(numImages, nr)]. *)
Abbreviation StepArr := (list (list Q)) (only parsing).

(** Locations of array objects in the store. *)
Abbreviation loc := nat (only parsing).

(** The attributes of the sMerge object that the refinement reads and
    writes.  [scanOr] holds a reference to an origin array: assigning the
    attribute rebinds it, indexing it mutates the array it refers to. *)
Record sMerge := {
  numImages : nat;
  nr : nat;
  nc : nat;
  scanLines : list (list (list Q));
  scanDir : list (Q * Q);
  scanOr : loc;
  imageSize : Z * Z;
  imageTransform : list Image;
  imageDensity : list Image;
  imageRef : option Image;
  stats : list (Q * Metric)
}.

Definition set_scanOr (l : loc) (s : sMerge) : sMerge :=
  {| numImages := numImages s; nr := nr s; nc := nc s;
     scanLines := scanLines s; scanDir := scanDir s; scanOr := l;
     imageSize := imageSize s; imageTransform := imageTransform s;
     imageDensity := imageDensity s; imageRef := imageRef s;
     stats := stats s |}.

Definition set_images (t d : list Image) (s : sMerge) : sMerge :=
  {| numImages := numImages s; nr := nr s; nc := nc s;
     scanLines := scanLines s; scanDir := scanDir s; scanOr := scanOr s;
     imageSize := imageSize s; imageTransform := t;
     imageDensity := d; imageRef := imageRef s;
     stats := stats s |}.

Definition set_stats (st : list (Q * Metric)) (s : sMerge) : sMerge :=
  {| numImages := numImages s; nr := nr s; nc := nc s;
     scanLines := scanLines s; scanDir := scanDir s; scanOr := scanOr s;
     imageSize := imageSize s; imageTransform := imageTransform s;
     imageDensity := imageDensity s; imageRef := imageRef s;
     stats := st |}.

(** The program state: the one sMerge object shared by all functions, and
    the array objects allocated so far. *)
Record State := {
  sm : sMerge;
  heapOr : list OrArr;
  heapStep : list StepArr
}.

Definition with_sm (s : sMerge) (σ : State) : State :=
  {| sm := s; heapOr := heapOr σ; heapStep := heapStep σ |}.

Definition with_heapOr (h : list OrArr) (σ : State) : State :=
  {| sm := sm σ; heapOr := h; heapStep := heapStep σ |}.

Definition with_heapStep (h : list StepArr) (σ : State) : State :=
  {| sm := sm σ; heapOr := heapOr σ; heapStep := h |}.

(** ** A state and exception monad *)

Inductive Outcome (A : Type) : Type :=
| Ok (a : A) (σ : State)
| Raise
| Timeout.

Arguments Ok {A} a σ.
Arguments Raise {A}.
Arguments Timeout {A}.

Definition M (A : Type) : Type := State → Outcome A.

Definition ret {A} (a : A) : M A := λ σ, Ok a σ.

Definition bind {A B} (m : M A) (f : A → M B) : M B :=
  λ σ, match m σ with
       | Ok a σ' => f a σ'
       | Raise => Raise
       | Timeout => Timeout
       end.

Notation "'let*' x := m 'in' k" := (bind m (λ x, k))
  (at level 10, x binder, k at level 200).
Notation "m >> k" := (bind m (λ _, k))
  (at level 100, k at level 200, right associativity).

(** An index or value error of Python. *)
Definition lift {A} (o : option A) : M A :=
  λ σ, match o with Some a => Ok a σ | None => Raise end.

Definition get_sm : M sMerge := λ σ, Ok (sm σ) σ.
Definition put_sm (s : sMerge) : M unit := λ σ, Ok tt (with_sm s σ).

(** [arr.copy()] *)
Definition alloc_or (a : OrArr) : M loc :=
  λ σ, Ok (length (heapOr σ)) (with_heapOr (heapOr σ ++ [a]) σ).
Definition alloc_step (a : StepArr) : M loc :=
  λ σ, Ok (length (heapStep σ)) (with_heapStep (heapStep σ ++ [a]) σ).

Definition load_or (l : loc) : M OrArr := λ σ, lift (heapOr σ !! l) σ.
Definition load_step (l : loc) : M StepArr := λ σ, lift (heapStep σ !! l) σ.

Definition store_or (l : loc) (a : OrArr) : M unit :=
  λ σ, Ok tt (with_heapOr (<[l := a]> (heapOr σ)) σ).
Definition store_step (l : loc) (a : StepArr) : M unit :=
  λ σ, Ok tt (with_heapStep (<[l := a]> (heapStep σ)) σ).

(** [for i in l: a = f(i, a)] *)
Fixpoint foldM {A} (f : nat → A → M A) (l : list nat) (a : A) : M A :=
  match l with
  | [] => ret a
  | i :: r => let* a' := f i a in foldM f r a'
  end.

(** [for i in l: f(i)] *)
Definition forM (f : nat → M unit) (l : list nat) : M unit :=
  foldM (λ i _, f i) l tt.

(** ** Indexing origin and step arrays *)

(** [a[k, :, m]] *)
Definition or_get (a : OrArr) (k m : nat) : option (Q * Q) :=
  xy ← a !! k;
  x ← xy.1 !! m;
  y ← xy.2 !! m;
  Some (x, y).

(** [a[k, :, m] = p] *)
Definition or_set (a : OrArr) (k m : nat) (p : Q * Q) : option OrArr :=
  xy ← a !! k;
  if decide (m < length xy.1 ∧ m < length xy.2)%nat
  then Some (<[k := (<[m := p.1]> xy.1, <[m := p.2]> xy.2)]> a)
  else None.

(** [a[k, 0, :] = xNew; a[k, 1, :] = yNew] *)
Definition or_set_rows (a : OrArr) (k : nat) (xNew yNew : list Q)
  : option OrArr :=
  xy ← a !! k;
  if decide (length xNew = length xy.1 ∧ length yNew = length xy.2)
  then Some (<[k := (xNew, yNew)]> a)
  else None.

(** [a[k, m]] *)
Definition step_get (a : StepArr) (k m : nat) : option Q :=
  row ← a !! k; row !! m.

(** [a[k, m] = v] *)
Definition step_set (a : StepArr) (k m : nat) (v : Q) : option StepArr :=
  row ← a !! k;
  if decide (m < length row)%nat
  then Some (<[k := <[m := v]> row]> a)
  else None.

(** [a[k, :] = v] with a scalar [v] *)
Definition step_fill (a : StepArr) (k : nat) (v : Q) : option StepArr :=
  row ← a !! k;
  Some (<[k := replicate (length row) v]> a).

(** [sm.scanOr[k, :, m]] *)
Definition read_origin (k m : nat) : M (Q * Q) :=
  let* s := get_sm in
  let* a := load_or (scanOr s) in
  lift (or_get a k m).

(** [sm.scanOr[k, :, m] = p] *)
Definition write_origin (k m : nat) (p : Q * Q) : M unit :=
  let* s := get_sm in
  let* a := load_or (scanOr s) in
  let* a' := lift (or_set a k m p) in
  store_or (scanOr s) a'.

(** ** External operations *)

Record Env := {
  (** The reconstruction of one acquisition from its scanlines, scan
      direction and origins on a raster of the given size: the image and
      the density mask. *)
  reconstruct : list (list Q) → Q * Q → list Q * list Q → Z * Z → Image * Image;
  (** [tools.distance_transform] of a boolean image. *)
  distance_transform : list (list bool) → Image;
  (** [np.median] of all the values of an array. *)
  np_median : list Q → Q;
  (** [np.sin(t * np.pi/2)**2] *)
  sin2_half_pi : Q → Q;
  (** The peak of the phase correlation of two feathered images: the
      index pair [np.unravel_index(phaseCorr.argmax(), phaseCorr.shape)]
      of [phaseCorr = abs(ifft2(exp(1j * angle(fft2(a) * conj(fft2(b))))))]. *)
  phase_corr_peak : Image → Image → Z * Z;
  (** [np.sqrt] *)
  np_sqrt : Q → Q;
  (** [np.exp] *)
  np_exp : Q → Q
}.

(** The keyword arguments of [SPmerge02] that the primary refinement reads. *)
Record Config := {
  refineMaxSteps : nat;
  densityCutoff : Q;
  refineInitialStep : Q;
  pixelsMovedThreshold : Q;
  stepSizeReduce : Q;
  flagPointOrder : bool;
  originWindowAverage : Q;
  flagGlobalShift : bool;
  flagGlobalShiftIncrease : bool;
  minGlobalShift : Q;
  densityDist : Q;
  flagRemakeImage : bool
}.

(** The defaults of the docstring; [meanScanLines] is
    [np.mean(sm.scanLines.shape[1:])]. *)
Definition default_config (meanScanLines : Q) : Config :=
  {| refineMaxSteps := 32;
     densityCutoff := 8 # 10;
     refineInitialStep := 1 # 2;
     pixelsMovedThreshold := 1 # 10;
     stepSizeReduce := 1 # 2;
     flagPointOrder := true;
     originWindowAverage := 1;
     flagGlobalShift := false;
     flagGlobalShiftIncrease := false;
     minGlobalShift := 1;
     densityDist := meanScanLines / 32;
     flagRemakeImage := true |}.

(** ** OriginOrderConstraint *)

(** [nn]: the scan direction turned by minus ninety degrees. *)
Definition perp (sd : Q * Q) : Q * Q := (sd.2, - sd.1).

(** [nn[0]*p[0] + nn[1]*p[1]] *)
Definition proj (nn p : Q * Q) : Q := nn.1 * p.1 + nn.2 * p.2.

(** [vParam = nn[0]*sm.scanOr[k, 0, :] + nn[1]*sm.scanOr[k, 1, :]] *)
Definition vParam_of (nn : Q * Q) (xy : list Q * list Q) : list Q :=
  zip_with (λ x y, nn.1 * x + nn.2 * y) xy.1 xy.2.

(** [vBound] of line [m]; [None] in the first component is [-np.inf], in
    the second [np.inf]. *)
Definition vBound_of (vParam : list Q) (nr m : nat)
  : option (option Q * option Q) :=
  if decide (m = 0)%nat then
    hi ← vParam !! (m + 1)%nat; Some (None, Some hi)
  else if decide (m = nr - 1)%nat then
    lo ← vParam !! (m - 1)%nat; Some (Some lo, None)
  else
    lo ← vParam !! (m - 1)%nat; hi ← vParam !! (m + 1)%nat;
    Some (Some lo, Some hi).

(** [p + nn*d] *)
Definition along (nn p : Q * Q) (d : Q) : Q * Q :=
  (p.1 + nn.1 * d, p.2 + nn.2 * d).

(** [vTest < vBound[0]] and [vTest > vBound[1]] *)
Definition below (vTest : Q) (lo : option Q) : option Q :=
  match lo with
  | Some l => if Qltb vTest l then Some l else None
  | None => None
  end.

Definition above (vTest : Q) (hi : option Q) : option Q :=
  match hi with
  | Some h => if Qltb h vTest then Some h else None
  | None => None
  end.

(** The body of the loop "check out of bound entries" for one candidate. *)
Definition force_order (nn : Q * Q) (vBound : option Q * option Q) (p : Q * Q)
  : Q * Q :=
  let vTest := proj nn p in
  match below vTest vBound.1 with
  | Some l => along nn p (l - vTest)
  | None =>
      match above vTest vBound.2 with
      | Some h => along nn p (h - vTest)
      | None => p
      end
  end.

(** ** Candidates and their scores *)

(** The columns of [dxy]. *)
Definition dxy : list (Q * Q) := [(0, 0); (1, 0); (-1, 0); (0, 1); (0, -1)].

(** [orTest = sm.scanOr[k, :, m][:, None] + dxy*scanOrStep[k, m]] *)
Definition candidates (o : Q * Q) (step : Q) : list (Q * Q) :=
  fmap (λ d : Q * Q, (o.1 + d.1 * step, o.2 + d.2 * step)) dxy.

(** [np.clip(o + inds*d, 0, size-2)] with [inds = np.arange(1, nc+1)] *)
Definition sample_coords (o d : Q) (size : Z) (nc : nat) : list Q :=
  fmap (λ i : nat, clip (o + inject_Z (Z.of_nat i) * d) 0 (inject_Z (size - 2)))
    (seq 1 nc).

(** The body of the loop "Loop through origin tests" for one candidate. *)
Definition score_candidate (s : sMerge) (imageAlign : Image) (k m : nat)
    (p : Q * Q) : option Q :=
  sd ← scanDir s !! k;
  let xInd := sample_coords p.1 sd.1 (imageSize s).1 (nc s) in
  let yInd := sample_coords p.2 sd.2 (imageSize s).2 (nc s) in
  let xF := fmap Qfloor xInd in
  let yF := fmap Qfloor yInd in
  let dx := zip_with (λ x f, x - inject_Z f) xInd xF in
  let dy := zip_with (λ y f, y - inject_Z f) yInd yF in
  intMeas ← scanLines s !! k ≫= λ lines, lines !! m;
  calcScore imageAlign xF yF dx dy intMeas.

(** ** Reductions along the acquisition axis *)

(** The values of all images at pixel [(i, j)]. *)
Definition pixels_at (imgs : list Image) (i j : nat) : list Q :=
  omap (λ img : Image, img !! i ≫= λ row, row !! j) imgs.

(** A reduction [f] along axis 0 of a stack of images of the shape of
    [grid]. *)
Definition axis0 {A} (grid : Image) (f : list Q → A) (imgs : list Image)
  : list (list A) :=
  imap (λ i row, imap (λ j _, f (pixels_at imgs i j)) row) grid.

(** [a[mask]] *)
Definition select (mask : list (list bool)) (a : Image) : list Q :=
  omap (λ bv : bool * Q, if bv.1 then Some bv.2 else None)
    (zip (concat mask) (concat a)).

(** [l[indsAlign]] with [indsAlign] all indices but [k] *)
Definition others {A} (k : nat) (l : list A) : list A :=
  take k l ++ drop (S k) l.

Section Refinement.

Context (E : Env) (cfg : Config).

(** The mean absolute difference as a fraction of the mean scanline
    intensity (lines 176-180, 296-300 and 429-433). *)
Definition meanAbsDiff_of (s : sMerge) : Metric :=
  let Idiff :=
    axis0 (default [] (head (imageTransform s)))
      (λ ts, let imgT_mean := mean ts in
             mean (fmap (λ t, Qabs (t - imgT_mean)) ts))
      (imageTransform s) in
  let dmask :=
    axis0 (default [] (head (imageDensity s)))
      (λ ds, match vmin ds with
             | Some d => Qltb (densityCutoff cfg) d
             | None => false
             end)
      (imageDensity s) in
  let img_mean := mean (fmap Qabs (concat (concat (scanLines s)))) in
  match select dmask Idiff with
  | [] => None
  | sel => if Qeq_bool img_mean 0 then None else Some (mean sel / img_mean)
  end.

(** The alignment image of acquisition [k] (lines 195-206). Where no pixel
    is covered by another acquisition numpy fills the image with nan and
    every score is nan, so that [argmin] is 0; the fill value 0 used here
    gives five equal scores and the same choice. *)
Definition imageAlign_of (s : sMerge) (k : nat) : Image :=
  match imageRef s with
  | Some ref => ref
  | None =>
      let T := others k (imageTransform s) in
      let D := others k (imageDensity s) in
      let cells :=
        imap (λ (i : nat) (row : list Q), imap (λ (j : nat) (_ : Q),
          let dens_cut := fmap (λ d, Qltb (densityCutoff cfg) d) (pixels_at D i j) in
          (vsum (zip_with (λ t (c : bool), t * (if c then 1 else 0))
                   (pixels_at T i j) dens_cut),
           length (filter (λ c : bool, c = true) dens_cut))) row)
          (default [] (head (imageTransform s))) in
      let covered :=
        omap (λ sd : Q * nat,
                if (0 <? sd.2)%nat then Some (sd.1 / inject_Z (Z.of_nat sd.2))
                else None) (concat cells) in
      let fill := mean covered in
      fmap (fmap (M := list)
              (λ sd : Q * nat,
                 if (0 <? sd.2)%nat then sd.1 / inject_Z (Z.of_nat sd.2)
                 else fill)) cells
  end.

(** Modelled from the spec: [SPmakeImage] (module [SPmakeImage], absent
    from the sources) is the operation "Reconstruct(acquisition) →
    (image, density)": it rebuilds the image and the density mask of
    acquisition [k] from its scanlines and current origins, stores them in
    [sm.imageTransform[k]] and [sm.imageDensity[k]] and returns [sm]. *)
Definition SPmakeImage (k : nat) : M unit :=
  let* s := get_sm in
  let* a := load_or (scanOr s) in
  let* lines := lift (scanLines s !! k) in
  let* dir := lift (scanDir s !! k) in
  let* org := lift (a !! k) in
  let* _ := lift (imageTransform s !! k) in
  let* _ := lift (imageDensity s !! k) in
  let td := reconstruct E lines dir org (imageSize s) in
  put_sm (set_images (<[k := td.1]> (imageTransform s))
                     (<[k := td.2]> (imageDensity s)) s).

(** [sm.stats[i, :] = row] *)
Definition write_stats (i : nat) (row : Q * Metric) : M unit :=
  let* s := get_sm in
  let* _ := lift (stats s !! i) in
  put_sm (set_stats (<[i := row]> (stats s)) s).

(** ** The refinement of one scanline (lines 216-271) *)

(** [np.linalg.norm(v)] of a vector of two components. *)
Definition norm2 (v : Q * Q) : Q := np_sqrt E (v.1 * v.1 + v.2 * v.2).

(** The candidates of line [m] after the ordering constraint. [order] is
    [nn] and [vParam] when [flagPointOrder] is set. *)
Definition orTest_of (s : sMerge) (order : option ((Q * Q) * list Q))
    (m : nat) (o : Q * Q) (step : Q) : option (list (Q * Q)) :=
  match order with
  | Some (nn, vParam) =>
      vBound ← vBound_of vParam (nr s) m;
      Some (fmap (force_order nn vBound) (candidates o step))
  | None => Some (candidates o step)
  end.

Definition refine_line (imageAlign : Image) (scanOrStep : loc) (k : nat)
    (order : option ((Q * Q) * list Q)) (m : nat) (pixelsMoved : Q) : M Q :=
  let* s := get_sm in
  let* o := read_origin k m in
  let* steps := load_step scanOrStep in
  let* step := lift (step_get steps k m) in
  let* orTest := lift (orTest_of s order m o step) in
  let* score := lift (mapM (score_candidate s imageAlign k m) orTest) in
  let* ind := lift (argmin score) in
  if decide (ind = 0)%nat then
    let* steps' := lift (step_set steps k m (step * stepSizeReduce cfg)) in
    let* _ := store_step scanOrStep steps' in
    ret pixelsMoved
  else
    let* best := lift (orTest !! ind) in
    let pshift := norm2 (best.1 - o.1, best.2 - o.2) in
    let* _ := write_origin k m best in
    ret (pixelsMoved + pshift).

(** The refinement of acquisition [k] against the other ones (lines
    192-271). *)
Definition refine_image (scanOrStep : loc) (k : nat) (pixelsMoved : Q) : M Q :=
  let* s := get_sm in
  let imageAlign := imageAlign_of s k in
  let* order :=
    if flagPointOrder cfg then
      let* sd := lift (scanDir s !! k) in
      let* a := load_or (scanOr s) in
      let* xy := lift (a !! k) in
      ret (Some (perp sd, vParam_of (perp sd) xy))
    else ret None in
  foldM (refine_line imageAlign scanOrStep k order) (seq 0 (nr s)) pixelsMoved.

(** ** OriginSmoothingKernel: [_kernel_on_origin] *)

(** [np.arange(a, b)] on integers *)
Definition arange (a b : Z) : list Z :=
  fmap (λ i : nat, (a + Z.of_nat i)%Z) (seq 0 (Z.to_nat (b - a))).

(** [KDEorigin = np.exp(-v**2/(2*originAverage**2))] with
    [v = np.arange(-r, r+1)] and [r = np.ceil(3*originAverage)] *)
Definition KDEorigin (originAverage : Q) : list Q :=
  let r := Qceiling (3 * originAverage) in
  fmap (λ v : Z,
         np_exp E (- (inject_Z v * inject_Z v)
                   / (2 * (originAverage * originAverage))))
    (arange (- r) (r + 1)).

(** [scipy.signal.convolve(x, K, 'same')] along the line axis: the central
    part, of the length of [x], of the full convolution with zero padding. *)
Definition convolve_same (x K : list Q) : list Q :=
  let c := ((length K - 1) / 2)%nat in
  imap (λ (m : nat) (_ : Q),
          vsum (imap (λ (i : nat) (w : Q),
                        if decide (i ≤ m + c)%nat
                        then match x !! (m + c - i)%nat with
                             | Some v => v * w
                             | None => 0
                             end
                        else 0) K)) x.

(** The second row of [basisOr]: [np.arange(0, nr) + 1]. *)
Definition basis_xs (nr : nat) : list Q :=
  fmap (λ j : nat, inject_Z (Z.of_nat j) + 1) (seq 0 nr).

(** [np.linalg.lstsq(basisOr.T, y, rcond=None)[0]] for the basis with the
    columns [1] and [j+1]: intercept and slope of the least-squares line
    (the solution of the normal equations; the solution of minimal norm
    when there are less than two lines). numpy raises when [y] has not
    [nr] entries. *)
Definition lstsq_line (nr : nat) (y : list Q) : option (Q * Q) :=
  if decide (length y = nr) then
    let xs := basis_xs nr in
    let n := inject_Z (Z.of_nat nr) in
    let Sx := vsum xs in
    let Sxx := vsum (fmap (λ x, x * x) xs) in
    let Sy := vsum y in
    let Sxy := vsum (zip_with Qmult xs y) in
    let D := n * Sxx - Sx * Sx in
    if Qeq_bool D 0 then Some (Sy / (2 * n), Sy / (2 * n))
    else
      let slope := (n * Sxy - Sx * Sy) / D in
      Some ((Sy - slope * Sx) / n, slope)
  else None.

(** [basisOr.T @ pp] *)
Definition eval_line (nr : nat) (pp : Q * Q) : list Q :=
  fmap (λ j : nat, 1 * pp.1 + (inject_Z (Z.of_nat j) + 1) * pp.2) (seq 0 nr).

(** The linear fit of one origin row: [scanOrLinear[k, a, :]]. *)
Definition linear_fit (nr : nat) (row : list Q) : option (list Q) :=
  pp ← lstsq_line nr (fmap (λ x, x + 1) row);
  Some (eval_line nr pp).

(** [convolve(row, KDEorigin, 'same') * KDEnorm] for one row. *)
Definition smooth_row (K row : list Q) : list Q :=
  let KDEnorm := fmap (λ c, 1 / c) (convolve_same (fmap (λ _, 1) row) K) in
  zip_with Qmult (convolve_same row K) KDEnorm.

Definition _kernel_on_origin (originAverage : Q) : M unit :=
  let K := KDEorigin originAverage in
  let* s := get_sm in
  let* a := load_or (scanOr s) in
  let* scanOrLinear :=
    lift (mapM (λ k : nat,
                  xy ← a !! k;
                  lx ← linear_fit (nr s) xy.1;
                  ly ← linear_fit (nr s) xy.2;
                  Some (lx, ly)) (seq 0 (numImages s))) in
  (* sm.scanOr -= scanOrLinear, in place *)
  let a1 := zip_with (λ xy l : list Q * list Q,
                        (zip_with Qminus xy.1 l.1, zip_with Qminus xy.2 l.2))
              a scanOrLinear in
  let* _ := store_or (scanOr s) a1 in
  (* sm.scanOr = convolve(...) * KDEnorm, a new array *)
  let a2 := fmap (λ xy : list Q * list Q,
                   (smooth_row K xy.1, smooth_row K xy.2)) a1 in
  let* l := alloc_or a2 in
  let* _ := put_sm (set_scanOr l s) in
  (* sm.scanOr += scanOrLinear, in place *)
  let a3 := zip_with (λ xy l : list Q * list Q,
                        (zip_with Qplus xy.1 l.1, zip_with Qplus xy.2 l.2))
              a2 scanOrLinear in
  store_or l a3.

(** ** GlobalPhaseCorrelation: [_global_phase_correlation] *)

(** [np.sin(np.minimum(distance_transform(cut) / scale, 1) * np.pi/2)**2]
    with [cut = density < densityCutoff] *)
Definition density_mask (scale : Q) (density : Image) : Image :=
  let cut := fmap (fmap (M := list) (λ d, Qltb d (densityCutoff cfg))) density in
  let min_d := fmap (fmap (M := list) (λ t, Qmin (t / scale) 1))
                 (distance_transform E cut) in
  fmap (fmap (M := list) (sin2_half_pi E)) min_d.

(** [image*densityMask + (1-densityMask)*intensityMedian] *)
Definition feather (image densityMask : Image) (intensityMedian : Q) : Image :=
  zip_with (zip_with (λ v w, v * w + (1 - w) * intensityMedian))
    image densityMask.

(** [(ind + size/2) % size - size/2] *)
Definition wrap_shift (ind size : Z) : Q :=
  Qmod (inject_Z ind + inject_Z size / 2) (inject_Z size) - inject_Z size / 2.

(** [withinBoundary] for the translated origins of one acquisition; [min]
    and [max] raise on an empty row. *)
Definition withinBoundary_of (imgsz : Z * Z) (xNew yNew : list Q)
  : option bool :=
  xmin ← vmin xNew; xmax ← vmax xNew;
  ymin ← vmin yNew; ymax ← vmax yNew;
  Some (Qle_bool 0 xmin && Qltb xmax (inject_Z (imgsz.1 - 2))
        && Qle_bool 0 ymin && Qltb ymax (inject_Z (imgsz.2 - 2))).

(** The local variables of [_global_phase_correlation] that are bound
    before its loop and never rebound in it. *)
Record GpcLocals := {
  scanOrCurrent : loc;
  scanOrStepCurrent : loc;
  meanAbsDiffCurrent : Metric;
  intensityMedian : Q;
  smoothRef : Image
}.

(** Lines 406-425: the conditional application of the shift [(dx, dy)] to
    acquisition [k]. [scanOrStep] is the array the local variable of that
    name is bound to. *)
Definition apply_shift (scanOrStep : loc) (k : nat) (dx dy : Q) : M unit :=
  if Qltb (minGlobalShift cfg) (Qabs dx + Qabs dy) then
    let* s := get_sm in
    let* a := load_or (scanOr s) in
    let* xy := lift (a !! k) in
    let xNew := fmap (λ x, x + dx) xy.1 in
    let yNew := fmap (λ y, y + dy) xy.2 in
    let* withinBoundary := lift (withinBoundary_of (imageSize s) xNew yNew) in
    if withinBoundary then
      let* a' := lift (or_set_rows a k xNew yNew) in
      let* _ := store_or (scanOr s) a' in
      let* _ := SPmakeImage k in
      let* steps := load_step scanOrStep in
      let* steps' := lift (step_fill steps k (refineInitialStep cfg)) in
      store_step scanOrStep steps'
    else ret tt
  else ret tt.

(** Lines 427-443: the regression check. It returns the array that the
    local variable [scanOrStep] is bound to afterwards. *)
Definition check_regression (L : GpcLocals) (meanAbsDiff : Metric)
    (alignStep : nat) (scanOrStep : loc) : M loc :=
  if negb (flagGlobalShiftIncrease cfg) then
    let* s := get_sm in
    let meanAbsDiffNew := meanAbsDiff_of s in
    if metric_lt meanAbsDiffNew (meanAbsDiffCurrent L) then
      let* _ := write_stats (alignStep - 1)
                  (inject_Z (Z.of_nat alignStep - 1), meanAbsDiff) in
      ret scanOrStep
    else
      (* sm.scanOr = scanOrCurrent; scanOrStep = scanOrStepCurrent *)
      let* _ := put_sm (set_scanOr (scanOrCurrent L) s) in
      ret (scanOrStepCurrent L)
  else ret scanOrStep.

(** The feathered image of the target acquisition [k] (lines 388-392). *)
Definition smooth_target (s : sMerge) (median : Q) (k : nat) : option Image :=
  density ← imageDensity s !! k;
  let densityMask := density_mask 64 density in
  image ← imageTransform s !! k;
  Some (feather image densityMask median).

(** The shift detected for acquisition [k] (lines 388-404). *)
Definition detect_shift (L : GpcLocals) (k : nat) : M (Q * Q) :=
  let* s := get_sm in
  let* smooth := lift (smooth_target s (intensityMedian L) k) in
  let peak := phase_corr_peak E (smoothRef L) smooth in
  ret (wrap_shift peak.1 (imageSize s).1, wrap_shift peak.2 (imageSize s).2).

(** The body of the loop over [vecAlign]. *)
Definition gpc_step (L : GpcLocals) (meanAbsDiff : Metric) (alignStep : nat)
    (k : nat) (scanOrStep : loc) : M loc :=
  let* d := detect_shift L k in
  let* _ := apply_shift scanOrStep k d.1 d.2 in
  check_regression L meanAbsDiff alignStep scanOrStep.

(** The statements before the loop (lines 365-383): the snapshots, the
    feathered reference and [vecAlign]. *)
Definition gpc_enter (scanOrStep : loc) (meanAbsDiff : Metric)
  : M (GpcLocals * list nat) :=
  let* s := get_sm in
  let* a := load_or (scanOr s) in
  let* oc := alloc_or a in
  let* steps := load_step scanOrStep in
  let* sc := alloc_step steps in
  let median := np_median E (concat (concat (scanLines s))) in
  let* density := lift (imageDensity s !! 0%nat) in
  let densityMask := density_mask (densityDist cfg) density in
  match imageRef s with
  | None =>
      let* image := lift (imageTransform s !! 0%nat) in
      ret ({| scanOrCurrent := oc; scanOrStepCurrent := sc;
              meanAbsDiffCurrent := meanAbsDiff; intensityMedian := median;
              smoothRef := feather image densityMask median |},
           seq 1 (numImages s - 1))
  | Some ref =>
      ret ({| scanOrCurrent := oc; scanOrStepCurrent := sc;
              meanAbsDiffCurrent := meanAbsDiff; intensityMedian := median;
              smoothRef := feather ref densityMask median |},
           seq 0 (numImages s))
  end.

(** The function returns nothing: the binding of its local variable
    [scanOrStep] is lost on return, the caller keeps its own. *)
Definition _global_phase_correlation (scanOrStep : loc) (meanAbsDiff : Metric)
    (alignStep : nat) : M unit :=
  let* Lv := gpc_enter scanOrStep meanAbsDiff in
  let* _ := foldM (gpc_step Lv.1 meanAbsDiff alignStep) Lv.2 scanOrStep in
  ret tt.

(** ** RefinementLoop: [SPmerge02] *)

(** Lines 277-279: "If required, compute moving average of origins". *)
Definition smoothing_step : M unit :=
  if Qltb 0 (originWindowAverage cfg)
  then _kernel_on_origin (originWindowAverage cfg)
  else ret tt.

(** One pass of the body of the [while] loop up to the smoothing (lines
    167-279); it returns [pixelsMoved]. *)
Definition outer_iteration (scanOrStep : loc) (alignStep : nat) : M Q :=
  let* s0 := get_sm in
  let* _ := forM SPmakeImage (seq 0 (numImages s0)) in
  let* s := get_sm in
  let meanAbsDiff := meanAbsDiff_of s in
  let* _ := write_stats (alignStep - 1)
              (inject_Z (Z.of_nat alignStep - 1), meanAbsDiff) in
  let* _ := if flagGlobalShift cfg
            then _global_phase_correlation scanOrStep meanAbsDiff alignStep
            else ret tt in
  let* pixelsMoved := foldM (refine_image scanOrStep) (seq 0 (numImages s)) 0 in
  let* _ := smoothing_step in
  ret pixelsMoved.

(** Lines 281-285: the value of [alignStep] after an iteration. The
    division raises when there is no acquisition. *)
Definition next_alignStep (numImages : nat) (alignStep : nat) (pixelsMoved : Q)
  : option nat :=
  if decide (numImages = 0)%nat then None
  else if Qltb (pixelsMoved / inject_Z (Z.of_nat numImages))
                (pixelsMovedThreshold cfg)
       then Some (refineMaxSteps cfg + 1)%nat
       else Some (alignStep + 1)%nat.

(** [while alignStep <= refineMaxSteps]. The list [moved] is the history
    of the values of [pixelsMoved], one per iteration done; the loop
    returns it with the final value of [alignStep]. *)
Fixpoint refine_loop (fuel : nat) (scanOrStep : loc) (alignStep : nat)
    (moved : list Q) : M (nat * list Q) :=
  if decide (alignStep ≤ refineMaxSteps cfg)%nat then
    match fuel with
    | O => λ _, Timeout
    | S fuel' =>
        let* pixelsMoved := outer_iteration scanOrStep alignStep in
        let* s := get_sm in
        let* alignStep' :=
          lift (next_alignStep (numImages s) alignStep pixelsMoved) in
        refine_loop fuel' scanOrStep alignStep' (moved ++ [pixelsMoved])
    end
  else ret (alignStep, moved).

(** The primary refinement (lines 156-307). *)
Definition SPmerge02 (fuel : nat) : M (nat * list Q) :=
  let* s := get_sm in
  let* scanOrStep :=
    alloc_step (replicate (numImages s)
                  (replicate (nr s) (1 * refineInitialStep cfg))) in
  let* _ := put_sm (set_stats (replicate (refineMaxSteps cfg + 1) (0, Some 0)) s) in
  let* r := refine_loop fuel scanOrStep 1 [] in
  let* _ := if flagRemakeImage cfg
            then forM SPmakeImage (seq 0 (numImages s))
            else ret tt in
  let* s' := get_sm in
  let* _ := write_stats (r.1 - 1)
              (inject_Z (Z.of_nat r.1 - 1), meanAbsDiff_of s') in
  ret r.

End Refinement.

(** ** The score in the words of the specification *)

(** A coordinate pair whose four bilinear corners are inside an [R] by [C]
    array. *)
Definition corner_ok (R C : nat) (x y : Z) : Prop :=
  (0 ≤ x ∧ x + 1 < Z.of_nat R ∧ 0 ≤ y ∧ y + 1 < Z.of_nat C)%Z.

(** The four-corner bilinear blend of a field at a real coordinate. *)
Definition bilinear (field : Image) (x y : Q) : Q :=
  let xf := Qfloor x in
  let yf := Qfloor y in
  let dx := x - inject_Z xf in
  let dy := y - inject_Z yf in
  (1 - dx) * (1 - dy) * default 0 (pixel field xf yf)
  + dx * (1 - dy) * default 0 (pixel field (xf + 1) yf)
  + (1 - dx) * dy * default 0 (pixel field xf (yf + 1))
  + dx * dy * default 0 (pixel field (xf + 1) (yf + 1)).

(** The sample coordinate [origin + i * scanDir] with each axis clamped
    into [[0, size-2]]. *)
Definition sample_at (size : Z * Z) (origin scanDir : Q * Q) (i : nat) : Q * Q :=
  (clip (origin.1 + inject_Z (Z.of_nat i) * scanDir.1) 0 (inject_Z (size.1 - 2)),
   clip (origin.2 + inject_Z (Z.of_nat i) * scanDir.2) 0 (inject_Z (size.2 - 2))).

(** The sum over the sample indices [i = 1..nc] of the absolute difference
    between the measured intensity and the blend at the clamped sample
    coordinate. *)
Definition score_spec (field : Image) (size : Z * Z) (origin scanDir : Q * Q)
    (meas : list Q) : Q :=
  vsum ((λ im : nat * Q,
           let c := sample_at size origin scanDir im.1 in
           Qabs (im.2 - bilinear field c.1 c.2))
          <$> zip (seq 1 (length meas)) meas).

(** The four corners of the blend at [(x, y)] are pixels of the field. *)
Definition corners_in_bounds (field : Image) (x y : Q) : Prop :=
  is_Some (pixel field (Qfloor x) (Qfloor y))
  ∧ is_Some (pixel field (Qfloor x + 1) (Qfloor y))
  ∧ is_Some (pixel field (Qfloor x) (Qfloor y + 1))
  ∧ is_Some (pixel field (Qfloor x + 1) (Qfloor y + 1)).

(** ** GlobalPhaseCorrelation in the words of the specification *)

(** The acceptance test of the code: the shift exceeds the threshold and
    every translated origin [(x, y)] has [0 <= x < rows - 2] and
    [0 <= y < cols - 2]. *)
Definition shift_accepted (cfg : Config) (imgsz : Z * Z)
    (xy : list Q * list Q) (dx dy : Q) : Prop :=
  minGlobalShift cfg < Qabs dx + Qabs dy
  ∧ Forall (λ x, 0 <= x + dx ∧ x + dx < inject_Z (imgsz.1 - 2)) xy.1
  ∧ Forall (λ y, 0 <= y + dy ∧ y + dy < inject_Z (imgsz.2 - 2)) xy.2.

(** The acceptance test as the specification words it: the shift exceeds
    the threshold and every translated origin stays inside the image with a
    margin of one pixel at both ends of both axes, the pixels of an axis
    being [0 .. size-1]. *)
Definition shift_accepted_spec (cfg : Config) (imgsz : Z * Z)
    (xy : list Q * list Q) (dx dy : Q) : Prop :=
  minGlobalShift cfg < Qabs dx + Qabs dy
  ∧ Forall (λ x, 1 <= x + dx ∧ x + dx <= inject_Z (imgsz.1 - 2)) xy.1
  ∧ Forall (λ y, 1 <= y + dy ∧ y + dy <= inject_Z (imgsz.2 - 2)) xy.2.

(** The origins of acquisition [k] have been translated by [(dx, dy)]
    between two states. *)
Definition shift_applied (k : nat) (dx dy : Q) (σ σ' : State) : Prop :=
  ∃ a xy,
    heapOr σ !! scanOr (sm σ) = Some a ∧ a !! k = Some xy
    ∧ heapOr σ' !! scanOr (sm σ)
      = Some (<[k := ((λ x, x + dx) <$> xy.1, (λ y, y + dy) <$> xy.2)]> a).

(** The feathered target image as the specification words it: the scale of
    the distance is the configured [densityDist]. *)
Definition smooth_target_spec (E : Env) (cfg : Config) (s : sMerge)
    (median : Q) (k : nat) : option Image :=
  density ← imageDensity s !! k;
  image ← imageTransform s !! k;
  Some (feather image (density_mask E cfg (densityDist cfg) density) median).

(** The image and the density mask that [SPmakeImage] computes for
    acquisition [k] in a state: the reconstruction from the origins that
    [sm.scanOr] is bound to. *)
Definition reconstruction_of (E : Env) (σ : State) (k : nat)
  : option (Image * Image) :=
  a ← heapOr σ !! scanOr (sm σ);
  lines ← scanLines (sm σ) !! k;
  dir ← scanDir (sm σ) !! k;
  org ← a !! k;
  Some (reconstruct E lines dir org (imageSize (sm σ))).

(** ** Invariants of the refinement loop *)

(** The attributes that the loop body must leave alone once the row of the
    iteration has been written: the history and the number of
    acquisitions. *)
Definition keeps (X : list (Q * option Q)) (n : nat) (s : sMerge) : Prop :=
  stats s = X ∧ numImages s = n.

(** The test that halts the refinement: the pixels moved per image are
    below the threshold. *)
Definition below_threshold (cfg : Config) (n : nat) (pixelsMoved : Q) : Prop :=
  pixelsMoved / inject_Z (Z.of_nat n) < pixelsMovedThreshold cfg.

(** A computation that never exhausts the fuel of a loop. *)
Definition never_timeout {A} (m : M A) : Prop := ∀ σ, m σ ≠ Timeout.

(** ** A concrete instance *)

(** Square root, exact on quotients of squares. *)
Definition demo_sqrt (q : Q) : Q := Qmake (Z.sqrt (Qnum q)) (Pos.sqrt (Qden q)).

(** A positive stand-in for the exponential: [1/(1-q)] on [q <= 0]. *)
Definition demo_exp (q : Q) : Q :=
  if Qle_bool q 0 then 1 / (1 - q) else 1 + q.

(** A raster filled with one value. *)
Definition flat_image (size : Z * Z) (v : Q) : Image :=
  replicate (Z.to_nat size.1) (replicate (Z.to_nat size.2) v).

(** An environment over the rationals: the reconstruction paints the
    raster with the x origin of the first scanline and reports full
    coverage; every pixel is at distance 32 from the covered region; the
    correlation peak is always at [(4, 0)]. *)
Definition demo_env : Env :=
  {| reconstruct := λ _ _ org size,
       (flat_image size (default 0 (head org.1)), flat_image size 1);
     distance_transform := fmap (fmap (M := list) (λ _ : bool, 32));
     np_median := λ l, default 0 (head l);
     sin2_half_pi := λ t, t * t * (3 - 2 * t);
     phase_corr_peak := λ _ _, (4%Z, 0%Z);
     np_sqrt := demo_sqrt;
     np_exp := demo_exp |}.

(** Two acquisitions of two scanlines of two samples on a 6 by 6 raster,
    scanned along the two axes. *)
Definition demo_sm : sMerge :=
  {| numImages := 2; nr := 2; nc := 2;
     scanLines := [[[1; 2]; [3; 4]]; [[1; 2]; [3; 4]]];
     scanDir := [(1, 0); (0, 1)];
     scanOr := 0;
     imageSize := (6%Z, 6%Z);
     imageTransform := [flat_image (6%Z, 6%Z) 2; flat_image (6%Z, 6%Z) 2];
     imageDensity := [flat_image (6%Z, 6%Z) 1; flat_image (6%Z, 6%Z) 1];
     imageRef := None;
     stats := replicate 4 (0, Some 0) |}.

(** The origins of [demo_sm] and a step-size array whose steps have
    already been halved once. *)
Definition demo_state : State :=
  {| sm := demo_sm;
     heapOr := [[([2; 3], [1; 1]); ([2; 3], [1; 1])]];
     heapStep := [[[1 # 4; 1 # 4]; [1 # 4; 1 # 4]]] |}.

(** Three refinement steps, global correlation enabled, no smoothing. *)
Definition demo_config : Config :=
  {| refineMaxSteps := 3;
     densityCutoff := 8 # 10;
     refineInitialStep := 1 # 2;
     pixelsMovedThreshold := 1 # 10;
     stepSizeReduce := 1 # 2;
     flagPointOrder := true;
     originWindowAverage := 0;
     flagGlobalShift := true;
     flagGlobalShiftIncrease := false;
     minGlobalShift := 1;
     densityDist := 2;
     flagRemakeImage := true |}.

(** Three acquisitions: the third one is a copy of the second. *)
Definition demo_sm3 : sMerge :=
  {| numImages := 3; nr := 2; nc := 2;
     scanLines := [[[1; 2]; [3; 4]]; [[1; 2]; [3; 4]]; [[1; 2]; [3; 4]]];
     scanDir := [(1, 0); (0, 1); (0, 1)];
     scanOr := 0;
     imageSize := (6%Z, 6%Z);
     imageTransform := replicate 3 (flat_image (6%Z, 6%Z) 2);
     imageDensity := replicate 3 (flat_image (6%Z, 6%Z) 1);
     imageRef := None;
     stats := replicate 4 (0, Some 0) |}.

Definition demo_state3 : State :=
  {| sm := demo_sm3;
     heapOr := [[([2; 3], [1; 1]); ([2; 3], [1; 1]); ([2; 3], [1; 1])]];
     heapStep := [[[1 # 4; 1 # 4]; [1 # 4; 1 # 4]; [1 # 4; 1 # 4]]] |}.

(** ** Linear origin sequences *)

(** The row is an exact affine function of the line index. *)
Definition affine (row : list Q) : Prop :=
  ∃ c b, ∀ j x, row !! j = Some x → x == c + b * inject_Z (Z.of_nat j).

(** The origins of two acquisitions agree, up to the representation of
    the rationals. *)
Definition rows_eq (xy xy' : list Q * list Q) : Prop :=
  Forall2 Qeq xy.1 xy'.1 ∧ Forall2 Qeq xy.2 xy'.2.



(** ** Predicates on origins and step sizes *)



(** Two origin arrays, or two step-size arrays, have the same shape. *)
Definition same_shape_or (a a' : list (list Q * list Q)) : Prop :=
  Forall2 (λ xy xy', length xy'.1 = length xy.1 ∧ length xy'.2 = length xy.2)
    a a'.

Definition same_shape_step (a a' : list (list Q)) : Prop :=
  Forall2 (λ row row', length row' = length row) a a'.

(** Every step size of the array lies between 0 and [refineInitialStep]. *)
Definition steps_within (cfg : Config) (steps : list (list Q)) : Prop :=
  Forall (Forall (λ step, 0 <= step ∧ step <= refineInitialStep cfg)) steps.

(** The measured data, the geometry of the session and the number of
    reconstructed images are the same in two sMerge objects. *)
Definition same_data (s s' : sMerge) : Prop :=
  numImages s' = numImages s ∧ nr s' = nr s ∧ nc s' = nc s
  ∧ scanLines s' = scanLines s ∧ scanDir s' = scanDir s
  ∧ imageSize s' = imageSize s ∧ imageRef s' = imageRef s
  ∧ length (imageTransform s') = length (imageTransform s)
  ∧ length (imageDensity s') = length (imageDensity s).

(** The step-size arrays at the locations from [n0] on, the array at [n0]
    among them, hold step sizes between 0 and [refineInitialStep]. *)
Definition steps_bounded_from (cfg : Config) (n0 : nat) (σ : State) : Prop :=
  (n0 < length (heapStep σ))%nat
  ∧ ∀ l steps, (n0 ≤ l)%nat → heapStep σ !! l = Some steps →
               steps_within cfg steps.


(** ** The keyword arguments of [SPmerge02] *)

(** The value of a keyword argument: a number or a flag.  Python reads a
    flag where a number is expected as 0 or 1, and a number where a flag is
    expected as "is not zero". *)
Inductive Value :=
| VNum (q : Q)
| VFlag (b : bool).

Definition num_of (v : Value) : Q :=
  match v with
  | VNum q => q
  | VFlag b => if b then 1 else 0
  end.

Definition flag_of (v : Value) : bool :=
  match v with
  | VNum q => negb (Qeq_bool q 0)
  | VFlag b => b
  end.

(** [kwargs]: the keyword arguments in the order of the call.  The keys of
    a dict are distinct; [kwargs.get(key, dflt)] is the value of the entry
    of that key, or [dflt]. *)
Fixpoint kwargs_get (kwargs : list (string * Value)) (key : string)
    (dflt : Value) : Value :=
  match kwargs with
  | [] => dflt
  | (k, v) :: rest =>
      if decide (k = key) then v else kwargs_get rest key dflt
  end.

Definition _args_list : list string :=
  ["densityCutoff"; "distStart"; "initialShiftMaximum";
   "originInitialAverage"; "refineInitialStep";
   "pixelsMovedThreshold"; "stepSizeReduce"; "flagPointOrder";
   "originWindowAverage"; "flagGlobalShift";
   "flagGlobalShiftIncrease"; "minGlobalShift"; "densityDist";
   "flagRemakeImage"; "flagPlot"; "flagReportProgress"]%string.

(** [msg.format(key)] *)
Definition warning_of (key : string) : string :=
  ("The argument '" +:+ key +:+ "' is not recognised, and it is ignored.")%string.

(** The warnings of the loop over [kwargs.keys()] (lines 93-96), in the
    order in which they are issued. *)
Definition warnings_of (kwargs : list (string * Value)) : list string :=
  warning_of <$> filter (λ key, key ∉ _args_list) (kwargs.*1).

(** The local variables that lines 98-133 set from the arguments. *)
Record Settings := {
  config : Config;
  initialRefineSteps : nat;
  distStart : Q;
  initialShiftMaximum : Q;
  originInitialAverage : Q;
  flagPlot : bool;
  flagReportProgress : bool
}.

(** [np.mean(sm.scanLines.shape[1:])]: the mean of the number of lines
    and the number of samples per line. *)
Definition meanScanLines_of (s : sMerge) : Q :=
  let lines := default [] (head (scanLines s)) in
  mean [inject_Z (Z.of_nat (length lines));
        inject_Z (Z.of_nat (length (default [] (head lines))))].

(** Lines 98-133.  [scanActive_is_None] is the test [sm.scanActive is
    None]: no initial alignment has been performed on the session. *)
Definition settings_of (s : sMerge) (scanActive_is_None : bool)
    (refineMaxSteps_arg initialRefineSteps_arg : option nat)
    (kwargs : list (string * Value)) : Settings :=
  let meanScanLines := meanScanLines_of s in
  let num (key : string) (dflt : Q) := num_of (kwargs_get kwargs key (VNum dflt)) in
  let flag (key : string) (dflt : bool) :=
    flag_of (kwargs_get kwargs key (VFlag dflt)) in
  {| config :=
       {| refineMaxSteps := default 32%nat refineMaxSteps_arg;
          densityCutoff := num "densityCutoff"%string (8 # 10);
          refineInitialStep := num "refineInitialStep"%string (1 # 2);
          pixelsMovedThreshold := num "pixelsMovedThreshold"%string (1 # 10);
          stepSizeReduce := num "stepSizeReduce"%string (1 # 2);
          flagPointOrder := flag "flagPointOrder"%string true;
          originWindowAverage := num "originWindowAverage"%string 1;
          flagGlobalShift := flag "flagGlobalShift"%string false;
          flagGlobalShiftIncrease := flag "flagGlobalShiftIncrease"%string false;
          minGlobalShift := num "minGlobalShift"%string 1;
          densityDist := num "densityDist"%string (meanScanLines / 32);
          flagRemakeImage := flag "flagRemakeImage"%string true |};
     initialRefineSteps :=
       match initialRefineSteps_arg with
       | Some n => n
       | None => if scanActive_is_None then 8%nat else 0%nat
       end;
     distStart := num "distStart"%string (meanScanLines / 16);
     initialShiftMaximum := num "initialShiftMaximum"%string (1 # 4);
     originInitialAverage := num "originInitialAverage"%string (meanScanLines / 16);
     flagPlot := flag "flagPlot"%string true;
     flagReportProgress := flag "flagReportProgress"%string true |}.

(** ** Plotting: [_plot] *)

(** What [_plot] hands to matplotlib: the image of [matshow] ([None] when
    the array holds values that are not finite), for every acquisition
    the coordinates and the colour of its markers, and the two columns of
    the curve of the statistics when it is drawn. *)
Record Figure := {
  shown : option (list (list Q));
  markers : list (list Q * list Q * (Q * Q * Q));
  curve : option (list Q * list (option Q))
}.

(** The RGB colours. *)
Definition cvals : list (Q * Q * Q) :=
  [(1, 0, 0); (0, 7 # 10, 0); (0, 6 # 10, 1); (1, 7 # 10, 0); (1, 0, 1);
   (0, 0, 1)].

(** [dens = sm.imageDensity.sum(axis=0)] *)
Definition plot_dens (s : sMerge) : list (list Q) :=
  axis0 (default [] (head (imageTransform s))) vsum (imageDensity s).

(** [mask = dens > 0.5] *)
Definition plot_mask (s : sMerge) : list (list bool) :=
  fmap (fmap (M := list) (Qltb (1 # 2))) (plot_dens s).

(** [imagePlot] after line 450: the density-weighted sum of the images,
    divided by the density where this is positive. *)
Definition plot_average (s : sMerge) : list (list Q) :=
  let summed :=
    imap (λ (i : nat) (row : list Q), imap (λ (j : nat) (_ : Q),
            vsum (zip_with Qmult (pixels_at (imageTransform s) i j)
                    (pixels_at (imageDensity s) i j))) row)
      (default [] (head (imageTransform s))) in
  zip_with (zip_with (λ v d, if Qltb 0 d then v / d else v))
    summed (plot_dens s).

(** [imagePlot] after line 454, [None] when no pixel is selected and the
    mean is nan. *)
Definition plot_centred (s : sMerge) : option (list (list Q)) :=
  match select (plot_mask s) (plot_average s) with
  | [] => None
  | sel => Some (fmap (fmap (M := list) (λ v, v - mean sel)) (plot_average s))
  end.

(** [np.mean(imagePlot[mask]**2)] on line 455 *)
Definition plot_mean_square (centred : list (list Q)) (s : sMerge) : Q :=
  mean ((λ v, v * v) <$> select (plot_mask s) centred).

(** [imagePlot] after line 455. *)
Definition plot_image (E : Env) (s : sMerge) : option (list (list Q)) :=
  centred ← plot_centred s;
  let rms := np_sqrt E (plot_mean_square centred s) in
  if Qeq_bool rms 0 then None
  else Some (fmap (fmap (M := list) (λ v, v / rms)) centred).

Definition _plot (E : Env) : M Figure :=
  let* s := get_sm in
  let* a := load_or (scanOr s) in
  let* marks :=
    lift (mapM (λ k : nat,
                  xy ← a !! k;
                  c ← cvals !! (k mod length cvals)%nat;
                  Some (xy.2, xy.1, c)) (seq 0 (numImages s))) in
  ret {| shown := plot_image E s;
         markers := marks;
         curve := if decide (1 < length (stats s))%nat
                  then Some ((λ row : Q * option Q, row.1) <$> stats s,
                             (λ row : Q * option Q,
                                (λ m, m * 100) <$> row.2) <$> stats s)
                  else None |}.

(** ** The whole of [SPmerge02] *)

Section Entry.

Context (E : Env).

(** The initial alignment [SPmerge02_initial(sm, densityCutoff=...,
    distStart=..., initialShiftMaximum=...)] of the module
    [SPmerge02_initial], which is not part of the sources: any operation
    on the session. *)
Context (SPmerge02_initial : Q → Q → Q → M unit).

(** Lines 136-148. *)
Definition initial_alignment (st : Settings) : M unit :=
  if (0 <? initialRefineSteps st)%nat then
    forM (λ _ : nat,
            let* _ := SPmerge02_initial (densityCutoff (config st))
                        (distStart st) (initialShiftMaximum st) in
            if Qltb 0 (originInitialAverage st)
            then _kernel_on_origin E (originInitialAverage st)
            else ret tt)
      (seq 0 (initialRefineSteps st))
  else ret tt.

(** The function from its first line to its last: the warnings that it
    issues, and the run on the session, which returns the figure when one
    is drawn. *)
Definition SPmerge02_call (fuel : nat) (scanActive_is_None : bool)
    (refineMaxSteps_arg initialRefineSteps_arg : option nat)
    (kwargs : list (string * Value)) : list string * M (option Figure) :=
  (warnings_of kwargs,
   let* s := get_sm in
   let st := settings_of s scanActive_is_None refineMaxSteps_arg
               initialRefineSteps_arg kwargs in
   let* _ := initial_alignment st in
   let* _ := SPmerge02 E (config st) fuel in
   if flagPlot st
   then let* fig := _plot E in ret (Some fig)
   else ret None).

End Entry.

(** ** Further concrete instances *)

(** One acquisition of a single scanline. *)
Definition demo_state1 : State :=
  {| sm := {| numImages := 1; nr := 1; nc := 2;
              scanLines := [[[1; 2]]];
              scanDir := [(1, 0)];
              scanOr := 0;
              imageSize := (6%Z, 6%Z);
              imageTransform := [flat_image (6%Z, 6%Z) 2];
              imageDensity := [flat_image (6%Z, 6%Z) 1];
              imageRef := None;
              stats := replicate 4 (0, Some 0) |};
     heapOr := [[([2], [1])]];
     heapStep := [[[1 # 4]]] |}.

(** No refinement step. *)
Definition demo_config0 : Config :=
  {| refineMaxSteps := 0;
     densityCutoff := 8 # 10;
     refineInitialStep := 1 # 2;
     pixelsMovedThreshold := 1 # 10;
     stepSizeReduce := 1 # 2;
     flagPointOrder := true;
     originWindowAverage := 0;
     flagGlobalShift := false;
     flagGlobalShiftIncrease := false;
     minGlobalShift := 1;
     densityDist := 2;
     flagRemakeImage := false |}.

(** One acquisition whose image has the values 1 and 3, fully covered. *)
Definition demo_plot_state : State :=
  {| sm := {| numImages := 1; nr := 2; nc := 2;
              scanLines := [[[1; 3]; [1; 3]]];
              scanDir := [(1, 0)];
              scanOr := 0;
              imageSize := (2%Z, 2%Z);
              imageTransform := [[[1; 3]; [1; 3]]];
              imageDensity := [[[1; 1]; [1; 1]]];
              imageRef := None;
              stats := [(0, Some (1 # 2)); (1, Some (1 # 4))] |};
     heapOr := [[([0; 1], [0; 0])]];
     heapStep := [] |}.


(** An image whose value is the index of the row, and the session of
    [demo_state] with this image for the second acquisition. *)
Definition demo_ramp : list (list Q) :=
  (λ i : nat, replicate 6 (inject_Z (Z.of_nat i))) <$> seq 0 6.

Definition demo_state_ramp : State :=
  with_sm (set_images [flat_image (6%Z, 6%Z) 2; demo_ramp]
             (imageDensity demo_sm) demo_sm) demo_state.

(** ** Well-formed sessions *)

(** An origin array and a step-size array of the shape of the session. *)
Definition origins_ok (s : sMerge) (a : list (list Q * list Q)) : Prop :=
  length a = numImages s
  ∧ Forall (λ xy, length xy.1 = nr s ∧ length xy.2 = nr s) a.

Definition steps_ok (s : sMerge) (steps : list (list Q)) : Prop :=
  length steps = numImages s ∧ Forall (λ row, length row = nr s) steps.

(** The attributes of the session have the shapes that the counts
    [numImages], [nr] and [nc] and the raster of [R] by [C] pixels
    announce: there is an acquisition and a line, two lines when the
    ordering constraint looks at neighbours, and the raster has two rows
    and two columns for the bilinear blend. *)
Definition data_ok (cfg : Config) (R C : nat) (s : sMerge) : Prop :=
  (1 ≤ numImages s)%nat ∧ (1 ≤ nr s)%nat
  ∧ (flagPointOrder cfg = true → (2 ≤ nr s)%nat)
  ∧ imageSize s = (Z.of_nat R, Z.of_nat C) ∧ (2 ≤ R)%nat ∧ (2 ≤ C)%nat
  ∧ length (scanLines s) = numImages s
  ∧ Forall (λ lines, length lines = nr s
                     ∧ Forall (λ line : list Q, length line = nc s) lines)
      (scanLines s)
  ∧ length (scanDir s) = numImages s
  ∧ length (imageTransform s) = numImages s
  ∧ length (imageDensity s) = numImages s
  ∧ (∀ ref, imageRef s = Some ref → rect R C ref).

(** The reconstructed images have the shape of the raster. *)
Definition images_ok (R C : nat) (s : sMerge) : Prop :=
  Forall (rect R C) (imageTransform s) ∧ Forall (rect R C) (imageDensity s).

(** A well-formed session: the data are, and [sm.scanOr] is bound to an
    origin array of the shape of the session. *)
Definition well_formed (cfg : Config) (R C : nat) (σ : State) : Prop :=
  data_ok cfg R C (sm σ)
  ∧ ∃ a, heapOr σ !! scanOr (sm σ) = Some a ∧ origins_ok (sm σ) a.

(** The reconstruction returns an image and a density mask of the size of
    the raster. *)
Definition reconstruct_ok (E : Env) : Prop :=
  ∀ lines dir org size,
    rect (Z.to_nat size.1) (Z.to_nat size.2) (reconstruct E lines dir org size).1
    ∧ rect (Z.to_nat size.1) (Z.to_nat size.2)
        (reconstruct E lines dir org size).2.

(** The store while the session [s0] is refined: the data of [sm] are
    those of [s0], the history has [N] rows, [sm.scanOr] is bound to the
    array [l0] of the caller or to an array made since, and every origin
    array among these and every step-size array made since has the shape
    of the session. [n0] and [m0] are the sizes of the two stores when the
    refinement began. *)
Definition store_ok (s0 : sMerge) (l0 n0 m0 N : nat) (τ : State) : Prop :=
  same_data s0 (sm τ)
  ∧ length (stats (sm τ)) = N
  ∧ (scanOr (sm τ) = l0 ∨ n0 ≤ scanOr (sm τ))%nat
  ∧ (scanOr (sm τ) < length (heapOr τ))%nat
  ∧ (n0 ≤ length (heapOr τ))%nat ∧ (m0 ≤ length (heapStep τ))%nat
  ∧ (∀ l a, heapOr τ !! l = Some a → l = l0 ∨ (n0 ≤ l)%nat → origins_ok s0 a)
  ∧ (∀ l st, heapStep τ !! l = Some st → (m0 ≤ l)%nat → steps_ok s0 st).

(** * Properties *)

(** ** Arithmetic on floats *)

#[local] Arguments Qplus : simpl never.
#[local] Arguments Qmult : simpl never.
#[local] Arguments Qminus : simpl never.
#[local] Arguments Qopp : simpl never.
#[local] Arguments Qdiv : simpl never.
#[local] Arguments Qinv : simpl never.
#[local] Arguments Qabs : simpl never.
#[local] Arguments Qmin : simpl never.
#[local] Arguments Qmax : simpl never.
#[local] Arguments Qfloor : simpl never.
#[local] Arguments Qceiling : simpl never.
#[local] Arguments inject_Z : simpl never.
#[local] Arguments Qle_bool : simpl never.
#[local] Arguments Qeq_bool : simpl never.
#[local] Arguments Qltb : simpl never.
#[local] Arguments clip : simpl never.

Lemma Qltb_lt (a b : Q) : Qltb a b = true ↔ a < b.
Proof.
  unfold Qltb. rewrite negb_true_iff.
  destruct (Qle_bool b a) eqn:Hle.
  - apply Qle_bool_iff in Hle. split; [discriminate | intros; lra].
  - split; [intros _ | reflexivity].
    destruct (Qlt_le_dec a b) as [Hlt | Hge]; [exact Hlt |].
    apply Qle_bool_iff in Hge. congruence.
Qed.

Lemma Qltb_ge (a b : Q) : Qltb a b = false ↔ b <= a.
Proof.
  destruct (Qltb a b) eqn:Hlt.
  - apply Qltb_lt in Hlt. split; [discriminate | intros; lra].
  - split; [intros _ | reflexivity].
    destruct (Qlt_le_dec a b) as [H | H]; [| exact H].
    apply Qltb_lt in H. congruence.
Qed.

Lemma clip_bounds (x hi : Q) : 0 <= hi → 0 <= clip x 0 hi ∧ clip x 0 hi <= hi.
Proof.
  intros Hhi. unfold clip. split.
  - apply Q.min_glb; [apply Q.le_max_r | exact Hhi].
  - apply Q.le_min_r.
Qed.

Lemma vsum_ext {A} (f g : A → Q) (l : list A) :
  Forall (λ a, f a == g a) l → vsum (f <$> l) == vsum (g <$> l).
Proof.
  induction 1 as [| a l Ha _ IH]; simpl; [reflexivity |].
  unfold vsum in IH. rewrite Ha, IH. reflexivity.
Qed.

Lemma zip_with_fmap_same {A B C D} (f : B → C → D) (g : A → B) (h : A → C)
    (l : list A) :
  zip_with f (g <$> l) (h <$> l) = (λ a, f (g a) (h a)) <$> l.
Proof. induction l as [| a l IH]; simpl; [done |]. f_equal. exact IH. Qed.

(** ** Row-major indexing *)

Lemma ravel_lookup (R C : nat) (image : Image) (x y : nat) :
  rect R C image → (x < R)%nat → (y < C)%nat →
  ravel image !! (x * C + y)%nat = image !! x ≫= λ row, row !! y.
Proof.
  intros [Hlen Hrows]. revert R x Hlen.
  induction Hrows as [| row rest Hrow _ IH]; intros R x Hlen Hx Hy.
  - simpl in Hlen. lia.
  - unfold ravel in *. simpl. destruct x as [| x].
    + simpl. rewrite lookup_app_l by lia. done.
    + simpl in Hlen. rewrite lookup_app_r by lia.
      replace (S x * C + y - length row)%nat with (x * C + y)%nat by lia.
      simpl. apply (IH (R - 1)%nat); lia.
Qed.

Lemma shape_rect (R C : nat) (image : Image) :
  rect R C image → (1 ≤ R)%nat → shape image = (Z.of_nat R, Z.of_nat C).
Proof.
  intros [Hlen Hrows] HR. unfold shape. destruct image as [| row rest].
  - simpl in Hlen. lia.
  - apply Forall_cons in Hrows as [Hrow _]. by rewrite Hlen, Hrow.
Qed.

Lemma pixel_in_bounds (R C : nat) (image : Image) (x y : Z) :
  rect R C image → (0 ≤ x < Z.of_nat R)%Z → (0 ≤ y < Z.of_nat C)%Z →
  ∃ v, pixel image x y = Some v
       ∧ ravel image !! Z.to_nat (x * Z.of_nat C + y) = Some v.
Proof.
  intros Hrect Hx Hy.
  assert (Hidx : Z.to_nat (x * Z.of_nat C + y)
                 = (Z.to_nat x * C + Z.to_nat y)%nat) by nia.
  rewrite Hidx, (ravel_lookup R C) by (done || lia).
  unfold pixel.
  replace (0 <=? x)%Z with true by (symmetry; apply Z.leb_le; lia).
  replace (0 <=? y)%Z with true by (symmetry; apply Z.leb_le; lia).
  destruct Hrect as [Hlen Hrows].
  destruct (lookup_lt_is_Some_2 image (Z.to_nat x)) as [row Hrow]; [lia |].
  assert (length row = C) as Hl
    by (eapply (proj1 (Forall_lookup _ _) Hrows); exact Hrow).
  destruct (lookup_lt_is_Some_2 row (Z.to_nat y)) as [v Hv]; [lia |].
  exists v. rewrite Hrow. simpl. by rewrite Hv.
Qed.

Lemma ravel_multi_index_fmap {A} (R C : nat) (fx fy : A → Z) (l : list A) :
  Forall (λ a, (0 ≤ fx a < Z.of_nat R ∧ 0 ≤ fy a < Z.of_nat C)%Z) l →
  ravel_multi_index (fx <$> l) (fy <$> l) (Z.of_nat R, Z.of_nat C)
  = Some ((λ a, (fx a * Z.of_nat C + fy a)%Z) <$> l).
Proof.
  intros Hall. unfold ravel_multi_index. apply mapM_Some.
  induction Hall as [| a l [Hx Hy] _ IH]; simpl; constructor; [| exact IH].
  unfold ravel_multi_index1. simpl.
  replace (0 <=? fx a)%Z with true by (symmetry; apply Z.leb_le; lia).
  replace (fx a <? Z.of_nat R)%Z with true by (symmetry; apply Z.ltb_lt; lia).
  replace (0 <=? fy a)%Z with true by (symmetry; apply Z.leb_le; lia).
  replace (fy a <? Z.of_nat C)%Z with true by (symmetry; apply Z.ltb_lt; lia).
  done.
Qed.

Lemma take_flat_fmap {A} (R C : nat) (image : Image) (fx fy : A → Z)
    (l : list A) :
  rect R C image →
  Forall (λ a, (0 ≤ fx a < Z.of_nat R ∧ 0 ≤ fy a < Z.of_nat C)%Z) l →
  take_flat (ravel image) ((λ a, (fx a * Z.of_nat C + fy a)%Z) <$> l)
  = Some ((λ a, default 0 (pixel image (fx a) (fy a))) <$> l).
Proof.
  intros Hrect Hall. unfold take_flat. apply mapM_Some.
  induction Hall as [| a l [Hx Hy] _ IH]; simpl; constructor; [| exact IH].
  destruct (pixel_in_bounds R C image (fx a) (fy a)) as (v & Hv & Hr);
    [done.. |].
  by rewrite Hv, Hr.
Qed.

(** ** ScoreFunction *)

(** [calcScore] on arrays that are given sample by sample: all lookups
    succeed when the corners are inside the image, and the score is the sum
    of the absolute differences between blend and measurement. *)
Lemma calcScore_fmap {A} (R C : nat) (image : Image) (fx fy : A → Z)
    (gx gy gm : A → Q) (l : list A) :
  rect R C image → (1 ≤ R)%nat →
  Forall (λ a, corner_ok R C (fx a) (fy a)) l →
  calcScore image (fx <$> l) (fy <$> l) (gx <$> l) (gy <$> l) (gm <$> l)
  = Some (vsum ((λ a,
       Qabs (default 0 (pixel image (fx a) (fy a)) * (1 - gx a) * (1 - gy a)
             + default 0 (pixel image (fx a + 1) (fy a)) * gx a * (1 - gy a)
             + default 0 (pixel image (fx a) (fy a + 1)) * (1 - gx a) * gy a
             + default 0 (pixel image (fx a + 1) (fy a + 1)) * gx a * gy a
             - gm a)) <$> l)).
Proof.
  intros Hrect HR Hall. unfold calcScore.
  rewrite (shape_rect R C) by done.
  assert (H1 : Forall (λ a, (0 ≤ fx a < Z.of_nat R ∧ 0 ≤ fy a < Z.of_nat C)%Z) l)
    by (eapply Forall_impl; [exact Hall | unfold corner_ok; simpl; lia]).
  assert (H2 : Forall (λ a, (0 ≤ Z.succ (fx a) < Z.of_nat R
                             ∧ 0 ≤ fy a < Z.of_nat C)%Z) l)
    by (eapply Forall_impl; [exact Hall | unfold corner_ok; simpl; lia]).
  assert (H3 : Forall (λ a, (0 ≤ fx a < Z.of_nat R
                             ∧ 0 ≤ Z.succ (fy a) < Z.of_nat C)%Z) l)
    by (eapply Forall_impl; [exact Hall | unfold corner_ok; simpl; lia]).
  assert (H4 : Forall (λ a, (0 ≤ Z.succ (fx a) < Z.of_nat R
                             ∧ 0 ≤ Z.succ (fy a) < Z.of_nat C)%Z) l)
    by (eapply Forall_impl; [exact Hall | unfold corner_ok; simpl; lia]).
  rewrite <- !list_fmap_compose.
  rewrite (ravel_multi_index_fmap R C fx fy) by done.
  rewrite (ravel_multi_index_fmap R C (Z.succ ∘ fx) fy) by done.
  rewrite (ravel_multi_index_fmap R C fx (Z.succ ∘ fy)) by done.
  rewrite (ravel_multi_index_fmap R C (Z.succ ∘ fx) (Z.succ ∘ fy)) by done.
  simpl.
  rewrite (take_flat_fmap R C image fx fy) by done.
  rewrite (take_flat_fmap R C image (Z.succ ∘ fx) fy) by done.
  rewrite (take_flat_fmap R C image fx (Z.succ ∘ fy)) by done.
  rewrite (take_flat_fmap R C image (Z.succ ∘ fx) (Z.succ ∘ fy)) by done.
  simpl. unfold vmul, vadd, vone_minus, vsub.
  rewrite <- !list_fmap_compose.
  rewrite !zip_with_fmap_same.
  rewrite !length_fmap, Nat.eqb_refl. simpl.
  rewrite <- list_fmap_compose. reflexivity.
Qed.

Lemma floor_clip_bounds (x : Q) (n : nat) :
  (2 ≤ n)%nat →
  (0 ≤ Qfloor (clip x 0 (inject_Z (Z.of_nat n - 2)))
   ∧ Qfloor (clip x 0 (inject_Z (Z.of_nat n - 2))) + 1 < Z.of_nat n)%Z.
Proof.
  intros Hn.
  assert (Hhi : 0 <= inject_Z (Z.of_nat n - 2)).
  { change 0 with (inject_Z 0). rewrite <- Zle_Qle. lia. }
  destruct (clip_bounds x _ Hhi) as [Hlo Hup].
  apply Qfloor_resp_le in Hlo, Hup.
  rewrite Qfloor_Z in Hup. change (Qfloor 0) with 0%Z in Hlo. lia.
Qed.

Lemma corner_ok_pixels (R C : nat) (image : Image) (x y : Q) :
  rect R C image → corner_ok R C (Qfloor x) (Qfloor y) →
  corners_in_bounds image x y.
Proof.
  intros Hrect (Hx0 & Hx1 & Hy0 & Hy1). unfold corners_in_bounds.
  repeat split.
  all: match goal with
       | |- is_Some (pixel _ ?a ?b) =>
           destruct (pixel_in_bounds R C image a b) as (v & Hv & _);
           [done | lia | lia | by rewrite Hv]
       end.
Qed.

(** C3. The score of a candidate origin is the sum over the sample indices
    [i = 1..nc] of the absolute difference between the measured intensity
    and the four-corner bilinear blend of the reference field at
    [origin + i * scanDir] clamped into [[0, size-2]] on each axis;
    computing it leaves the program state as it was; and under the clamp the
    four corners of every blend are pixels of the field. *)
Theorem score_is_clamped_bilinear_sad (s : sMerge) (image : Image)
    (R C k m : nat) (p sd : Q * Q) (meas : list Q) :
  rect R C image → (2 ≤ R)%nat → (2 ≤ C)%nat →
  imageSize s = (Z.of_nat R, Z.of_nat C) →
  scanDir s !! k = Some sd →
  (scanLines s !! k ≫= λ lines, lines !! m) = Some meas →
  length meas = nc s →
  (∃ v, score_candidate s image k m p = Some v
        ∧ v == score_spec image (imageSize s) p sd meas
        ∧ ∀ σ, sm σ = s →
               lift (score_candidate (sm σ) image k m p) σ = Ok v σ)
  ∧ ∀ i, (1 ≤ i ≤ nc s)%nat →
         corners_in_bounds image (sample_at (imageSize s) p sd i).1
                                 (sample_at (imageSize s) p sd i).2.
Proof.
  intros Hrect HR HC Hsize Hsd Hmeas Hlen.
  assert (Hcorner : ∀ i, corner_ok R C
            (Qfloor (sample_at (imageSize s) p sd i).1)
            (Qfloor (sample_at (imageSize s) p sd i).2)).
  { intros i. unfold sample_at, corner_ok. rewrite Hsize. simpl.
    pose proof (floor_clip_bounds
                  (p.1 + inject_Z (Z.of_nat i) * sd.1) R HR).
    pose proof (floor_clip_bounds
                  (p.2 + inject_Z (Z.of_nat i) * sd.2) C HC).
    lia. }
  split; [| intros i _; by apply (corner_ok_pixels R C)].
  set (l := zip (seq 1 (nc s)) meas).
  assert (Hfst : seq 1 (nc s) = l.*1)
    by (symmetry; apply fst_zip; rewrite length_seq; lia).
  assert (Hsnd : meas = l.*2)
    by (symmetry; apply snd_zip; rewrite length_seq; lia).
  set (cx := λ a : nat * Q, (sample_at (imageSize s) p sd a.1).1).
  set (cy := λ a : nat * Q, (sample_at (imageSize s) p sd a.1).2).
  assert (Hscore : score_candidate s image k m p
    = calcScore image ((Qfloor ∘ cx) <$> l) ((Qfloor ∘ cy) <$> l)
        ((λ a, cx a - inject_Z (Qfloor (cx a))) <$> l)
        ((λ a, cy a - inject_Z (Qfloor (cy a))) <$> l)
        (snd <$> l)).
  { unfold score_candidate. rewrite Hsd. simpl. rewrite Hmeas. simpl.
    unfold sample_coords. rewrite Hfst, <- Hsnd.
    rewrite <- !list_fmap_compose, !zip_with_fmap_same.
    reflexivity. }
  assert (Hall : Forall (λ a, corner_ok R C ((Qfloor ∘ cx) a) ((Qfloor ∘ cy) a)) l)
    by (apply Forall_forall; intros a _; apply Hcorner).
  rewrite Hscore, (calcScore_fmap R C) by (done || lia).
  eexists. split; [reflexivity |]. split.
  - unfold score_spec. rewrite Hlen. fold l.
    apply vsum_ext, Forall_forall. intros [i v] _. simpl.
    rewrite Qabs_Qminus. apply Qabs_wd. unfold bilinear, cx, cy. simpl. ring.
  - intros σ ->. unfold lift. rewrite Hscore.
    rewrite (calcScore_fmap R C) by (done || lia).
    reflexivity.
Qed.

(** ** OriginOrderConstraint *)







(** ** Reasoning about runs *)

Lemma bind_Ok {A B} (m : M A) (f : A → M B) (σ σ' : State) (b : B) :
  bind m f σ = Ok b σ' ↔ ∃ a σ1, m σ = Ok a σ1 ∧ f a σ1 = Ok b σ'.
Proof.
  unfold bind. destruct (m σ) as [a σ1 | |]; split.
  - intros H. by exists a, σ1.
  - intros (a' & σ2 & [= <- <-] & H). done.
  - done.
  - intros (? & ? & ? & _). done.
  - done.
  - intros (? & ? & ? & _). done.
Qed.

Lemma lift_Ok {A} (o : option A) (σ σ' : State) (a : A) :
  lift o σ = Ok a σ' ↔ o = Some a ∧ σ' = σ.
Proof.
  unfold lift. destruct o as [a' |]; split.
  - intros [= <- <-]. done.
  - intros [[= <-] ->]. done.
  - done.
  - intros [? _]. done.
Qed.

Lemma ret_Ok {A} (a b : A) (σ σ' : State) :
  ret a σ = Ok b σ' ↔ b = a ∧ σ' = σ.
Proof. unfold ret. split; [intros [= <- <-] | intros [-> ->]]; done. Qed.

Lemma get_sm_Ok (σ σ' : State) (s : sMerge) :
  get_sm σ = Ok s σ' ↔ s = sm σ ∧ σ' = σ.
Proof. unfold get_sm. split; [intros [= <- <-] | intros [-> ->]]; done. Qed.

Lemma put_sm_Ok (s : sMerge) (σ σ' : State) (u : unit) :
  put_sm s σ = Ok u σ' ↔ σ' = with_sm s σ.
Proof.
  unfold put_sm. destruct u. split; [intros [= <-] | intros ->]; done.
Qed.

Lemma load_or_Ok (l : nat) (σ σ' : State) (a : list (list Q * list Q)) :
  load_or l σ = Ok a σ' ↔ heapOr σ !! l = Some a ∧ σ' = σ.
Proof. unfold load_or. apply lift_Ok. Qed.

Lemma load_step_Ok (l : nat) (σ σ' : State) (a : list (list Q)) :
  load_step l σ = Ok a σ' ↔ heapStep σ !! l = Some a ∧ σ' = σ.
Proof. unfold load_step. apply lift_Ok. Qed.

Lemma store_or_Ok (l : nat) (a : list (list Q * list Q)) (σ σ' : State)
    (u : unit) :
  store_or l a σ = Ok u σ' ↔ σ' = with_heapOr (<[l := a]> (heapOr σ)) σ.
Proof.
  unfold store_or. destruct u. split; [intros [= <-] | intros ->]; done.
Qed.

Lemma store_step_Ok (l : nat) (a : list (list Q)) (σ σ' : State) (u : unit) :
  store_step l a σ = Ok u σ' ↔ σ' = with_heapStep (<[l := a]> (heapStep σ)) σ.
Proof.
  unfold store_step. destruct u. split; [intros [= <-] | intros ->]; done.
Qed.

Lemma alloc_or_Ok (a : list (list Q * list Q)) (σ σ' : State) (l : nat) :
  alloc_or a σ = Ok l σ'
  ↔ l = length (heapOr σ) ∧ σ' = with_heapOr (heapOr σ ++ [a]) σ.
Proof.
  unfold alloc_or. split; [intros [= <- <-] | intros [-> ->]]; done.
Qed.

Lemma alloc_step_Ok (a : list (list Q)) (σ σ' : State) (l : nat) :
  alloc_step a σ = Ok l σ'
  ↔ l = length (heapStep σ) ∧ σ' = with_heapStep (heapStep σ ++ [a]) σ.
Proof.
  unfold alloc_step. split; [intros [= <- <-] | intros [-> ->]]; done.
Qed.

(** Decompose a successful run into the runs of its statements. *)
Ltac inv_run :=
  repeat match goal with
    | H : bind _ _ _ = Ok _ _ |- _ =>
        let a := fresh "a" in
        let σ := fresh "σ" in
        let H1 := fresh "Hrun" in
        apply bind_Ok in H as (a & σ & H1 & H)
    | H : lift _ _ = Ok _ _ |- _ => apply lift_Ok in H as [H ->]
    | H : ret _ _ = Ok _ _ |- _ => apply ret_Ok in H as [-> ->]
    | H : get_sm _ = Ok _ _ |- _ => apply get_sm_Ok in H as [-> ->]
    | H : put_sm _ _ = Ok _ _ |- _ => apply put_sm_Ok in H as ->
    | H : load_or _ _ = Ok _ _ |- _ => apply load_or_Ok in H as [H ->]
    | H : load_step _ _ = Ok _ _ |- _ => apply load_step_Ok in H as [H ->]
    | H : store_or _ _ _ = Ok _ _ |- _ => apply store_or_Ok in H as ->
    | H : store_step _ _ _ = Ok _ _ |- _ => apply store_step_Ok in H as ->
    | H : alloc_or _ _ = Ok _ _ |- _ => apply alloc_or_Ok in H as [-> ->]
    | H : alloc_step _ _ = Ok _ _ |- _ => apply alloc_step_Ok in H as [-> ->]
    end.

(** ** The choice among the candidates *)

Lemma argmin_from_spec (l : list Q) (best : Q) (besti i : nat) :
  let r := argmin_from best besti i l in
  (r = besti ∧ ∀ j w, l !! j = Some w → best <= w)
  ∨ (∃ j v, r = (i + j)%nat ∧ l !! j = Some v ∧ v < best
            ∧ (∀ j' w, l !! j' = Some w → v <= w)
            ∧ (∀ j' w, (j' < j)%nat → l !! j' = Some w → v < w)).
Proof.
  revert best besti i. induction l as [| x l IH]; intros best besti i; simpl.
  - left. split; [done |]. intros j w H. done.
  - destruct (Qltb x best) eqn:Hx.
    + apply Qltb_lt in Hx. right.
      destruct (IH x i (S i)) as [[Hr Hmin] | (j & v & Hr & Hj & Hv & Hmin & Hfirst)].
      * exists 0%nat, x. rewrite Hr. repeat split; [f_equal; lia | done | |].
        -- intros [| j'] w Hw; simpl in Hw; [injection Hw as <-; lra |].
           by apply (Hmin j').
        -- intros j' w Hj'. lia.
      * exists (S j), v. rewrite Hr. repeat split; [lia | done | lra | |].
        -- intros [| j'] w Hw; simpl in Hw; [injection Hw as <-; lra |].
           by apply (Hmin j').
        -- intros [| j'] w Hlt Hw; simpl in Hw; [injection Hw as <-; lra |].
           apply (Hfirst j'); [lia | done].
    + apply Qltb_ge in Hx.
      destruct (IH best besti (S i)) as [[Hr Hmin] | (j & v & Hr & Hj & Hv & Hmin & Hfirst)].
      * left. split; [done |].
        intros [| j'] w Hw; simpl in Hw; [injection Hw as <-; lra |].
        by apply (Hmin j').
      * right. exists (S j), v. rewrite Hr. repeat split; [lia | done | done | |].
        -- intros [| j'] w Hw; simpl in Hw; [injection Hw as <-; lra |].
           by apply (Hmin j').
        -- intros [| j'] w Hlt Hw; simpl in Hw; [injection Hw as <-; lra |].
           apply (Hfirst j'); [lia | done].
Qed.

(** [np.argmin] returns the first index of a minimal score. *)
Lemma argmin_first_min (score : list Q) (ind : nat) :
  argmin score = Some ind →
  ∃ v, score !! ind = Some v
       ∧ (∀ j w, score !! j = Some w → v <= w)
       ∧ (∀ j w, (j < ind)%nat → score !! j = Some w → v < w).
Proof.
  destruct score as [| x l]; [done |]. intros [= <-].
  destruct (argmin_from_spec l x 0 1)
    as [[Hr Hmin] | (j & v & Hr & Hj & Hv & Hmin & Hfirst)].
  - exists x. rewrite Hr. repeat split; [| intros; lia].
    intros [| j] w Hw; simpl in Hw; [injection Hw as <-; lra |].
    by apply (Hmin j).
  - exists v. rewrite Hr. repeat split; [done | |].
    + intros [| j'] w Hw; simpl in Hw; [injection Hw as <-; lra |].
      by apply (Hmin j').
    + intros [| j'] w Hlt Hw; simpl in Hw; [injection Hw as <-; lra |].
      apply (Hfirst j'); [lia | done].
Qed.

Lemma argmin_zero_wins_ties (score : list Q) (ind : nat) (s0 : Q) :
  argmin score = Some ind → score !! 0%nat = Some s0 →
  (∀ j w, score !! j = Some w → s0 <= w) → ind = 0%nat.
Proof.
  intros Harg H0 Hmin.
  destruct (argmin_first_min score ind Harg) as (v & Hv & _ & Hfirst).
  destruct ind as [| n]; [done |].
  pose proof (Hfirst 0%nat s0 ltac:(lia) H0).
  pose proof (Hmin (S n) v Hv). lra.
Qed.

Lemma orTest_of_length (s : sMerge) (order : option ((Q * Q) * list Q))
    (m : nat) (o : Q * Q) (step : Q) (orTest : list (Q * Q)) :
  orTest_of s order m o step = Some orTest → length orTest = 5%nat.
Proof.
  unfold orTest_of. destruct order as [[nn vParam] |].
  - destruct (vBound_of vParam (nr s) m); [| done].
    intros [= <-]. reflexivity.
  - intros [= <-]. reflexivity.
Qed.

(** The outcome of the refinement of one scanline. *)
Lemma refine_line_Ok (E : Env) (cfg : Config) (imageAlign : Image)
    (scanOrStep k m : nat) (order : option ((Q * Q) * list Q))
    (pixelsMoved moved' : Q) (σ σ' : State) :
  refine_line E cfg imageAlign scanOrStep k order m pixelsMoved σ
  = Ok moved' σ' →
  ∃ a steps o step orTest score ind,
    heapOr σ !! scanOr (sm σ) = Some a ∧ or_get a k m = Some o
    ∧ heapStep σ !! scanOrStep = Some steps ∧ step_get steps k m = Some step
    ∧ orTest_of (sm σ) order m o step = Some orTest
    ∧ mapM (score_candidate (sm σ) imageAlign k m) orTest = Some score
    ∧ argmin score = Some ind
    ∧ length orTest = 5%nat ∧ length score = 5%nat
    ∧ (∃ v, score !! ind = Some v
            ∧ (∀ j w, score !! j = Some w → v <= w)
            ∧ (∀ j w, (j < ind)%nat → score !! j = Some w → v < w))
    ∧ (∀ s0, score !! 0%nat = Some s0 →
             (∀ j w, score !! j = Some w → s0 <= w) → ind = 0%nat)
    ∧ (ind = 0%nat →
         moved' = pixelsMoved
         ∧ sm σ' = sm σ ∧ heapOr σ' = heapOr σ
         ∧ ∃ steps', step_set steps k m (step * stepSizeReduce cfg) = Some steps'
                     ∧ heapStep σ' = <[scanOrStep := steps']> (heapStep σ))
    ∧ (ind ≠ 0%nat →
         ∃ best a', orTest !! ind = Some best
           ∧ moved' = pixelsMoved
                      + np_sqrt E ((best.1 - o.1) * (best.1 - o.1)
                                   + (best.2 - o.2) * (best.2 - o.2))
           ∧ sm σ' = sm σ ∧ heapStep σ' = heapStep σ
           ∧ or_set a k m best = Some a'
           ∧ heapOr σ' = <[scanOr (sm σ) := a']> (heapOr σ))
    ∧ stepSizeReduce (default_config 0) = 1 # 2.
Proof.
  intros Hrun. unfold refine_line, read_origin in Hrun. inv_run.
  do 7 eexists. do 7 (split; [eassumption |]).
  match goal with
  | H : orTest_of _ _ _ _ _ = Some _ |- _ =>
      pose proof (orTest_of_length _ _ _ _ _ _ H) as Hlen5
  end.
  match goal with
  | H : mapM _ _ = Some _ |- _ => pose proof (length_mapM _ _ _ H) as Hlens
  end.
  split; [exact Hlen5 |]. split; [by rewrite <- Hlens |].
  split; [by apply argmin_first_min |].
  split; [| split; [| split; [| done]]].
  - intros s0 H0 Hmin. by eapply argmin_zero_wins_ties.
  - intros ->. rewrite decide_True in Hrun by done. inv_run.
    repeat (split; [done |]). by eexists.
  - intros Hne. rewrite decide_False in Hrun by done.
    unfold write_origin in Hrun. inv_run.
    simpl in *. simplify_eq.
    eexists _, _. repeat (split; [done |]). done.
Qed.

(** C2. In the search of one scanline there are five candidates, and the
    one that is committed is the first index of a minimal score: the
    candidate of index 0 wins every tie of the minimal score.  When index 0
    wins, the step size of the line is multiplied by [stepSizeReduce] (0.5 by
    default) and no origin changes; when another candidate wins, it is
    written to [scanOr[k, :, m]] and the Euclidean norm of its displacement
    from the old origin is added to [pixelsMoved]. *)
Theorem refine_line_commits_argmin (E : Env) (cfg : Config) (imageAlign : Image)
    (scanOrStep k m : nat) (order : option ((Q * Q) * list Q))
    (pixelsMoved moved' : Q) (σ σ' : State) :
  refine_line E cfg imageAlign scanOrStep k order m pixelsMoved σ
  = Ok moved' σ' →
  ∃ a steps o step orTest score ind,
    heapOr σ !! scanOr (sm σ) = Some a ∧ or_get a k m = Some o
    ∧ heapStep σ !! scanOrStep = Some steps ∧ step_get steps k m = Some step
    ∧ orTest_of (sm σ) order m o step = Some orTest
    ∧ mapM (score_candidate (sm σ) imageAlign k m) orTest = Some score
    ∧ argmin score = Some ind
    ∧ length orTest = 5%nat ∧ length score = 5%nat
    ∧ (∃ v, score !! ind = Some v
            ∧ (∀ j w, score !! j = Some w → v <= w)
            ∧ (∀ j w, (j < ind)%nat → score !! j = Some w → v < w))
    ∧ (∀ s0, score !! 0%nat = Some s0 →
             (∀ j w, score !! j = Some w → s0 <= w) → ind = 0%nat)
    ∧ (ind = 0%nat →
         moved' = pixelsMoved
         ∧ sm σ' = sm σ ∧ heapOr σ' = heapOr σ
         ∧ ∃ steps', step_set steps k m (step * stepSizeReduce cfg) = Some steps'
                     ∧ heapStep σ' = <[scanOrStep := steps']> (heapStep σ))
    ∧ (ind ≠ 0%nat →
         ∃ best a', orTest !! ind = Some best
           ∧ moved' = pixelsMoved
                      + np_sqrt E ((best.1 - o.1) * (best.1 - o.1)
                                   + (best.2 - o.2) * (best.2 - o.2))
           ∧ sm σ' = sm σ ∧ heapStep σ' = heapStep σ
           ∧ or_set a k m best = Some a'
           ∧ heapOr σ' = <[scanOr (sm σ) := a']> (heapOr σ))
    ∧ stepSizeReduce (default_config 0) = 1 # 2.
Proof. apply refine_line_Ok. Qed.

(** ** GlobalPhaseCorrelation: the acceptance of a shift *)

Lemma foldl_Qmin_ge (c x : Q) (r : list Q) :
  c <= foldl Qmin x r ↔ c <= x ∧ Forall (λ y, c <= y) r.
Proof.
  revert x. induction r as [| y r IH]; intros x; simpl.
  - split; [intros H; split; [done | constructor] | intros [H _]; done].
  - rewrite IH, Q.min_glb_iff, Forall_cons. tauto.
Qed.

Lemma foldl_Qmax_lt (b x : Q) (r : list Q) :
  foldl Qmax x r < b ↔ x < b ∧ Forall (λ y, y < b) r.
Proof.
  revert x. induction r as [| y r IH]; intros x; simpl.
  - split; [intros H; split; [done | constructor] | intros [H _]; done].
  - rewrite IH, Q.max_lub_lt_iff, Forall_cons. tauto.
Qed.

Lemma vmin_ge (c : Q) (l : list Q) (v : Q) :
  vmin l = Some v → (Qle_bool c v = true ↔ Forall (λ y, c <= y) l).
Proof.
  destruct l as [| x r]; [done |]. intros [= <-].
  rewrite Qle_bool_iff, foldl_Qmin_ge, Forall_cons. tauto.
Qed.

Lemma vmax_lt (b : Q) (l : list Q) (v : Q) :
  vmax l = Some v → (Qltb v b = true ↔ Forall (λ y, y < b) l).
Proof.
  destruct l as [| x r]; [done |]. intros [= <-].
  rewrite Qltb_lt, foldl_Qmax_lt, Forall_cons. tauto.
Qed.

Lemma withinBoundary_of_spec (imgsz : Z * Z) (xs ys : list Q) (dx dy : Q)
    (b : bool) :
  withinBoundary_of imgsz ((λ x, x + dx) <$> xs) ((λ y, y + dy) <$> ys) = Some b →
  (b = true
   ↔ Forall (λ x, 0 <= x + dx ∧ x + dx < inject_Z (imgsz.1 - 2)) xs
     ∧ Forall (λ y, 0 <= y + dy ∧ y + dy < inject_Z (imgsz.2 - 2)) ys).
Proof.
  unfold withinBoundary_of. intros H.
  destruct (vmin ((λ x, x + dx) <$> xs)) as [xmin |] eqn:Hxmin; [| done].
  destruct (vmax ((λ x, x + dx) <$> xs)) as [xmax |] eqn:Hxmax; [| done].
  destruct (vmin ((λ y, y + dy) <$> ys)) as [ymin |] eqn:Hymin; [| done].
  destruct (vmax ((λ y, y + dy) <$> ys)) as [ymax |] eqn:Hymax; [| done].
  simpl in H. injection H as <-.
  rewrite !andb_true_iff.
  rewrite (vmin_ge 0 _ _ Hxmin), (vmax_lt _ _ _ Hxmax),
    (vmin_ge 0 _ _ Hymin), (vmax_lt _ _ _ Hymax).
  rewrite !Forall_fmap, !Forall_and. unfold compose. tauto.
Qed.

Lemma shift_accepted_dec (cfg : Config) (imgsz : Z * Z) (xy : list Q * list Q)
    (dx dy : Q) (b : bool) :
  withinBoundary_of imgsz ((λ x, x + dx) <$> xy.1) ((λ y, y + dy) <$> xy.2)
  = Some b →
  (Qltb (minGlobalShift cfg) (Qabs dx + Qabs dy) && b = true
   ↔ shift_accepted cfg imgsz xy dx dy).
Proof.
  intros Hb. unfold shift_accepted.
  rewrite andb_true_iff, Qltb_lt, (withinBoundary_of_spec _ _ _ _ _ _ Hb).
  tauto.
Qed.

Lemma or_set_rows_Some (a : list (list Q * list Q)) (k : nat) (xs ys : list Q)
    (a' : list (list Q * list Q)) :
  or_set_rows a k xs ys = Some a' → a' = <[k := (xs, ys)]> a.
Proof.
  unfold or_set_rows. intros H.
  destruct (a !! k) as [xy |]; simpl in H; [| done].
  destruct (decide _); [| done]. by injection H.
Qed.

Lemma step_fill_Some (a : list (list Q)) (k : nat) (v : Q) (a' : list (list Q)) :
  step_fill a k v = Some a' →
  ∃ row, a !! k = Some row ∧ a' = <[k := replicate (length row) v]> a.
Proof.
  unfold step_fill. intros H.
  destruct (a !! k) as [row |]; simpl in H; [| done].
  exists row. split; [done |]. by injection H.
Qed.

(** What [SPmakeImage] changes. *)
Lemma SPmakeImage_Ok (E : Env) (k : nat) (σ σ' : State) (u : unit) :
  SPmakeImage E k σ = Ok u σ' →
  ∃ a lines dir org,
    heapOr σ !! scanOr (sm σ) = Some a ∧ scanLines (sm σ) !! k = Some lines
    ∧ scanDir (sm σ) !! k = Some dir ∧ a !! k = Some org
    ∧ σ' = with_sm
             (set_images
                (<[k := (reconstruct E lines dir org (imageSize (sm σ))).1]>
                   (imageTransform (sm σ)))
                (<[k := (reconstruct E lines dir org (imageSize (sm σ))).2]>
                   (imageDensity (sm σ)))
                (sm σ)) σ.
Proof.
  intros Hrun. unfold SPmakeImage in Hrun. inv_run.
  do 4 eexists. do 4 (split; [eassumption |]). reflexivity.
Qed.

(** The two outcomes of [apply_shift]. *)
Lemma apply_shift_Ok (E : Env) (cfg : Config) (scanOrStep k : nat)
    (dx dy : Q) (σ σ' : State) (u : unit) (a : list (list Q * list Q))
    (xy : list Q * list Q) :
  heapOr σ !! scanOr (sm σ) = Some a → a !! k = Some xy →
  apply_shift E cfg scanOrStep k dx dy σ = Ok u σ' →
  (shift_accepted cfg (imageSize (sm σ)) xy dx dy →
     let xyNew := ((λ x, x + dx) <$> xy.1, (λ y, y + dy) <$> xy.2) in
     heapOr σ' = <[scanOr (sm σ) := <[k := xyNew]> a]> (heapOr σ)
     ∧ (∃ lines dir,
          scanLines (sm σ) !! k = Some lines ∧ scanDir (sm σ) !! k = Some dir
          ∧ sm σ' = set_images
              (<[k := (reconstruct E lines dir xyNew (imageSize (sm σ))).1]>
                 (imageTransform (sm σ)))
              (<[k := (reconstruct E lines dir xyNew (imageSize (sm σ))).2]>
                 (imageDensity (sm σ)))
              (sm σ))
     ∧ (∃ steps row,
          heapStep σ !! scanOrStep = Some steps ∧ steps !! k = Some row
          ∧ heapStep σ'
            = <[scanOrStep := <[k := replicate (length row) (refineInitialStep cfg)]> steps]>
                (heapStep σ)))
  ∧ (¬ shift_accepted cfg (imageSize (sm σ)) xy dx dy → σ' = σ).
Proof.
  intros Ha Hxy Hrun. unfold apply_shift in Hrun.
  destruct (Qltb (minGlobalShift cfg) (Qabs dx + Qabs dy)) eqn:Hthr.
  2:{ inv_run. split; [| done]. intros [Hlt _].
      apply Qltb_lt in Hlt. congruence. }
  inv_run. simplify_eq.
  match goal with
  | H : withinBoundary_of _ _ _ = Some ?b |- _ =>
      pose proof (shift_accepted_dec cfg _ xy dx dy b H) as Hdec;
      rewrite Hthr in Hdec; simpl in Hdec; destruct b
  end.
  2:{ inv_run. split; [| done]. intros Hacc. apply Hdec in Hacc. done. }
  split; [intros _ | intros Hn; destruct Hn; by apply Hdec].
  inv_run.
  match goal with
  | H : or_set_rows _ _ _ _ = Some _ |- _ => apply or_set_rows_Some in H as ->
  end.
  match goal with
  | H : SPmakeImage _ _ _ = Ok _ _ |- _ =>
      apply SPmakeImage_Ok in H
        as (arr & lines & dir & org & Harr & Hl & Hd & Ho & ->)
  end.
  simpl in *.
  rewrite list_lookup_insert_eq in Harr by (by eapply lookup_lt_Some).
  injection Harr as <-.
  rewrite list_lookup_insert_eq in Ho by (by eapply lookup_lt_Some).
  injection Ho as <-.
  match goal with
  | H : step_fill _ _ _ = Some _ |- _ =>
      apply step_fill_Some in H as (row & Hrow & ->)
  end.
  split; [done |]. split.
  - exists lines, dir. done.
  - eexists _, row. done.
Qed.

(** C6 (amended). A detected shift [(dx, dy)] is applied to acquisition [k]
    if and only if [|dx| + |dy|] exceeds [minGlobalShift] and every
    translated origin [(x, y)] of the acquisition has [0 <= x < rows - 2] and
    [0 <= y < cols - 2]; when it is applied, all origins of the acquisition
    are translated by [(dx, dy)], the acquisition is reconstructed from the
    translated origins, and row [k] of the step-size array bound to the
    variable [scanOrStep] is reset to [refineInitialStep]; otherwise nothing
    changes. *)
Theorem apply_shift_iff_accepted (E : Env) (cfg : Config) (scanOrStep k : nat)
    (dx dy : Q) (σ σ' : State) (u : unit) (a : list (list Q * list Q))
    (xy : list Q * list Q) :
  heapOr σ !! scanOr (sm σ) = Some a → a !! k = Some xy →
  apply_shift E cfg scanOrStep k dx dy σ = Ok u σ' →
  (shift_accepted cfg (imageSize (sm σ)) xy dx dy →
     let xyNew := ((λ x, x + dx) <$> xy.1, (λ y, y + dy) <$> xy.2) in
     heapOr σ' = <[scanOr (sm σ) := <[k := xyNew]> a]> (heapOr σ)
     ∧ (∃ lines dir,
          scanLines (sm σ) !! k = Some lines ∧ scanDir (sm σ) !! k = Some dir
          ∧ sm σ' = set_images
              (<[k := (reconstruct E lines dir xyNew (imageSize (sm σ))).1]>
                 (imageTransform (sm σ)))
              (<[k := (reconstruct E lines dir xyNew (imageSize (sm σ))).2]>
                 (imageDensity (sm σ)))
              (sm σ))
     ∧ (∃ steps row,
          heapStep σ !! scanOrStep = Some steps ∧ steps !! k = Some row
          ∧ heapStep σ'
            = <[scanOrStep := <[k := replicate (length row) (refineInitialStep cfg)]> steps]>
                (heapStep σ)))
  ∧ (¬ shift_accepted cfg (imageSize (sm σ)) xy dx dy → σ' = σ).
Proof. apply apply_shift_Ok. Qed.

(** ** GlobalPhaseCorrelation: the regression check *)

Lemma detect_shift_Ok (E : Env) (cfg : Config) (L : GpcLocals) (k : nat)
    (σ σ' : State) (d : Q * Q) :
  detect_shift E cfg L k σ = Ok d σ' → σ' = σ.
Proof. intros Hrun. unfold detect_shift in Hrun. by inv_run. Qed.

Lemma write_stats_Ok (i : nat) (row : Q * option Q) (σ σ' : State) (u : unit) :
  write_stats i row σ = Ok u σ' →
  (i < length (stats (sm σ)))%nat
  ∧ σ' = with_sm (set_stats (<[i := row]> (stats (sm σ))) (sm σ)) σ.
Proof.
  intros Hrun. unfold write_stats in Hrun. inv_run.
  split; [by eapply lookup_lt_Some | done].
Qed.

(** The three outcomes of the regression check: nothing when regressions
    are tolerated; a rewrite of the row of the iteration when the metric
    decreased; otherwise two rebindings, of the attribute [sm.scanOr] and of
    the local variable [scanOrStep], that touch no array. *)
Lemma check_regression_Ok (cfg : Config) (L : GpcLocals) (meanAbsDiff : option Q)
    (alignStep scanOrStep l' : nat) (σ σ' : State) :
  check_regression cfg L meanAbsDiff alignStep scanOrStep σ = Ok l' σ' →
  (flagGlobalShiftIncrease cfg = true ∧ l' = scanOrStep ∧ σ' = σ)
  ∨ (flagGlobalShiftIncrease cfg = false
     ∧ metric_lt (meanAbsDiff_of cfg (sm σ)) (meanAbsDiffCurrent L) = true
     ∧ l' = scanOrStep
     ∧ σ' = with_sm
              (set_stats
                 (<[(alignStep - 1)%nat
                    := (inject_Z (Z.of_nat alignStep - 1), meanAbsDiff)]>
                    (stats (sm σ))) (sm σ)) σ)
  ∨ (flagGlobalShiftIncrease cfg = false
     ∧ metric_lt (meanAbsDiff_of cfg (sm σ)) (meanAbsDiffCurrent L) = false
     ∧ l' = scanOrStepCurrent L
     ∧ σ' = with_sm (set_scanOr (scanOrCurrent L) (sm σ)) σ).
Proof.
  intros Hrun. unfold check_regression in Hrun.
  destruct (flagGlobalShiftIncrease cfg); simpl in Hrun.
  { inv_run. by left. }
  inv_run.
  destruct (metric_lt _ _) eqn:Hlt.
  - inv_run.
    match goal with
    | H : write_stats _ _ _ = Ok _ _ |- _ => apply write_stats_Ok in H as [_ ->]
    end.
    right. left. done.
  - inv_run. right. right. done.
Qed.

Lemma SPmakeImage_in_range (E : Env) (k : nat) (σ σ' : State) (u : unit) :
  SPmakeImage E k σ = Ok u σ' →
  (k < length (imageTransform (sm σ)))%nat
  ∧ (k < length (imageDensity (sm σ)))%nat.
Proof.
  intros Hrun. unfold SPmakeImage in Hrun. inv_run.
  split; by eapply lookup_lt_Some.
Qed.

(** The loop over [SPmakeImage] that opens an outer iteration: afterwards
    the image and the density mask of every acquisition it visited are the
    reconstruction from the current origins; nothing else changes. *)
Lemma remake_images_Ok (E : Env) (len : nat) :
  ∀ (start : nat) (σ σ' : State) (u : unit),
  forM (SPmakeImage E) (seq start len) σ = Ok u σ' →
  heapOr σ' = heapOr σ ∧ heapStep σ' = heapStep σ
  ∧ sm σ' = set_images (imageTransform (sm σ')) (imageDensity (sm σ')) (sm σ)
  ∧ (∀ k, (start ≤ k < start + len)%nat →
          ∃ td, reconstruction_of E σ k = Some td
                ∧ imageTransform (sm σ') !! k = Some td.1
                ∧ imageDensity (sm σ') !! k = Some td.2)
  ∧ (∀ k, (k < start)%nat →
          imageTransform (sm σ') !! k = imageTransform (sm σ) !! k
          ∧ imageDensity (sm σ') !! k = imageDensity (sm σ) !! k).
Proof.
  induction len as [| len IH]; intros start σ σ' u Hrun.
  - unfold forM in Hrun. cbn in Hrun. inv_run.
    repeat split; try done; [by destruct (sm σ) | intros k Hk; lia].
  - unfold forM in Hrun. cbn [seq foldM] in Hrun. inv_run.
    match goal with
    | H : SPmakeImage _ _ _ = Ok _ _ |- _ =>
        pose proof (SPmakeImage_in_range _ _ _ _ _ H) as [HltT HltD];
        apply SPmakeImage_Ok in H
          as (arr & lines & dir & org & Harr & Hl & Hd & Ho & ->)
    end.
    match goal with
    | H : foldM _ _ ?v ?τ = Ok _ _ |- _ =>
        destruct v;
        change (forM (SPmakeImage E) (seq (S start) len) τ = Ok u σ') in H;
        apply (IH (S start)) in H as (Hh & Hs & Hsm & Hin & Hout)
    end.
    cbn in Hh, Hs, Hsm, Hin, Hout.
    split; [done |]. split; [done |]. split; [by rewrite Hsm |]. split.
    + intros k Hk. destruct (decide (k = start)) as [-> | Hne].
      * exists (reconstruct E lines dir org (imageSize (sm σ))).
        unfold reconstruction_of. rewrite Harr, Hl, Hd. cbn. rewrite Ho.
        split; [done |].
        destruct (Hout start ltac:(lia)) as [-> ->].
        rewrite !list_lookup_insert_eq by done. done.
      * destruct (Hin k ltac:(lia)) as (td & Htd & Ht & Hdn).
        exists td. done.
    + intros k Hk. destruct (Hout k ltac:(lia)) as [-> ->].
      rewrite !list_lookup_insert_ne by lia. done.
Qed.


(** ** GlobalPhaseCorrelation on concrete inputs *)

(** The feathered target image depends on the configuration through
    [densityCutoff] only. *)
Lemma smooth_target_config (E : Env) (cfg cfg' : Config) (s : sMerge)
    (median : Q) (k : nat) :
  densityCutoff cfg = densityCutoff cfg' →
  smooth_target E cfg s median k = smooth_target E cfg' s median k.
Proof.
  intros Hcut. unfold smooth_target, density_mask. by rewrite Hcut.
Qed.

(** C5. With [densityDist = 2] and a target pixel at distance 32 from the
    covered region, the target of the code is feathered with the weight of
    [min(32/64, 1)]: the pixel is blended half-way to the median (value
    3/2), where the scale [densityDist] gives the weight of [min(32/2, 1)]
    and keeps the pixel (value 2). *)
Theorem target_feathering_scale_is_64 :
  ∃ code spec c s,
    smooth_target demo_env demo_config demo_sm 1 1 = Some code
    ∧ smooth_target_spec demo_env demo_config demo_sm 1 1 = Some spec
    ∧ pixel code 0 0 = Some c ∧ pixel spec 0 0 = Some s
    ∧ c == 3 # 2 ∧ s == 2.
Proof.
  do 4 eexists. repeat split; try (vm_compute; reflexivity).
Qed.


(** After a first rollback [sm.scanOr] is the snapshot itself: a later
    shift in the same pass is written into the snapshot, and when it is
    rejected in turn the second rollback restores nothing.  Here the shifts
    of acquisitions 1 and 2 are both rejected, and the origins of
    acquisition 2 stay shifted. *)
Lemma second_rollback_restores_nothing :
  ∃ σ' a xs ys,
    _global_phase_correlation demo_env demo_config 0
      (meanAbsDiff_of demo_config demo_sm3) 1 demo_state3 = Ok tt σ'
    ∧ metric_lt (meanAbsDiff_of demo_config (sm σ'))
        (meanAbsDiff_of demo_config demo_sm3) = false
    ∧ heapOr σ' !! scanOr (sm σ') = Some a
    ∧ a !! 1%nat = Some ([2; 3], [1; 1])
    ∧ a !! 2%nat = Some (xs, ys)
    ∧ Forall2 Qeq xs [0; 1] ∧ Forall2 Qeq ys [1; 1].
Proof.
  do 4 eexists. split; [vm_compute; reflexivity |].
  repeat split; repeat constructor.
Qed.

(** C6, the claim as stated fails: the shift [(-2, 0)] moves the first
    origin of acquisition 1 to [x = 0], on the edge of the image, and it is
    applied. *)
Lemma shift_applied_without_margin :
  ∃ σ',
    apply_shift demo_env demo_config 0 1 (-2) 0 demo_state = Ok tt σ'
    ∧ ¬ (shift_applied 1 (-2) 0 demo_state σ'
         ↔ shift_accepted_spec demo_config (imageSize demo_sm)
             ([2; 3], [1; 1]) (-2) 0).
Proof.
  eexists. split; [vm_compute; reflexivity |].
  intros [Himp _].
  assert (Happ : shift_applied 1 (-2) 0 demo_state
            (with_heapStep [[[1 # 4; 1 # 4]; [1 # 2; 1 # 2]]]
               (with_sm
                  (set_images
                     [flat_image (6%Z, 6%Z) 2; flat_image (6%Z, 6%Z) (2 + -2)]
                     [flat_image (6%Z, 6%Z) 1; flat_image (6%Z, 6%Z) 1]
                     demo_sm)
                  (with_heapOr
                     [[([2; 3], [1; 1]); ([2 + -2; 3 + -2], [1 + 0; 1 + 0])]]
                     demo_state)))).
  { exists [([2; 3], [1; 1]); ([2; 3], [1; 1])], ([2; 3], [1; 1]).
    repeat split. }
  apply Himp in Happ as (_ & Hx & _).
  apply Forall_cons in Hx as [[Hlow _] _].
  vm_compute in Hlow. by apply Hlow.
Qed.

(** ** OriginSmoothingKernel *)

Lemma vsum_app (l k : list Q) : vsum (l ++ k) == vsum l + vsum k.
Proof.
  unfold vsum. induction l as [| x l IH]; simpl; [ring |].
  rewrite IH. ring.
Qed.

Lemma inject_Z_S (n : nat) :
  inject_Z (Z.of_nat (S n)) == inject_Z (Z.of_nat n) + 1.
Proof. rewrite Nat2Z.inj_succ. unfold Z.succ. rewrite inject_Z_plus. ring. Qed.

Lemma basis_xs_S (n : nat) :
  basis_xs (S n) = basis_xs n ++ [inject_Z (Z.of_nat n) + 1].
Proof. unfold basis_xs. by rewrite seq_S, fmap_app. Qed.

Lemma sum_basis (n : nat) :
  2 * vsum (basis_xs n)
  == inject_Z (Z.of_nat n) * (inject_Z (Z.of_nat n) + 1).
Proof.
  induction n as [| n IH].
  - vm_compute. reflexivity.
  - rewrite basis_xs_S, vsum_app. simpl. rewrite inject_Z_S.
    transitivity (2 * vsum (basis_xs n) + 2 * (inject_Z (Z.of_nat n) + 1));
      [ring |].
    rewrite IH. ring.
Qed.

Lemma sum_basis_sq (n : nat) :
  6 * vsum ((λ x, x * x) <$> basis_xs n)
  == inject_Z (Z.of_nat n) * (inject_Z (Z.of_nat n) + 1)
     * (2 * inject_Z (Z.of_nat n) + 1).
Proof.
  induction n as [| n IH].
  - vm_compute. reflexivity.
  - rewrite basis_xs_S, fmap_app, vsum_app. simpl. rewrite inject_Z_S.
    transitivity (6 * vsum ((λ x, x * x) <$> basis_xs n)
                  + 6 * ((inject_Z (Z.of_nat n) + 1)
                         * (inject_Z (Z.of_nat n) + 1))); [ring |].
    rewrite IH. ring.
Qed.

(** The determinant of the normal equations. *)
Lemma basis_det (n : nat) :
  12 * (inject_Z (Z.of_nat n) * vsum ((λ x, x * x) <$> basis_xs n)
        - vsum (basis_xs n) * vsum (basis_xs n))
  == inject_Z (Z.of_nat n) * inject_Z (Z.of_nat n)
     * (inject_Z (Z.of_nat n) + 1) * (inject_Z (Z.of_nat n) - 1).
Proof.
  pose proof (sum_basis n) as H1. pose proof (sum_basis_sq n) as H2.
  set (N := inject_Z (Z.of_nat n)) in *.
  set (Sx := vsum (basis_xs n)) in *.
  set (Sxx := vsum ((λ x, x * x) <$> basis_xs n)) in *.
  transitivity (2 * N * (6 * Sxx) - 3 * ((2 * Sx) * (2 * Sx))); [ring |].
  rewrite H1, H2. ring.
Qed.

Lemma basis_det_zero (n : nat) :
  inject_Z (Z.of_nat n) * vsum ((λ x, x * x) <$> basis_xs n)
  - vsum (basis_xs n) * vsum (basis_xs n) == 0
  ↔ (n ≤ 1)%nat.
Proof.
  pose proof (basis_det n) as Hdet.
  set (D := inject_Z (Z.of_nat n) * vsum ((λ x, x * x) <$> basis_xs n)
            - vsum (basis_xs n) * vsum (basis_xs n)) in *.
  assert (Hpoly : inject_Z (Z.of_nat n) * inject_Z (Z.of_nat n)
                  * (inject_Z (Z.of_nat n) + 1) * (inject_Z (Z.of_nat n) - 1)
                  == inject_Z (Z.of_nat n * Z.of_nat n
                               * (Z.of_nat n + 1) * (Z.of_nat n - 1))).
  { rewrite !inject_Z_mult, inject_Z_plus.
    unfold Z.sub. rewrite inject_Z_plus.
    change (inject_Z 1) with 1. change (inject_Z (- (1))) with (- (1)). ring. }
  rewrite Hpoly in Hdet. split.
  - intros HD. rewrite HD in Hdet.
    destruct (decide (n ≤ 1)%nat) as [| Hn]; [done | exfalso].
    assert (H1 : (0 < Z.of_nat n * Z.of_nat n)%Z) by nia.
    assert (H2 : (0 < (Z.of_nat n + 1) * (Z.of_nat n - 1))%Z) by nia.
    pose proof (Z.mul_pos_pos _ _ H1 H2) as H3.
    rewrite Z.mul_assoc in H3. rewrite Zlt_Qlt in H3.
    change (inject_Z 0) with 0 in H3. lra.
  - intros Hn.
    assert (H0 : (Z.of_nat n * Z.of_nat n
                  * (Z.of_nat n + 1) * (Z.of_nat n - 1))%Z = 0%Z)
      by (destruct n as [| [| n]]; [reflexivity | reflexivity | lia]).
    rewrite H0 in Hdet. change (inject_Z 0) with 0 in Hdet. lra.
Qed.

Lemma sums_affine (xs y : list Q) (c b : Q) :
  Forall2 (λ x v, v == c + b * x) xs y →
  vsum y == inject_Z (Z.of_nat (length xs)) * c + b * vsum xs
  ∧ vsum (zip_with Qmult xs y)
    == c * vsum xs + b * vsum ((λ x, x * x) <$> xs).
Proof.
  induction 1 as [| x v xs y Hv _ [IH1 IH2]].
  - unfold vsum. cbn [length zip_with fmap list_fmap foldr].
    change (inject_Z (Z.of_nat 0)) with 0. split; ring.
  - cbn [length zip_with fmap list_fmap]. unfold vsum in *.
    cbn [foldr]. rewrite inject_Z_S, IH1, IH2, Hv. split; ring.
Qed.

Lemma basis_xs_lookup (n j : nat) :
  (j < n)%nat → basis_xs n !! j = Some (inject_Z (Z.of_nat j) + 1).
Proof.
  intros Hj. unfold basis_xs. rewrite list_lookup_fmap.
  rewrite lookup_seq_lt by done. reflexivity.
Qed.

Lemma basis_xs_length (n : nat) : length (basis_xs n) = n.
Proof. unfold basis_xs. by rewrite length_fmap, length_seq. Qed.

(** On data that lie on a line the least-squares line reproduces them. *)
Lemma lstsq_line_affine (n : nat) (y : list Q) (c b : Q) :
  length y = n →
  (∀ j v, y !! j = Some v → v == c + b * (inject_Z (Z.of_nat j) + 1)) →
  ∃ pp, lstsq_line n y = Some pp
    ∧ ∀ j, (j < n)%nat →
           1 * pp.1 + (inject_Z (Z.of_nat j) + 1) * pp.2
           == c + b * (inject_Z (Z.of_nat j) + 1).
Proof.
  intros Hlen Hy. unfold lstsq_line. rewrite decide_True by done.
  assert (HF : Forall2 (λ x v, v == c + b * x) (basis_xs n) y).
  { apply Forall2_same_length_lookup_2; [by rewrite basis_xs_length |].
    intros j x v Hx Hv. apply lookup_lt_Some in Hv as Hj. rewrite Hlen in Hj.
    rewrite basis_xs_lookup in Hx by done. injection Hx as <-. by apply Hy. }
  destruct (sums_affine _ _ _ _ HF) as [HSy HSxy].
  rewrite basis_xs_length in HSy.
  pose proof (basis_det_zero n) as Hdet.
  set (N := inject_Z (Z.of_nat n)) in *.
  set (Sx := vsum (basis_xs n)) in *.
  set (Sxx := vsum ((λ x, x * x) <$> basis_xs n)) in *.
  set (Sy := vsum y) in *.
  set (Sxy := vsum (zip_with Qmult (basis_xs n) y)) in *.
  cbv zeta.
  destruct (Qeq_bool (N * Sxx - Sx * Sx) 0) eqn:HD.
  - apply Qeq_bool_iff, Hdet in HD. eexists. split; [reflexivity |].
    intros j Hj. assert (n = 1%nat) as Hn by lia. assert (j = 0%nat) as -> by lia.
    cbn [fst snd]. subst N Sx Sy. rewrite Hn in *.
    change (vsum (basis_xs 1)) with (0 + 1 + 0) in HSy.
    change (inject_Z (Z.of_nat 1)) with 1 in *.
    change (inject_Z (Z.of_nat 0)) with 0.
    transitivity (vsum y); [field | rewrite HSy; ring].
  - assert (HD' : ¬ N * Sxx - Sx * Sx == 0).
    { intros H0. apply Qeq_bool_iff in H0. congruence. }
    assert (HN : ¬ N == 0).
    { intros H0. apply HD', Hdet. subst N.
      change 0 with (inject_Z 0) in H0.
      apply (proj1 (inject_Z_injective _ _)) in H0. lia. }
    eexists. split; [reflexivity |].
    intros j Hj. cbn [fst snd]. rewrite HSy, HSxy. field. split; assumption.
Qed.

Lemma eval_line_lookup (n : nat) (pp : Q * Q) (j : nat) :
  (j < n)%nat →
  eval_line n pp !! j
  = Some (1 * pp.1 + (inject_Z (Z.of_nat j) + 1) * pp.2).
Proof.
  intros Hj. unfold eval_line. rewrite list_lookup_fmap.
  rewrite lookup_seq_lt by done. reflexivity.
Qed.

(** The linear fit of an affine row is the row shifted by one. *)
Lemma linear_fit_affine (n : nat) (row : list Q) :
  length row = n → affine row →
  ∃ lin, linear_fit n row = Some lin
    ∧ Forall2 (λ x l, l == x + 1) row lin.
Proof.
  intros Hlen (c & b & Hrow).
  destruct (lstsq_line_affine n ((λ x, x + 1) <$> row) (c + 1 - b) b)
    as (pp & Hpp & Hfit).
  - by rewrite length_fmap.
  - intros j v Hv. rewrite list_lookup_fmap in Hv.
    destruct (row !! j) as [x |] eqn:Hx; [| done].
    injection Hv as <-. rewrite (Hrow j x Hx). ring.
  - exists (eval_line n pp). unfold linear_fit. rewrite Hpp. split; [done |].
    apply Forall2_same_length_lookup_2.
    + unfold eval_line. by rewrite length_fmap, length_seq.
    + intros j x l Hx Hl. apply lookup_lt_Some in Hx as Hj. rewrite Hlen in Hj.
      rewrite eval_line_lookup in Hl by done. injection Hl as <-.
      rewrite (Hfit j Hj), (Hrow j x Hx). ring.
Qed.

Lemma vsum_imap_scale (K : list Q) (f g : nat → Q → Q) (c : Q) :
  (∀ i w, K !! i = Some w → f i w == c * g i w) →
  vsum (imap f K) == c * vsum (imap g K).
Proof.
  revert f g. induction K as [| w K IH]; intros f g Hfg.
  - unfold vsum. simpl. ring.
  - rewrite !imap_cons. unfold vsum in *. cbn [foldr].
    rewrite (Hfg 0%nat w eq_refl), (IH (f ∘ S) (g ∘ S)); [ring |].
    intros i w' Hw'. apply (Hfg (S i)). done.
Qed.

Lemma vsum_imap_nonneg (K : list Q) (g : nat → Q → Q) :
  (∀ i w, K !! i = Some w → 0 <= g i w) → 0 <= vsum (imap g K).
Proof.
  revert g. induction K as [| w K IH]; intros g Hg.
  - unfold vsum. simpl. lra.
  - rewrite imap_cons. unfold vsum in *. cbn [foldr].
    pose proof (Hg 0%nat w eq_refl).
    pose proof (IH (g ∘ S) (λ i w' Hw', Hg (S i) w' Hw')). lra.
Qed.

Lemma vsum_imap_pos (K : list Q) (g : nat → Q → Q) (i0 : nat) (w0 : Q) :
  (∀ i w, K !! i = Some w → 0 <= g i w) →
  K !! i0 = Some w0 → 0 < g i0 w0 →
  0 < vsum (imap g K).
Proof.
  revert g i0. induction K as [| w K IH]; intros g i0 Hg Hi0 Hpos; [done |].
  rewrite imap_cons. unfold vsum in *. cbn [foldr].
  destruct i0 as [| i0].
  - injection Hi0 as ->.
    pose proof (vsum_imap_nonneg K (g ∘ S) (λ i w' Hw', Hg (S i) w' Hw')).
    unfold vsum in *. lra.
  - pose proof (Hg 0%nat w eq_refl).
    pose proof (IH (g ∘ S) i0 (λ i w' Hw', Hg (S i) w' Hw') Hi0 Hpos). lra.
Qed.

(** The normalised moving average of a constant row is that constant. *)
Lemma smooth_row_const (K row : list Q) (c : Q) :
  K ≠ [] → Forall (λ w, 0 < w) K → Forall (λ x, x == c) row →
  length (smooth_row K row) = length row
  ∧ Forall (λ x, x == c) (smooth_row K row).
Proof.
  intros HK Hpos Hrow. unfold smooth_row, convolve_same. split.
  - rewrite length_zip_with, length_fmap, !length_imap, length_fmap. lia.
  - apply Forall_lookup. intros m v Hv.
    rewrite lookup_zip_with, list_lookup_fmap, !list_lookup_imap,
      list_lookup_fmap in Hv.
    destruct (row !! m) as [xm |] eqn:Hxm; [| done].
    cbn in Hv. injection Hv as <-.
    set (c0 := ((length K - 1) / 2)%nat).
    set (T1 := λ (i : nat) (w : Q),
           if decide (i ≤ m + c0)%nat
           then match ((λ _ : Q, 1) <$> row) !! (m + c0 - i)%nat with
                | Some v => v * w
                | None => 0
                end
           else 0).
    set (T := λ (i : nat) (w : Q),
           if decide (i ≤ m + c0)%nat
           then match row !! (m + c0 - i)%nat with
                | Some v => v * w
                | None => 0
                end
           else 0).
    assert (Hscale : vsum (imap T K) == c * vsum (imap T1 K)).
    { apply vsum_imap_scale. intros i w _. unfold T, T1.
      case_decide; [| ring]. rewrite list_lookup_fmap.
      destruct (row !! (m + c0 - i)%nat) as [x |] eqn:Hx; cbn; [| ring].
      rewrite (proj1 (Forall_lookup _ _) Hrow _ _ Hx). ring. }
    assert (Hc0 : (c0 < length K)%nat).
    { destruct K; [done |]. subst c0. cbn [length].
      apply Nat.Div0.div_lt_upper_bound. lia. }
    destruct (lookup_lt_is_Some_2 K c0 Hc0) as [w0 Hw0].
    assert (HS : 0 < vsum (imap T1 K)).
    { apply (vsum_imap_pos K T1 c0 w0); [| done |].
      - intros i w Hw. unfold T1. case_decide; [| lra].
        rewrite list_lookup_fmap.
        pose proof (proj1 (Forall_lookup _ _) Hpos _ _ Hw) as Hw'.
        cbv beta in Hw'.
        destruct (row !! (m + c0 - i)%nat); cbn; lra.
      - unfold T1. rewrite decide_True by lia.
        replace (m + c0 - c0)%nat with m by lia.
        rewrite list_lookup_fmap, Hxm. cbn.
        pose proof (proj1 (Forall_lookup _ _) Hpos _ _ Hw0) as Hw'.
        cbv beta in Hw'. lra. }
    change (vsum (imap T K) * (1 / vsum (imap T1 K)) == c).
    rewrite Hscale. field. lra.
Qed.

Lemma linear_fit_length (n : nat) (row lin : list Q) :
  linear_fit n row = Some lin → length row = n.
Proof.
  unfold linear_fit, lstsq_line. intros H.
  case_decide as Hlen; [| done]. by rewrite length_fmap in Hlen.
Qed.

(** Detrending, smoothing and re-adding the trend returns an affine row. *)
Lemma smooth_affine_row (K row lin : list Q) (n : nat) :
  K ≠ [] → Forall (λ w, 0 < w) K → affine row →
  linear_fit n row = Some lin →
  Forall2 Qeq row (zip_with Qplus (smooth_row K (zip_with Qminus row lin)) lin).
Proof.
  intros HK Hpos Haff Hfit.
  pose proof (linear_fit_length _ _ _ Hfit) as Hlen.
  destruct (linear_fit_affine n row Hlen Haff) as (lin' & Hfit' & HF).
  assert (lin' = lin) as -> by congruence.
  pose proof (Forall2_length _ _ _ HF) as Hll.
  assert (Hd : Forall (λ x, x == - (1)) (zip_with Qminus row lin)).
  { apply Forall_lookup. intros i d Hd.
    apply lookup_zip_with_Some in Hd as (x & l & -> & Hx & Hl).
    pose proof (Forall2_lookup_lr _ _ _ _ _ _ HF Hx Hl) as Hxl.
    cbv beta in Hxl. rewrite Hxl. ring. }
  destruct (smooth_row_const K _ _ HK Hpos Hd) as [Hsl Hs].
  rewrite length_zip_with in Hsl.
  apply Forall2_same_length_lookup_2.
  - rewrite length_zip_with. lia.
  - intros i x y Hx Hy.
    apply lookup_zip_with_Some in Hy as (s & l & -> & Hsm & Hl).
    pose proof (Forall2_lookup_lr _ _ _ _ _ _ HF Hx Hl) as Hxl.
    pose proof (proj1 (Forall_lookup _ _) Hs _ _ Hsm) as Hs1.
    cbv beta in Hxl, Hs1. rewrite Hxl, Hs1. ring.
Qed.

Lemma arange_span_pos (r : Z) :
  (0 < r)%Z → Z.to_nat (r + 1 - - r) ≠ 0%nat.
Proof. lia. Qed.

Lemma KDEorigin_positive (E : Env) (originAverage : Q) :
  (∀ q, 0 < np_exp E q) → 0 < originAverage →
  KDEorigin E originAverage ≠ [] ∧ Forall (λ w, 0 < w) (KDEorigin E originAverage).
Proof.
  intros Hexp Hpos. unfold KDEorigin, arange. split.
  - intros Hnil. apply fmap_nil_inv, fmap_nil_inv in Hnil.
    assert (Hlen : length (seq 0 (Z.to_nat
               (Qceiling (3 * originAverage) + 1
                - - Qceiling (3 * originAverage)))) = 0%nat)
      by (by rewrite Hnil).
    rewrite length_seq in Hlen.
    pose proof (Qle_ceiling (3 * originAverage)) as Hc.
    assert (0 < inject_Z (Qceiling (3 * originAverage))) as Hc' by lra.
    change 0 with (inject_Z 0) in Hc'. rewrite <- Zlt_Qlt in Hc'.
    by apply (arange_span_pos _ Hc').
  - apply Forall_fmap, Forall_forall. intros v _. apply Hexp.
Qed.

(** The smoothing returns the origins of every acquisition whose rows are
    affine. *)
Lemma kernel_on_affine_origins (E : Env) (originAverage : Q) (σ σ' : State)
    (a : list (list Q * list Q)) (u : unit) :
  (∀ q, 0 < np_exp E q) → 0 < originAverage →
  heapOr σ !! scanOr (sm σ) = Some a →
  length a = numImages (sm σ) →
  _kernel_on_origin E originAverage σ = Ok u σ' →
  ∃ a', heapOr σ' !! scanOr (sm σ') = Some a'
    ∧ ∀ k xy, a !! k = Some xy → affine xy.1 → affine xy.2 →
              ∃ xy', a' !! k = Some xy' ∧ rows_eq xy xy'.
Proof.
  intros Hexp Hpos Ha Hlen Hrun.
  destruct (KDEorigin_positive E originAverage Hexp Hpos) as [HK HKpos].
  unfold _kernel_on_origin in Hrun. inv_run. simplify_eq.
  match goal with
  | H : mapM _ _ = Some ?l |- _ => rename H into Hlin; rename l into lin
  end.
  pose proof (length_mapM _ _ _ Hlin) as Hll. rewrite length_seq in Hll.
  apply mapM_Some_1 in Hlin.
  eexists. split.
  - cbn. rewrite length_insert.
    rewrite list_lookup_insert_eq
      by (rewrite length_app, length_insert; cbn; lia).
    reflexivity.
  - intros k xy Hxy Hax Hay.
    assert (Hk : seq 0 (numImages (sm σ)) !! k = Some k).
    { apply lookup_seq_lt. apply lookup_lt_Some in Hxy. lia. }
    destruct (lookup_lt_is_Some_2 lin k) as [l Hl];
      [apply lookup_lt_Some in Hxy; lia |].
    pose proof (Forall2_lookup_lr _ _ _ _ _ _ Hlin Hk Hl) as Hfit.
    cbv beta in Hfit. rewrite Hxy in Hfit. cbn in Hfit.
    destruct (linear_fit (nr (sm σ)) xy.1) as [lx |] eqn:Hlx; [| done].
    destruct (linear_fit (nr (sm σ)) xy.2) as [ly |] eqn:Hly; [| done].
    cbn in Hfit. injection Hfit as <-.
    eexists. split.
    + rewrite lookup_zip_with, list_lookup_fmap, lookup_zip_with, Hxy, Hl.
      reflexivity.
    + split; cbn; by eapply smooth_affine_row.
Qed.

(** C7. In exact arithmetic the smoothing step returns the origins of
    every acquisition whose x and y rows are affine functions of the line
    index unchanged: the fitted line reproduces the row shifted by one, the
    residual is the constant -1, which the normalised Gaussian average leaves
    alone, and re-adding the trend gives the row back.  When the bandwidth is
    0 the step does nothing at all. *)
Theorem smoothing_is_identity_on_linear_origins (E : Env) (cfg : Config) :
  (∀ (σ σ' : State) (a : list (list Q * list Q)) (u : unit),
     (∀ q, 0 < np_exp E q) → 0 < originWindowAverage cfg →
     heapOr σ !! scanOr (sm σ) = Some a →
     length a = numImages (sm σ) →
     smoothing_step E cfg σ = Ok u σ' →
     ∃ a', heapOr σ' !! scanOr (sm σ') = Some a'
       ∧ ∀ k xy, a !! k = Some xy → affine xy.1 → affine xy.2 →
                 ∃ xy', a' !! k = Some xy' ∧ rows_eq xy xy')
  ∧ (originWindowAverage cfg == 0 →
     ∀ σ, smoothing_step E cfg σ = Ok tt σ).
Proof.
  split.
  - intros σ σ' a u Hexp Hpos Ha Hlen Hrun. unfold smoothing_step in Hrun.
    rewrite (proj2 (Qltb_lt _ _) Hpos) in Hrun.
    by eapply kernel_on_affine_origins.
  - intros Hzero σ. unfold smoothing_step.
    assert (Qltb 0 (originWindowAverage cfg) = false) as ->
      by (apply Qltb_ge; lra).
    reflexivity.
Qed.

(** ** Invariants of loops *)

Lemma foldM_inv {A} (f : nat → A → M A) (I : A → State → Prop) (l : list nat) :
  (∀ i a σ a' σ', i ∈ l → f i a σ = Ok a' σ' → I a σ → I a' σ') →
  ∀ a σ a' σ', foldM f l a σ = Ok a' σ' → I a σ → I a' σ'.
Proof.
  induction l as [| i l IH]; intros Hf a σ a' σ' Hrun HI; simpl in Hrun.
  - inv_run. done.
  - inv_run. eapply IH; [| eassumption |].
    + intros j b τ b' τ' Hj. apply Hf. by right.
    + eapply Hf; [by left | eassumption | done].
Qed.

Lemma forM_inv (f : nat → M unit) (I : State → Prop) (l : list nat) :
  (∀ i σ σ' u, i ∈ l → f i σ = Ok u σ' → I σ → I σ') →
  ∀ σ σ' u, forM f l σ = Ok u σ' → I σ → I σ'.
Proof.
  intros Hf σ σ' u Hrun HI. unfold forM in Hrun.
  apply (foldM_inv (λ i _, f i) (λ _ τ, I τ) l) with (a := tt) (σ := σ) (a' := u);
    [| done..].
  intros i a τ a' τ' Hi. by apply Hf.
Qed.

(** ** Never out of fuel *)

Lemma nt_bind {A B} (m : M A) (f : A → M B) :
  never_timeout m → (∀ a, never_timeout (f a)) → never_timeout (bind m f).
Proof.
  intros Hm Hf σ. unfold bind. specialize (Hm σ).
  destruct (m σ) as [a σ1 | |]; [apply Hf | done | done].
Qed.

Lemma nt_ret {A} (a : A) : never_timeout (ret a).
Proof. intros σ. done. Qed.

Lemma nt_lift {A} (o : option A) : never_timeout (lift o).
Proof. intros σ. unfold lift. by destruct o. Qed.

Lemma nt_get_sm : never_timeout get_sm.
Proof. intros σ. done. Qed.

Lemma nt_put_sm (s : sMerge) : never_timeout (put_sm s).
Proof. intros σ. done. Qed.

Lemma nt_load_or (l : nat) : never_timeout (load_or l).
Proof. intros σ. unfold load_or. apply nt_lift. Qed.

Lemma nt_load_step (l : nat) : never_timeout (load_step l).
Proof. intros σ. unfold load_step. apply nt_lift. Qed.

Lemma nt_store_or (l : nat) (a : list (list Q * list Q)) :
  never_timeout (store_or l a).
Proof. intros σ. done. Qed.

Lemma nt_store_step (l : nat) (a : list (list Q)) :
  never_timeout (store_step l a).
Proof. intros σ. done. Qed.

Lemma nt_alloc_or (a : list (list Q * list Q)) : never_timeout (alloc_or a).
Proof. intros σ. done. Qed.

Lemma nt_alloc_step (a : list (list Q)) : never_timeout (alloc_step a).
Proof. intros σ. done. Qed.

Lemma nt_foldM {A} (f : nat → A → M A) (l : list nat) (a : A) :
  (∀ i b, never_timeout (f i b)) → never_timeout (foldM f l a).
Proof.
  intros Hf. revert a. induction l as [| i l IH]; intros a; simpl.
  - apply nt_ret.
  - apply nt_bind; [apply Hf | apply IH].
Qed.

Lemma nt_forM (f : nat → M unit) (l : list nat) :
  (∀ i, never_timeout (f i)) → never_timeout (forM f l).
Proof. intros Hf. unfold forM. apply nt_foldM. intros i _. apply Hf. Qed.

Create HintDb nt.
#[local] Hint Resolve nt_ret nt_lift nt_get_sm nt_put_sm nt_load_or
  nt_load_step nt_store_or nt_store_step nt_alloc_or nt_alloc_step : nt.

(** Walk through the statements of a loop-free function. *)
Ltac nt_step :=
  first
    [ progress auto with nt
    | apply nt_bind; [| intros ?]
    | apply nt_foldM; intros ? ?
    | apply nt_forM; intros ?
    | match goal with
      | |- never_timeout (if ?b then _ else _) => destruct b
      | |- never_timeout (match ?x with _ => _ end) => destruct x
      end ].

Ltac nt := repeat nt_step.

Lemma nt_SPmakeImage (E : Env) (k : nat) : never_timeout (SPmakeImage E k).
Proof. unfold SPmakeImage. nt. Qed.

Lemma nt_write_stats (i : nat) (row : Q * option Q) :
  never_timeout (write_stats i row).
Proof. unfold write_stats. nt. Qed.

#[local] Hint Resolve nt_SPmakeImage nt_write_stats : nt.

Lemma nt_refine_line (E : Env) (cfg : Config) (imageAlign : list (list Q))
    (scanOrStep k : nat) (order : option ((Q * Q) * list Q)) (m : nat)
    (pixelsMoved : Q) :
  never_timeout (refine_line E cfg imageAlign scanOrStep k order m pixelsMoved).
Proof. unfold refine_line, read_origin, write_origin. nt. Qed.

#[local] Hint Resolve nt_refine_line : nt.

Lemma nt_refine_image (E : Env) (cfg : Config) (scanOrStep k : nat)
    (pixelsMoved : Q) :
  never_timeout (refine_image E cfg scanOrStep k pixelsMoved).
Proof. unfold refine_image. nt. Qed.

Lemma nt_kernel_on_origin (E : Env) (originAverage : Q) :
  never_timeout (_kernel_on_origin E originAverage).
Proof. unfold _kernel_on_origin. nt. Qed.

#[local] Hint Resolve nt_refine_image nt_kernel_on_origin : nt.

Lemma nt_smoothing_step (E : Env) (cfg : Config) :
  never_timeout (smoothing_step E cfg).
Proof. unfold smoothing_step. nt. Qed.

Lemma nt_global_phase_correlation (E : Env) (cfg : Config)
    (scanOrStep : nat) (meanAbsDiff : option Q) (alignStep : nat) :
  never_timeout (_global_phase_correlation E cfg scanOrStep meanAbsDiff alignStep).
Proof.
  unfold _global_phase_correlation, gpc_enter, gpc_step, detect_shift,
    apply_shift, check_regression.
  nt.
Qed.

#[local] Hint Resolve nt_smoothing_step nt_global_phase_correlation : nt.

Lemma nt_outer_iteration (E : Env) (cfg : Config) (scanOrStep alignStep : nat) :
  never_timeout (outer_iteration E cfg scanOrStep alignStep).
Proof. unfold outer_iteration. nt. Qed.

(** ** What the loop body leaves alone *)

Lemma keeps_SPmakeImage (E : Env) (X : list (Q * option Q)) (n k : nat)
    (σ σ' : State) (u : unit) :
  SPmakeImage E k σ = Ok u σ' → keeps X n (sm σ) → keeps X n (sm σ').
Proof.
  intros Hrun HI. apply SPmakeImage_Ok in Hrun as (? & ? & ? & ? & _ & _ & _ & _ & ->).
  exact HI.
Qed.

Lemma refine_line_sm (E : Env) (cfg : Config) (imageAlign : list (list Q))
    (scanOrStep k m : nat) (order : option ((Q * Q) * list Q))
    (pixelsMoved moved' : Q) (σ σ' : State) :
  refine_line E cfg imageAlign scanOrStep k order m pixelsMoved σ
  = Ok moved' σ' →
  sm σ' = sm σ
  ∧ ((∀ q, 0 <= q → 0 <= np_sqrt E q) → pixelsMoved <= moved').
Proof.
  intros Hrun.
  destruct (refine_line_Ok _ _ _ _ _ _ _ _ _ _ _ Hrun)
    as (a & steps & o & step & orTest & score & ind
        & _ & _ & _ & _ & _ & _ & _ & _ & _ & _ & _ & H0 & Hne & _).
  destruct (decide (ind = 0%nat)) as [Hind | Hind].
  - destruct (H0 Hind) as (-> & Hsm & _). split; [done | intros _; lra].
  - destruct (Hne Hind) as (best & a' & _ & -> & Hsm & _). split; [done |].
    intros Hsqrt.
    assert (0 <= (best.1 - o.1) * (best.1 - o.1)
                 + (best.2 - o.2) * (best.2 - o.2)) as Hsq
      by (generalize (best.1 - o.1) (best.2 - o.2); intros x y; nra).
    pose proof (Hsqrt _ Hsq). lra.
Qed.

Lemma refine_image_sm (E : Env) (cfg : Config) (scanOrStep k : nat)
    (pixelsMoved moved' : Q) (σ σ' : State) :
  refine_image E cfg scanOrStep k pixelsMoved σ = Ok moved' σ' →
  sm σ' = sm σ
  ∧ ((∀ q, 0 <= q → 0 <= np_sqrt E q) → pixelsMoved <= moved').
Proof.
  intros Hrun. unfold refine_image in Hrun. inv_run.
  match goal with
  | H : foldM _ _ _ ?τ = Ok _ _ |- _ =>
      assert (Hτ : sm τ = sm σ)
        by (destruct (flagPointOrder cfg); by inv_run);
      apply (foldM_inv _
               (λ pm τ', sm τ' = sm σ
                  ∧ ((∀ q, 0 <= q → 0 <= np_sqrt E q) → pixelsMoved <= pm))) in H
  end.
  - done.
  - intros m pm τ1 pm' τ2 _ Hline [Hsm Hpm].
    apply refine_line_sm in Hline as [Hsm' Hpm'].
    split; [congruence |]. intros Hsqrt.
    specialize (Hpm Hsqrt). specialize (Hpm' Hsqrt). lra.
  - split; [done | intros _; lra].
Qed.

Lemma kernel_on_origin_sm (E : Env) (originAverage : Q) (σ σ' : State)
    (u : unit) :
  _kernel_on_origin E originAverage σ = Ok u σ' →
  ∃ l, sm σ' = set_scanOr l (sm σ).
Proof.
  intros Hrun. unfold _kernel_on_origin in Hrun. inv_run. by eexists.
Qed.

Lemma keeps_smoothing_step (E : Env) (cfg : Config) (X : list (Q * option Q))
    (n : nat) (σ σ' : State) (u : unit) :
  smoothing_step E cfg σ = Ok u σ' → keeps X n (sm σ) → keeps X n (sm σ').
Proof.
  intros Hrun HI. unfold smoothing_step in Hrun.
  destruct (Qltb 0 (originWindowAverage cfg)).
  - apply kernel_on_origin_sm in Hrun as [l ->]. exact HI.
  - by inv_run.
Qed.

Lemma keeps_apply_shift (E : Env) (cfg : Config) (X : list (Q * option Q))
    (n scanOrStep k : nat) (dx dy : Q) (σ σ' : State) (u : unit) :
  apply_shift E cfg scanOrStep k dx dy σ = Ok u σ' →
  keeps X n (sm σ) → keeps X n (sm σ').
Proof.
  intros Hrun HI. unfold apply_shift in Hrun.
  destruct (Qltb _ _); [| by inv_run].
  inv_run.
  match goal with
  | H : (if ?b then _ else _) _ = Ok _ _ |- _ => destruct b; [| by inv_run]
  end.
  inv_run.
  match goal with
  | H : SPmakeImage _ _ _ = Ok _ _ |- _ =>
      apply (keeps_SPmakeImage _ X n) in H; [| exact HI]
  end.
  done.
Qed.

Lemma keeps_check_regression (cfg : Config) (L : GpcLocals)
    (meanAbsDiff : option Q) (X : list (Q * option Q)) (n alignStep l l' : nat)
    (σ σ' : State) :
  X !! (alignStep - 1)%nat
  = Some (inject_Z (Z.of_nat alignStep - 1), meanAbsDiff) →
  check_regression cfg L meanAbsDiff alignStep l σ = Ok l' σ' →
  keeps X n (sm σ) → keeps X n (sm σ').
Proof.
  intros HX Hrun [Hst Hn].
  apply check_regression_Ok in Hrun
    as [(_ & _ & ->) | [(_ & _ & _ & ->) | (_ & _ & _ & ->)]].
  - done.
  - split; [| done]. cbn. rewrite Hst. by apply list_insert_id.
  - done.
Qed.

Lemma keeps_global_phase_correlation (E : Env) (cfg : Config)
    (meanAbsDiff : option Q) (X : list (Q * option Q)) (n alignStep l : nat)
    (σ σ' : State) (u : unit) :
  X !! (alignStep - 1)%nat
  = Some (inject_Z (Z.of_nat alignStep - 1), meanAbsDiff) →
  _global_phase_correlation E cfg l meanAbsDiff alignStep σ = Ok u σ' →
  keeps X n (sm σ) → keeps X n (sm σ').
Proof.
  intros HX Hrun HI. unfold _global_phase_correlation in Hrun. inv_run.
  match goal with
  | H : gpc_enter _ _ _ _ ?τ0 = Ok _ ?τ |- _ =>
      assert (Hτ : sm τ = sm τ0)
        by (unfold gpc_enter in H; inv_run;
            destruct (imageRef _); by inv_run)
  end.
  match goal with
  | H : foldM _ _ _ _ = Ok _ _ |- _ =>
      apply (foldM_inv _ (λ _ τ', keeps X n (sm τ'))) in H
  end.
  - done.
  - intros k l0 τ1 l1 τ2 _ Hstep HI1. unfold gpc_step in Hstep. inv_run.
    match goal with
    | H : detect_shift _ _ _ _ _ = Ok _ _ |- _ =>
        apply detect_shift_Ok in H as ->
    end.
    eapply keeps_check_regression; [exact HX | eassumption |].
    eapply keeps_apply_shift; eassumption.
  - by rewrite Hτ.
Qed.

(** ** One outer iteration *)

(** An outer iteration writes the row of its step and no other; it keeps
    the number of acquisitions; the pixels it reports are not negative. *)
Lemma outer_iteration_Ok (E : Env) (cfg : Config) (l alignStep : nat)
    (σ σ' : State) (pixelsMoved : Q) :
  outer_iteration E cfg l alignStep σ = Ok pixelsMoved σ' →
  (∃ metric,
     stats (sm σ')
     = <[(alignStep - 1)%nat := (inject_Z (Z.of_nat alignStep - 1), metric)]>
         (stats (sm σ)))
  ∧ (alignStep - 1 < length (stats (sm σ)))%nat
  ∧ numImages (sm σ') = numImages (sm σ)
  ∧ ((∀ q, 0 <= q → 0 <= np_sqrt E q) → 0 <= pixelsMoved).
Proof.
  intros Hrun. unfold outer_iteration in Hrun. inv_run.
  match goal with
  | H : forM _ _ _ = Ok _ ?τ |- _ =>
      apply (forM_inv _ (λ τ', keeps (stats (sm σ)) (numImages (sm σ)) (sm τ')))
        in H as [Hst1 Hn1]; [| by intros; eapply keeps_SPmakeImage | done]
  end.
  match goal with
  | H : write_stats _ _ _ = Ok _ _ |- _ =>
      apply write_stats_Ok in H as [Hlt ->]
  end.
  rewrite Hst1 in Hlt.
  match goal with
  | H : context [meanAbsDiff_of cfg ?s] |- _ =>
      set (metric := meanAbsDiff_of cfg s) in *
  end.
  set (row := (inject_Z (Z.of_nat alignStep - 1), metric)) in *.
  set (X := <[(alignStep - 1)%nat := row]> (stats (sm σ))).
  assert (HX : X !! (alignStep - 1)%nat = Some row)
    by (by apply list_lookup_insert_eq).
  match goal with
  | H : (if flagGlobalShift cfg then _ else _) ?τ = Ok _ ?τ' |- _ =>
      assert (Hk2 : keeps X (numImages (sm σ)) (sm τ'))
  end.
  { destruct (flagGlobalShift cfg).
    - eapply keeps_global_phase_correlation; [exact HX | eassumption |].
      split; cbn; [by rewrite Hst1 | done].
    - inv_run. split; cbn; [by rewrite Hst1 | done]. }
  match goal with
  | H : foldM _ _ _ _ = Ok ?pm ?τ' |- _ =>
      apply (foldM_inv _
               (λ pm' τ'', keeps X (numImages (sm σ)) (sm τ'')
                  ∧ ((∀ q, 0 <= q → 0 <= np_sqrt E q) → 0 <= pm'))) in H
        as [Hk3 Hpm]
  end.
  - match goal with
    | H : smoothing_step _ _ _ = Ok _ _ |- _ =>
        apply (keeps_smoothing_step _ _ X (numImages (sm σ))) in H as [Hst4 Hn4];
          [| exact Hk3]
    end.
    split; [by exists metric |]. done.
  - intros k pm τ1 pm' τ2 _ Himg [Hk Hpm].
    apply refine_image_sm in Himg as [Hsm Hle].
    split; [by rewrite Hsm |]. intros Hsqrt.
    specialize (Hpm Hsqrt). specialize (Hle Hsqrt). lra.
  - split; [exact Hk2 | intros _; lra].
Qed.

Lemma next_alignStep_Some (cfg : Config) (n alignStep s' : nat) (pm : Q) :
  next_alignStep cfg n alignStep pm = Some s' →
  n ≠ 0%nat
  ∧ ((below_threshold cfg n pm ∧ s' = (refineMaxSteps cfg + 1)%nat)
     ∨ (¬ below_threshold cfg n pm ∧ s' = (alignStep + 1)%nat)).
Proof.
  unfold next_alignStep, below_threshold. intros H.
  case_decide as Hn; [done |]. split; [done |].
  destruct (Qltb _ _) eqn:Hlt; injection H as <-.
  - left. by apply Qltb_lt in Hlt.
  - right. split; [| done]. apply Qltb_ge in Hlt. lra.
Qed.

(** One unfolding of the [while] loop. *)
Lemma refine_loop_unfold (E : Env) (cfg : Config) (fuel l s : nat)
    (moved : list Q) (σ σ' : State) (r : nat * list Q) :
  refine_loop E cfg fuel l s moved σ = Ok r σ' →
  (¬ (s ≤ refineMaxSteps cfg)%nat ∧ r = (s, moved) ∧ σ' = σ)
  ∨ ((s ≤ refineMaxSteps cfg)%nat
     ∧ ∃ fuel' pm σ1 s',
         fuel = S fuel'
         ∧ outer_iteration E cfg l s σ = Ok pm σ1
         ∧ next_alignStep cfg (numImages (sm σ1)) s pm = Some s'
         ∧ refine_loop E cfg fuel' l s' (moved ++ [pm]) σ1 = Ok r σ').
Proof.
  intros Hrun. destruct fuel as [| fuel']; simpl in Hrun.
  - case_decide; [done |]. inv_run. by left.
  - case_decide; [| inv_run; by left].
    right. split; [done |]. inv_run.
    eexists _, _, _, _. repeat split; eassumption.
Qed.

(** ** The [while] loop *)

(** The iterations of the loop: their number is bounded by the steps that
    are left, every iteration but the last one moved at least the threshold,
    and a loop that stops before the bound stops on an iteration below the
    threshold. *)
Lemma refine_loop_iterations (E : Env) (cfg : Config) (fuel l : nat) :
  ∀ (s : nat) (moved : list Q) (σ σ' : State) (final : nat) (moved' : list Q),
  (s ≤ refineMaxSteps cfg + 1)%nat →
  refine_loop E cfg fuel l s moved σ = Ok (final, moved') σ' →
  ∃ new,
    moved' = moved ++ new
    ∧ final = (refineMaxSteps cfg + 1)%nat
    ∧ numImages (sm σ') = numImages (sm σ)
    ∧ (length new ≤ refineMaxSteps cfg + 1 - s)%nat
    ∧ ((s ≤ refineMaxSteps cfg)%nat →
       (1 ≤ length new)%nat ∧ numImages (sm σ) ≠ 0%nat)
    ∧ (∀ i pm, new !! i = Some pm → (i + 1 < length new)%nat →
               ¬ below_threshold cfg (numImages (sm σ)) pm)
    ∧ ((length new < refineMaxSteps cfg + 1 - s)%nat →
       ∃ pm, last new = Some pm ∧ below_threshold cfg (numImages (sm σ)) pm)
    ∧ ((∀ q, 0 <= q → 0 <= np_sqrt E q) → Forall (λ pm, 0 <= pm) new).
Proof.
  induction fuel as [| fuel IH]; intros s moved σ σ' final moved' Hs Hrun;
    apply refine_loop_unfold in Hrun
      as [(Hgt & [= -> ->] & ->)
         | (Hle & fuel' & pm & σ1 & s' & Hfuel & Hbody & Hnext & Hrest)];
    try discriminate.
  1,2: exists []; rewrite app_nil_r; cbn;
       repeat split; try done; try lia; by constructor.
  injection Hfuel as <-.
  apply outer_iteration_Ok in Hbody as (_ & _ & Hn1 & Hpm).
  rewrite Hn1 in Hnext.
  apply next_alignStep_Some in Hnext as [Hn0 Hcase].
  apply IH in Hrest as (new & -> & -> & Hn2 & Hlen & H1 & Hmid & Hlast & Hpos);
    [| destruct Hcase as [[_ ->] | [_ ->]]; lia].
  rewrite Hn1 in *.
  exists (pm :: new). rewrite <- app_assoc. cbn [app length].
  split; [done |]. split; [done |]. split; [done |].
  destruct Hcase as [[Hbelow ->] | [Hnot ->]].
  - assert (new = []) as -> by (destruct new; [done | cbn in Hlen; lia]).
    cbn. split; [lia |]. split; [intros _; split; [lia | done] |].
    split; [intros i pm' _ Hi; lia |].
    split; [intros _; by exists pm |].
    intros Hsqrt. constructor; [by apply Hpm | constructor].
  - split; [lia |]. split; [intros _; split; [lia | done] |].
    split; [| split].
    + intros [| i] pm' Hi Hlt; cbn in Hi.
      * by injection Hi as <-.
      * apply (Hmid i); [done | lia].
    + intros Hlt. destruct Hlast as (pm' & Hl & Hb); [lia |].
      exists pm'. split; [| done]. rewrite last_cons, Hl. done.
    + intros Hsqrt. constructor; [by apply Hpm | by apply Hpos].
Qed.


(** With as much fuel as there are steps left the loop does not run out
    of fuel. *)
Lemma refine_loop_no_timeout (E : Env) (cfg : Config) (l : nat) :
  ∀ (fuel s : nat) (moved : list Q),
  (refineMaxSteps cfg + 1 - s ≤ fuel)%nat →
  never_timeout (refine_loop E cfg fuel l s moved).
Proof.
  induction fuel as [| fuel IH]; intros s moved Hfuel σ; simpl.
  - rewrite decide_False by lia. done.
  - case_decide as Hs; [| done].
    apply nt_bind; [apply nt_outer_iteration |]. intros pm.
    apply nt_bind; [apply nt_get_sm |]. intros s0.
    intros τ. unfold bind, lift.
    destruct (next_alignStep cfg (numImages s0) s pm) as [s' |] eqn:Hnext;
      [| done].
    apply IH. apply next_alignStep_Some in Hnext as [_ [[_ ->] | [_ ->]]]; lia.
Qed.

(** C8. The refinement loop terminates: with [refineMaxSteps] units of fuel
    [SPmerge02] returns or raises.  It does at most [refineMaxSteps]
    iterations (32 by default), and at least one when [refineMaxSteps] is
    not 0; every iteration but the last one moved at least the threshold per
    image; a run of less than [refineMaxSteps] iterations ends on an
    iteration below the threshold; when the first iteration is below the
    threshold there is exactly one iteration; and with the threshold 0 all
    [refineMaxSteps] iterations are done. *)
Theorem refinement_loop_terminates (E : Env) (cfg : Config) (σ : State) :
  (∀ fuel, (refineMaxSteps cfg ≤ fuel)%nat →
           SPmerge02 E cfg fuel σ ≠ Timeout)
  ∧ (∀ fuel final moved σ',
       SPmerge02 E cfg fuel σ = Ok (final, moved) σ' →
       let n := numImages (sm σ) in
       (length moved ≤ refineMaxSteps cfg)%nat
       ∧ ((1 ≤ refineMaxSteps cfg)%nat → (1 ≤ length moved)%nat)
       ∧ (∀ i pm, moved !! i = Some pm → (i + 1 < length moved)%nat →
                  ¬ below_threshold cfg n pm)
       ∧ ((length moved < refineMaxSteps cfg)%nat →
          ∃ pm, last moved = Some pm ∧ below_threshold cfg n pm)
       ∧ (∀ pm, moved !! 0%nat = Some pm → below_threshold cfg n pm →
                length moved = 1%nat)
       ∧ (pixelsMovedThreshold cfg == 0 →
          (∀ q, 0 <= q → 0 <= np_sqrt E q) →
          length moved = refineMaxSteps cfg))
  ∧ refineMaxSteps (default_config 0) = 32%nat.
Proof.
  split; [| split; [| done]].
  - intros fuel Hfuel. unfold SPmerge02.
    apply nt_bind; [nt |]. intros s.
    apply nt_bind; [nt |]. intros l.
    apply nt_bind; [nt |]. intros _.
    apply nt_bind; [apply refine_loop_no_timeout; lia |]. intros r.
    nt.
  - intros fuel final moved σ' Hrun n. unfold SPmerge02 in Hrun. inv_run.
    match goal with
    | H : refine_loop _ _ _ _ _ _ _ = Ok ?r _ |- _ =>
        destruct r as [final' moved'];
        apply refine_loop_iterations in H
          as (new & Hnew & _ & _ & Hlen & H1 & Hmid & Hlast & Hpos); [| lia]
    end.
    cbn in Hnew, H1, Hmid, Hlast. subst moved'.
    match goal with
    | H : ret _ _ = Ok _ _ |- _ => apply ret_Ok in H as [[= -> ->] _]
    end.
    fold n in H1, Hmid, Hlast.
    split; [lia |]. split; [intros Hmax; apply H1; lia |].
    split; [exact Hmid |]. split; [intros Hlt; apply Hlast; lia |].
    split.
    + intros pm H0 Hbelow.
      destruct (decide (1 < length new)%nat) as [Hlong | Hshort].
      * destruct (Hmid 0%nat pm H0 ltac:(lia) Hbelow).
      * apply lookup_lt_Some in H0. lia.
    + intros Hzero Hsqrt.
      destruct (decide (length new < refineMaxSteps cfg)%nat) as [Hlt | Hge];
        [| lia].
      destruct Hlast as (pm & Hl & Hbelow); [lia |].
      destruct H1 as [_ Hn0]; [lia |]. fold n in Hn0.
      pose proof (proj1 (Forall_forall _ _) (Hpos Hsqrt) pm) as Hpm.
      apply last_Some in Hl as [new' ->].
      specialize (Hpm ltac:(apply elem_of_app; right; by left)).
      cbv beta in Hpm. unfold below_threshold in Hbelow. rewrite Hzero in Hbelow.
      assert (0 < inject_Z (Z.of_nat n)) as Hn.
      { change 0 with (inject_Z 0). rewrite <- Zlt_Qlt. lia. }
      assert (0 <= pm / inject_Z (Z.of_nat n)) as Hdiv.
      { apply Qle_shift_div_l; [done |]. lra. }
      lra.
Qed.



(** * Further properties of the code *)

(** ** The signed shift of a correlation peak *)

Lemma Qmod_range (x n : Q) : 0 < n → 0 <= Qmod x n ∧ Qmod x n < n.
Proof.
  intros Hn. unfold Qmod.
  pose proof (Qfloor_le (x / n)) as Hlo.
  pose proof (Qlt_floor (x / n)) as Hhi.
  rewrite inject_Z_plus in Hhi. change (inject_Z 1) with 1 in Hhi.
  assert (Hx : x == n * (x / n)) by (field; lra).
  set (f := inject_Z (Qfloor (x / n))) in *.
  split.
  - assert (n * f <= n * (x / n)) by (apply Qmult_le_l; lra). lra.
  - assert (n * (x / n) < n * (f + 1)) by (apply Qmult_lt_l; lra). lra.
Qed.

Lemma Qmod_unique (x n : Q) (k : Z) :
  0 < n → 0 <= x - n * inject_Z k → x - n * inject_Z k < n →
  Qmod x n == x - n * inject_Z k.
Proof.
  intros Hn Hlo Hhi.
  destruct (Qmod_range x n Hn) as [Hlo' Hhi']. unfold Qmod in *.
  set (f := Qfloor (x / n)) in *.
  assert (Hfk : f = k).
  { assert (H1 : n * inject_Z f < n * inject_Z (k + 1)).
    { rewrite inject_Z_plus. change (inject_Z 1) with 1. lra. }
    assert (H2 : n * inject_Z k < n * inject_Z (f + 1)).
    { rewrite inject_Z_plus. change (inject_Z 1) with 1. lra. }
    apply Qmult_lt_l in H1, H2; [| done..].
    rewrite <- Zlt_Qlt in H1, H2. lia. }
  by rewrite Hfk.
Qed.

(** The index of the correlation peak along an axis of [size] pixels is
    read as a signed shift in [[-size/2, size/2)]: an index in the first
    half of the axis is a shift forwards by that index, an index in the
    second half is a shift backwards by [size - ind]. *)
Theorem wrap_shift_is_signed (ind size : Z) :
  (0 < size)%Z →
  (- (inject_Z size / 2) <= wrap_shift ind size
   ∧ wrap_shift ind size < inject_Z size / 2)
  ∧ ((0 ≤ ind)%Z → (2 * ind < size)%Z →
     wrap_shift ind size == inject_Z ind)
  ∧ ((size ≤ 2 * ind)%Z → (ind < size)%Z →
     wrap_shift ind size == inject_Z ind - inject_Z size).
Proof.
  intros Hsize.
  assert (Hn : 0 < inject_Z size).
  { change 0 with (inject_Z 0). by rewrite <- Zlt_Qlt. }
  unfold wrap_shift. split; [| split].
  - destruct (Qmod_range (inject_Z ind + inject_Z size / 2) _ Hn) as [Hlo Hhi].
    assert (Hhalf : inject_Z size == inject_Z size / 2 + inject_Z size / 2)
      by field.
    split; lra.
  - intros H0 Hlt.
    assert (Hi0 : 0 <= inject_Z ind)
      by (change 0 with (inject_Z 0); by rewrite <- Zle_Qle).
    assert (Hi1 : 2 * inject_Z ind < inject_Z size).
    { change 2 with (inject_Z 2). rewrite <- inject_Z_mult.
      by rewrite <- Zlt_Qlt. }
    assert (Hhalf : inject_Z size == inject_Z size / 2 + inject_Z size / 2)
      by field.
    rewrite (Qmod_unique _ _ 0%Z Hn).
    + change (inject_Z 0) with 0. ring.
    + change (inject_Z 0) with 0. lra.
    + change (inject_Z 0) with 0. lra.
  - intros Hge Hlt.
    assert (Hi0 : inject_Z size <= 2 * inject_Z ind).
    { change 2 with (inject_Z 2). rewrite <- inject_Z_mult.
      by rewrite <- Zle_Qle. }
    assert (Hi1 : inject_Z ind < inject_Z size) by (by rewrite <- Zlt_Qlt).
    assert (Hhalf : inject_Z size == inject_Z size / 2 + inject_Z size / 2)
      by field.
    rewrite (Qmod_unique _ _ 1%Z Hn).
    + change (inject_Z 1) with 1. lra.
    + change (inject_Z 1) with 1. lra.
    + change (inject_Z 1) with 1. lra.
Qed.

(** ** The score function at the border of the image *)

Lemma ravel_multi_index_in_bounds (xs ys : list Z) (imgsz : Z * Z)
    (rind : list Z) (i : nat) (x y : Z) :
  ravel_multi_index xs ys imgsz = Some rind →
  xs !! i = Some x → ys !! i = Some y →
  (0 ≤ x < imgsz.1 ∧ 0 ≤ y < imgsz.2)%Z.
Proof.
  unfold ravel_multi_index. intros Hr Hx Hy.
  apply mapM_Some_1 in Hr.
  assert (Hz : zip xs ys !! i = Some (x, y)).
  { apply lookup_zip_with_Some. by exists x, y. }
  destruct (Forall2_lookup_l _ _ _ _ _ Hr Hz) as (r & _ & Hri).
  unfold ravel_multi_index1 in Hri. cbn [fst snd] in Hri.
  destruct (0 <=? x)%Z eqn:H1; [| done].
  destruct (x <? imgsz.1)%Z eqn:H2; [| done].
  destruct (0 <=? y)%Z eqn:H3; [| done].
  destruct (y <? imgsz.2)%Z eqn:H4; [| done].
  lia.
Qed.

(** Five arrays of one length are the columns of one array of samples. *)
Lemma samples_of_columns (xF yF : list Z) (dx dy meas : list Q) :
  length yF = length xF → length dx = length xF → length dy = length xF →
  length meas = length xF →
  let l := zip xF (zip yF (zip dx (zip dy meas))) in
  xF = (λ a, a.1) <$> l ∧ yF = (λ a, a.2.1) <$> l
  ∧ dx = (λ a, a.2.2.1) <$> l ∧ dy = (λ a, a.2.2.2.1) <$> l
  ∧ meas = (λ a, a.2.2.2.2) <$> l.
Proof.
  intros H1 H2 H3 H4 l.
  assert (L4 : length (zip dy meas) = length xF)
    by (rewrite length_zip_with; lia).
  assert (L3 : length (zip dx (zip dy meas)) = length xF)
    by (rewrite length_zip_with; lia).
  assert (L2 : length (zip yF (zip dx (zip dy meas))) = length xF)
    by (rewrite length_zip_with; lia).
  assert (E1 : l.*1 = xF) by (apply fst_zip; lia).
  assert (E2 : l.*2 = zip yF (zip dx (zip dy meas))) by (apply snd_zip; lia).
  assert (E3 : (zip yF (zip dx (zip dy meas))).*1 = yF) by (apply fst_zip; lia).
  assert (E4 : (zip yF (zip dx (zip dy meas))).*2 = zip dx (zip dy meas))
    by (apply snd_zip; lia).
  assert (E5 : (zip dx (zip dy meas)).*1 = dx) by (apply fst_zip; lia).
  assert (E6 : (zip dx (zip dy meas)).*2 = zip dy meas) by (apply snd_zip; lia).
  assert (E7 : (zip dy meas).*1 = dy) by (apply fst_zip; lia).
  assert (E8 : (zip dy meas).*2 = meas) by (apply snd_zip; lia).
  repeat split.
  - done.
  - rewrite <- E3 at 1. rewrite <- E2. by rewrite <- list_fmap_compose.
  - rewrite <- E5 at 1. rewrite <- E4, <- E2.
    by rewrite <- !list_fmap_compose.
  - rewrite <- E7 at 1. rewrite <- E6, <- E4, <- E2.
    by rewrite <- !list_fmap_compose.
  - rewrite <- E8 at 1. rewrite <- E6, <- E4, <- E2.
    by rewrite <- !list_fmap_compose.
Qed.

Lemma vsum_abs_nonneg {A} (f : A → Q) (l : list A) :
  0 <= vsum ((λ a, Qabs (f a)) <$> l).
Proof.
  induction l as [| a l IH]; unfold vsum in *; cbn [fmap list_fmap foldr].
  - lra.
  - pose proof (Qabs_nonneg (f a)). lra.
Qed.

(** The corners of a run of [calcScore] that returns. *)
Lemma calcScore_Some_corners (R C : nat) (image : list (list Q))
    (xF yF : list Z) (dx dy meas : list Q) (s : Q) :
  rect R C image → (1 ≤ R)%nat → length yF = length xF →
  calcScore image xF yF dx dy meas = Some s →
  Forall2 (corner_ok R C) xF yF.
Proof.
  intros Hrect HR Hlen Hs. unfold calcScore in Hs.
  rewrite (shape_rect R C) in Hs by done.
  destruct (ravel_multi_index xF yF _) as [r1 |] eqn:H1; [| done].
  cbn in Hs.
  destruct (ravel_multi_index (Z.succ <$> xF) yF _) as [r2 |]; [| done].
  cbn in Hs.
  destruct (ravel_multi_index xF (Z.succ <$> yF) _) as [r3 |]; [| done].
  cbn in Hs.
  destruct (ravel_multi_index (Z.succ <$> xF) (Z.succ <$> yF) _)
    as [r4 |] eqn:H4; [| done].
  apply Forall2_same_length_lookup_2; [done |].
  intros i x y Hx Hy.
  pose proof (ravel_multi_index_in_bounds _ _ _ _ i x y H1 Hx Hy) as Hb1.
  pose proof (ravel_multi_index_in_bounds _ _ _ _ i (Z.succ x) (Z.succ y) H4)
    as Hb4.
  rewrite !list_lookup_fmap, Hx, Hy in Hb4.
  specialize (Hb4 eq_refl eq_refl). cbn [fst snd] in Hb1, Hb4.
  unfold corner_ok. lia.
Qed.

(** [calcScore] returns a score exactly when every sample has its four
    corners inside the image: it raises as soon as one floor coordinate is
    negative or lies on the last row or the last column.  A score that is
    returned is not negative. *)
Theorem calcScore_returns_iff_corners_inside (R C : nat) (image : list (list Q))
    (xF yF : list Z) (dx dy meas : list Q) :
  rect R C image → (1 ≤ R)%nat →
  length yF = length xF → length dx = length xF → length dy = length xF →
  length meas = length xF →
  (is_Some (calcScore image xF yF dx dy meas)
   ↔ Forall2 (corner_ok R C) xF yF)
  ∧ (∀ s, calcScore image xF yF dx dy meas = Some s → 0 <= s).
Proof.
  intros Hrect HR H1 H2 H3 H4.
  destruct (samples_of_columns xF yF dx dy meas H1 H2 H3 H4)
    as (Ex & Ey & Edx & Edy & Em).
  set (l := zip xF (zip yF (zip dx (zip dy meas)))) in *.
  assert (Hok : Forall2 (corner_ok R C) xF yF →
            ∃ s, calcScore image xF yF dx dy meas = Some s ∧ 0 <= s).
  { intros HF.
    assert (Hall : Forall (λ a : Z * (Z * (Q * (Q * Q))),
                             corner_ok R C a.1 a.2.1) l).
    { apply Forall_lookup. intros i a Ha.
      apply (Forall2_lookup_lr _ _ _ i _ _ HF).
      - by rewrite Ex, list_lookup_fmap, Ha.
      - by rewrite Ey, list_lookup_fmap, Ha. }
    eexists. split.
    - rewrite Ex at 1. rewrite Ey at 1. rewrite Edx at 1. rewrite Edy at 1.
      rewrite Em at 1. apply (calcScore_fmap R C); done.
    - apply (vsum_abs_nonneg (λ a : Z * (Z * (Q * (Q * Q))), _)). }
  split.
  - split.
    + intros [s Hs]. by eapply calcScore_Some_corners.
    + intros HF. destruct (Hok HF) as (s & Hs & _). by exists s.
  - intros s Hs.
    destruct (Hok (calcScore_Some_corners _ _ _ _ _ _ _ _ _ Hrect HR H1 Hs))
      as (s' & Hs' & Hpos).
    congruence.
Qed.



(** ** The search over the lines of one acquisition *)

Lemma or_set_Some (a : list (list Q * list Q)) (k m : nat) (p : Q * Q)
    (a' : list (list Q * list Q)) :
  or_set a k m p = Some a' →
  ∃ xy, a !! k = Some xy ∧ (m < length xy.1)%nat ∧ (m < length xy.2)%nat
        ∧ a' = <[k := (<[m := p.1]> xy.1, <[m := p.2]> xy.2)]> a.
Proof.
  unfold or_set. intros H.
  destruct (a !! k) as [xy |]; cbn in H; [| done].
  case_decide as Hm; [| done]. injection H as <-.
  exists xy. by destruct Hm.
Qed.

Lemma or_get_or_set (a : list (list Q * list Q)) (k m : nat) (p : Q * Q)
    (a' : list (list Q * list Q)) :
  or_set a k m p = Some a' →
  or_get a' k m = Some p
  ∧ (∀ m', m' ≠ m → or_get a' k m' = or_get a k m')
  ∧ (∀ k', k' ≠ k → a' !! k' = a !! k')
  ∧ length a' = length a
  ∧ (∀ xy xy', a !! k = Some xy → a' !! k = Some xy' →
       length xy'.1 = length xy.1 ∧ length xy'.2 = length xy.2).
Proof.
  intros H. apply or_set_Some in H as (xy & Hxy & H1 & H2 & ->).
  assert (Hk : (k < length a)%nat) by (by eapply lookup_lt_Some).
  split; [| split; [| split; [| split]]].
  - unfold or_get. rewrite list_lookup_insert_eq by done. cbn.
    rewrite !list_lookup_insert_eq by done. cbn. by destruct p.
  - intros m' Hm'. unfold or_get. rewrite list_lookup_insert_eq by done.
    rewrite Hxy. cbn. by rewrite !list_lookup_insert_ne by done.
  - intros k' Hk'. by rewrite list_lookup_insert_ne by done.
  - by rewrite length_insert.
  - intros xy0 xy' H0 H'. rewrite list_lookup_insert_eq in H' by done.
    simplify_eq. cbn. by rewrite !length_insert.
Qed.

Lemma step_set_Some (a : list (list Q)) (k m : nat) (v : Q) (a' : list (list Q)) :
  step_set a k m v = Some a' →
  ∃ row, a !! k = Some row ∧ (m < length row)%nat
         ∧ a' = <[k := <[m := v]> row]> a.
Proof.
  unfold step_set. intros H.
  destruct (a !! k) as [row |]; cbn in H; [| done].
  case_decide as Hm; [| done]. injection H as <-.
  by exists row.
Qed.



(** What the search of one line changes: at most the origin of the line,
    or its step size, in the arrays that [sm.scanOr] and [scanOrStep] are
    bound to. *)
Lemma refine_line_effect (E : Env) (cfg : Config) (imageAlign : list (list Q))
    (scanOrStep k m : nat) (order : option ((Q * Q) * list Q))
    (pixelsMoved moved' : Q) (σ σ' : State) :
  refine_line E cfg imageAlign scanOrStep k order m pixelsMoved σ
  = Ok moved' σ' →
  ∃ a steps a' steps' o step,
    heapOr σ !! scanOr (sm σ) = Some a
    ∧ heapStep σ !! scanOrStep = Some steps
    ∧ or_get a k m = Some o ∧ step_get steps k m = Some step
    ∧ sm σ' = sm σ
    ∧ heapOr σ' = <[scanOr (sm σ) := a']> (heapOr σ)
    ∧ heapStep σ' = <[scanOrStep := steps']> (heapStep σ)
    ∧ ((a' = a ∧ step_set steps k m (step * stepSizeReduce cfg) = Some steps')
       ∨ (steps' = steps
          ∧ ∃ orTest best, orTest_of (sm σ) order m o step = Some orTest
                           ∧ best ∈ orTest ∧ or_set a k m best = Some a')).
Proof.
  intros Hrun.
  destruct (refine_line_Ok _ _ _ _ _ _ _ _ _ _ _ Hrun)
    as (a & steps & o & step & orTest & score & ind
        & Ha & Ho & Hst & Hstep & Hor & _ & _ & _ & _ & _ & _ & H0 & Hne & _).
  destruct (decide (ind = 0%nat)) as [Hind | Hind].
  - destruct (H0 Hind) as (_ & Hsm & Hheap & steps' & Hset & Hhs).
    exists a, steps, a, steps', o, step.
    split; [exact Ha |]. split; [exact Hst |]. split; [exact Ho |].
    split; [exact Hstep |]. split; [exact Hsm |].
    split; [by rewrite Hheap, list_insert_id |].
    split; [exact Hhs |]. by left.
  - destruct (Hne Hind) as (best & a' & Hbest & _ & Hsm & Hhs & Hset & Hheap).
    exists a, steps, a', steps, o, step.
    split; [exact Ha |]. split; [exact Hst |]. split; [exact Ho |].
    split; [exact Hstep |]. split; [exact Hsm |].
    split; [exact Hheap |].
    split; [by rewrite Hhs, list_insert_id |].
    right. split; [done |]. exists orTest, best.
    split; [done |]. split; [| done]. by eapply list_elem_of_lookup_2.
Qed.



Lemma same_shape_or_refl (a : list (list Q * list Q)) : same_shape_or a a.
Proof. apply Forall2_same_length_lookup_2; [done |]. intros; by simplify_eq. Qed.

Lemma same_shape_or_trans (a b c : list (list Q * list Q)) :
  same_shape_or a b → same_shape_or b c → same_shape_or a c.
Proof.
  unfold same_shape_or. intros Hab Hbc.
  eapply Forall2_trans; [| exact Hab | exact Hbc].
  intros x y z [H1 H2] [H3 H4]. split; congruence.
Qed.

Lemma same_shape_or_insert (a : list (list Q * list Q)) (k : nat)
    (xy xy' : list Q * list Q) :
  a !! k = Some xy →
  length xy'.1 = length xy.1 → length xy'.2 = length xy.2 →
  same_shape_or a (<[k := xy']> a).
Proof.
  intros Hxy H1 H2. apply Forall2_same_length_lookup_2.
  - by rewrite length_insert.
  - intros i x y Hx Hy. destruct (decide (i = k)) as [-> | Hne].
    + rewrite list_lookup_insert_eq in Hy by (by eapply lookup_lt_Some).
      by simplify_eq.
    + rewrite list_lookup_insert_ne in Hy by done. by simplify_eq.
Qed.

Lemma same_shape_step_refl (a : list (list Q)) : same_shape_step a a.
Proof. apply Forall2_same_length_lookup_2; [done |]. intros; by simplify_eq. Qed.

Lemma same_shape_step_trans (a b c : list (list Q)) :
  same_shape_step a b → same_shape_step b c → same_shape_step a c.
Proof.
  unfold same_shape_step. intros Hab Hbc.
  eapply Forall2_trans; [| exact Hab | exact Hbc].
  intros x y z H1 H2. congruence.
Qed.

Lemma same_shape_step_insert (a : list (list Q)) (k : nat) (row row' : list Q) :
  a !! k = Some row → length row' = length row →
  same_shape_step a (<[k := row']> a).
Proof.
  intros Hrow Hlen. apply Forall2_same_length_lookup_2.
  - by rewrite length_insert.
  - intros i x y Hx Hy. destruct (decide (i = k)) as [-> | Hne].
    + rewrite list_lookup_insert_eq in Hy by (by eapply lookup_lt_Some).
      by simplify_eq.
    + rewrite list_lookup_insert_ne in Hy by done. by simplify_eq.
Qed.

(** The pass over acquisition [k] writes in place into the origin array
    that [sm.scanOr] is bound to and into the step-size array: it changes
    the rows of acquisition [k] only, keeps the shape of both arrays, and
    touches neither another array nor an attribute of [sm], so that the
    images are those from before the pass whatever origins have moved. *)
Theorem refine_image_changes_only_its_rows (E : Env) (cfg : Config)
    (scanOrStep k : nat) (pixelsMoved moved' : Q) (σ σ' : State)
    (a : list (list Q * list Q)) (steps : list (list Q)) :
  heapOr σ !! scanOr (sm σ) = Some a →
  heapStep σ !! scanOrStep = Some steps →
  refine_image E cfg scanOrStep k pixelsMoved σ = Ok moved' σ' →
  sm σ' = sm σ
  ∧ ∃ a' steps',
      heapOr σ' = <[scanOr (sm σ) := a']> (heapOr σ)
      ∧ heapStep σ' = <[scanOrStep := steps']> (heapStep σ)
      ∧ (∀ k', k' ≠ k → a' !! k' = a !! k' ∧ steps' !! k' = steps !! k')
      ∧ same_shape_or a a' ∧ same_shape_step steps steps'.
Proof.
  intros Ha Hst Hrun. unfold refine_image in Hrun. inv_run.
  match goal with
  | H : foldM _ _ _ ?τ = Ok _ _ |- _ =>
      rename H into Hfold;
      assert (Hτ : τ = σ) by (destruct (flagPointOrder cfg); by inv_run)
  end.
  rewrite Hτ in Hfold.
  apply (foldM_inv _
    (λ _ τ, sm τ = sm σ
       ∧ ∃ a' steps',
           heapOr τ = <[scanOr (sm σ) := a']> (heapOr σ)
           ∧ heapStep τ = <[scanOrStep := steps']> (heapStep σ)
           ∧ (∀ k', k' ≠ k → a' !! k' = a !! k' ∧ steps' !! k' = steps !! k')
           ∧ same_shape_or a a' ∧ same_shape_step steps steps')) in Hfold.
  - exact Hfold.
  - intros m pm τ pm' τ' _ Hline (Hsm & arr1 & st1 & Hh1 & Hs1 & Hrows & Hsa & Hss).
    apply refine_line_effect in Hline
      as (arr1' & st1' & arr2 & st2 & o & step & Ha1 & Hst1 & _ & _ & Hsm'
          & Hheap & Hhs & Hcase).
    rewrite Hsm in *.
    assert (arr1' = arr1) as ->.
    { rewrite Hh1, list_lookup_insert_eq in Ha1 by (by eapply lookup_lt_Some).
      by injection Ha1. }
    assert (st1' = st1) as ->.
    { rewrite Hs1, list_lookup_insert_eq in Hst1 by (by eapply lookup_lt_Some).
      by injection Hst1. }
    split; [done |]. exists arr2, st2.
    split; [by rewrite Hheap, Hh1, list_insert_insert_eq |].
    split; [by rewrite Hhs, Hs1, list_insert_insert_eq |].
    destruct Hcase as [[-> Hset] | (-> & orTest & best & _ & _ & Hset)].
    + apply step_set_Some in Hset as (row & Hrow & Hm & ->).
      split; [| split; [done |]].
      * intros k' Hk'. destruct (Hrows k' Hk') as [-> <-].
        by rewrite list_lookup_insert_ne by done.
      * eapply same_shape_step_trans; [exact Hss |].
        eapply same_shape_step_insert; [exact Hrow |].
        by rewrite length_insert.
    + destruct (or_get_or_set _ _ _ _ _ Hset) as (_ & _ & Hother & _ & _).
      apply or_set_Some in Hset as (xy & Hxy & H1 & H2 & ->).
      split; [| split; [| done]].
      * intros k' Hk'. destruct (Hrows k' Hk') as [<- ->].
        by rewrite list_lookup_insert_ne by done.
      * eapply same_shape_or_trans; [exact Hsa |].
        eapply same_shape_or_insert; [exact Hxy | |]; cbn;
          by rewrite length_insert.
  - split; [done |]. exists a, steps.
    split; [by rewrite list_insert_id |].
    split; [by rewrite list_insert_id |].
    split; [done |].
    split; [apply same_shape_or_refl | apply same_shape_step_refl].
Qed.

(** With the ordering constraint (the default), the pass over an
    acquisition of a single scanline raises: the bounds of line 0 ask for
    [vParam[1]], which does not exist. *)
Theorem single_scanline_raises_under_ordering (E : Env) (cfg : Config)
    (scanOrStep k : nat) (pixelsMoved : Q) (σ : State) :
  flagPointOrder cfg = true → nr (sm σ) = 1%nat →
  (∀ a xy, heapOr σ !! scanOr (sm σ) = Some a → a !! k = Some xy →
           length xy.1 = nr (sm σ)) →
  refine_image E cfg scanOrStep k pixelsMoved σ = Raise.
Proof.
  intros Hflag Hnr Hrow.
  unfold refine_image, bind, get_sm, load_or, lift, ret.
  rewrite Hflag, Hnr.
  destruct (scanDir (sm σ) !! k) as [sd |]; [| done].
  destruct (heapOr σ !! scanOr (sm σ)) as [a |] eqn:Ha; [| done].
  destruct (a !! k) as [xy |] eqn:Hxy; [| done].
  specialize (Hrow a xy eq_refl Hxy).
  cbn [seq foldM].
  unfold refine_line, read_origin, bind, get_sm, load_or, load_step, lift.
  rewrite Ha.
  destruct (or_get a k 0) as [o |]; [| done].
  destruct (heapStep σ !! scanOrStep) as [steps |]; [| done].
  destruct (step_get steps k 0) as [step |]; [| done].
  assert (Hnone : orTest_of (sm σ) (Some (perp sd, vParam_of (perp sd) xy))
                    0 o step = None).
  { unfold orTest_of, vBound_of. rewrite decide_True by done.
    rewrite (lookup_ge_None_2 (vParam_of (perp sd) xy) (0 + 1)); [done |].
    unfold vParam_of. rewrite length_zip_with.
    rewrite Hrow, Hnr. lia. }
  by rewrite Hnone.
Qed.

(** ** The global correction pass *)

(** A run of [apply_shift] either changes nothing or applies the shift. *)
Lemma apply_shift_cases (E : Env) (cfg : Config) (scanOrStep k : nat)
    (dx dy : Q) (σ σ' : State) (u : unit) :
  apply_shift E cfg scanOrStep k dx dy σ = Ok u σ' →
  σ' = σ
  ∨ ∃ a xy lines dir steps row,
      heapOr σ !! scanOr (sm σ) = Some a ∧ a !! k = Some xy
      ∧ heapStep σ !! scanOrStep = Some steps ∧ steps !! k = Some row
      ∧ scanLines (sm σ) !! k = Some lines ∧ scanDir (sm σ) !! k = Some dir
      ∧ shift_accepted cfg (imageSize (sm σ)) xy dx dy
      ∧ heapOr σ'
        = <[scanOr (sm σ)
            := <[k := ((λ x, x + dx) <$> xy.1, (λ y, y + dy) <$> xy.2)]> a]>
            (heapOr σ)
      ∧ sm σ'
        = set_images
            (<[k := (reconstruct E lines dir
                       ((λ x, x + dx) <$> xy.1, (λ y, y + dy) <$> xy.2)
                       (imageSize (sm σ))).1]> (imageTransform (sm σ)))
            (<[k := (reconstruct E lines dir
                       ((λ x, x + dx) <$> xy.1, (λ y, y + dy) <$> xy.2)
                       (imageSize (sm σ))).2]> (imageDensity (sm σ)))
            (sm σ)
      ∧ heapStep σ'
        = <[scanOrStep
            := <[k := replicate (length row) (refineInitialStep cfg)]> steps]>
            (heapStep σ).
Proof.
  intros Hrun. pose proof Hrun as Hrun0. unfold apply_shift in Hrun.
  destruct (Qltb (minGlobalShift cfg) (Qabs dx + Qabs dy)) eqn:Hthr;
    [| inv_run; by left].
  inv_run.
  match goal with
  | H : heapOr σ !! _ = Some ?arr, H' : ?arr !! k = Some ?xy,
    Hb : withinBoundary_of _ _ _ = Some ?b |- _ =>
      destruct (apply_shift_Ok _ _ _ _ _ _ _ _ _ _ _ H H' Hrun0)
        as [Hacc Hrej];
      pose proof (shift_accepted_dec cfg _ xy dx dy b Hb) as Hdec;
      rename H into Harr; rename H' into Hxy
  end.
  rewrite Hthr in Hdec. cbn [andb] in Hdec.
  match goal with
  | H : withinBoundary_of _ _ _ = Some ?b |- _ => destruct b
  end.
  - right.
    pose proof (proj1 Hdec eq_refl) as Hok.
    destruct (Hacc Hok) as (Hheap & (lines & dir & Hl & Hd & Hsm)
                            & (steps & row & Hst & Hrow & Hhs)).
    eexists _, _, lines, dir, steps, row.
    split; [exact Harr |]. split; [exact Hxy |]. done.
  - left. apply Hrej. intros Hok. apply Hdec in Hok. done.
Qed.

(** The statements before the loop of the pass copy the two arrays and
    leave the rest of the state alone. *)
Lemma gpc_enter_Ok (E : Env) (cfg : Config) (scanOrStep : nat)
    (meanAbsDiff : option Q) (σ σ' : State) (L : GpcLocals) (vec : list nat) :
  gpc_enter E cfg scanOrStep meanAbsDiff σ = Ok (L, vec) σ' →
  ∃ a steps,
    heapOr σ !! scanOr (sm σ) = Some a
    ∧ heapStep σ !! scanOrStep = Some steps
    ∧ sm σ' = sm σ
    ∧ heapOr σ' = heapOr σ ++ [a]
    ∧ heapStep σ' = heapStep σ ++ [steps]
    ∧ scanOrCurrent L = length (heapOr σ)
    ∧ scanOrStepCurrent L = length (heapStep σ)
    ∧ meanAbsDiffCurrent L = meanAbsDiff
    ∧ vec = match imageRef (sm σ) with
            | None => seq 1 (numImages (sm σ) - 1)
            | Some _ => seq 0 (numImages (sm σ))
            end.
Proof.
  intros Hrun. unfold gpc_enter in Hrun. inv_run. cbn in *.
  destruct (imageRef (sm σ)); inv_run;
    apply ret_Ok in Hrun as [[= -> ->] ->];
    eexists _, _; (split; [eassumption |]); (split; [eassumption |]); done.
Qed.

Lemma insert_row_keeps_first {A} (h : list (list A)) (q k : nat)
    (arr : list A) (x : A) (p : nat) (old : list A) :
  h !! q = Some arr → k ≠ 0%nat → h !! p = Some old →
  ∃ new, <[q := <[k := x]> arr]> h !! p = Some new ∧ new !! 0%nat = old !! 0%nat.
Proof.
  intros Hq Hk Hp. destruct (decide (p = q)) as [-> | Hne].
  - exists (<[k := x]> arr).
    rewrite list_lookup_insert_eq by (by eapply lookup_lt_Some).
    split; [done |]. simplify_eq. by rewrite list_lookup_insert_ne by done.
  - exists old. by rewrite list_lookup_insert_ne by done.
Qed.

(** Without a reference image the pass aligns the acquisitions 1 and
    higher to acquisition 0 and never moves acquisition 0 itself: whether
    shifts are kept or rolled back, the origins of acquisition 0 in the
    array that [sm.scanOr] is bound to afterwards, its step sizes in the
    array of the caller, its image and its density mask are those from
    before the pass. *)
Theorem global_pass_keeps_acquisition_0 (E : Env) (cfg : Config)
    (scanOrStep : nat) (meanAbsDiff : option Q) (alignStep : nat)
    (σ σ' : State) (u : unit) :
  imageRef (sm σ) = None →
  _global_phase_correlation E cfg scanOrStep meanAbsDiff alignStep σ = Ok u σ' →
  ∃ a a' steps steps',
    heapOr σ !! scanOr (sm σ) = Some a
    ∧ heapOr σ' !! scanOr (sm σ') = Some a'
    ∧ a' !! 0%nat = a !! 0%nat
    ∧ heapStep σ !! scanOrStep = Some steps
    ∧ heapStep σ' !! scanOrStep = Some steps'
    ∧ steps' !! 0%nat = steps !! 0%nat
    ∧ imageTransform (sm σ') !! 0%nat = imageTransform (sm σ) !! 0%nat
    ∧ imageDensity (sm σ') !! 0%nat = imageDensity (sm σ) !! 0%nat.
Proof.
  intros Href Hrun. unfold _global_phase_correlation in Hrun.
  apply bind_Ok in Hrun as ([L vec] & σ1 & Henter & Hrun).
  apply bind_Ok in Hrun as (loc1 & σ2 & Hfold & Hret).
  apply ret_Ok in Hret as [-> ->].
  apply gpc_enter_Ok in Henter
    as (a & steps & Ha & Hst & Hsm1 & Hh1 & Hs1 & HLo & HLs & _ & Hvec).
  rewrite Href in Hvec. cbn [fst snd] in *.
  apply (foldM_inv _
    (λ _ τ,
       (scanOr (sm τ) = scanOr (sm σ) ∨ scanOr (sm τ) = length (heapOr σ))
       ∧ (∀ p old, heapOr σ1 !! p = Some old →
            ∃ new, heapOr τ !! p = Some new ∧ new !! 0%nat = old !! 0%nat)
       ∧ (∀ p old, heapStep σ1 !! p = Some old →
            ∃ new, heapStep τ !! p = Some new ∧ new !! 0%nat = old !! 0%nat)
       ∧ imageTransform (sm τ) !! 0%nat = imageTransform (sm σ) !! 0%nat
       ∧ imageDensity (sm τ) !! 0%nat = imageDensity (sm σ) !! 0%nat))
    in Hfold.
  - destruct Hfold as (Hloc & Hor & Hstep & HT & HD).
    assert (Hlt : (scanOr (sm σ) < length (heapOr σ))%nat)
      by (by eapply lookup_lt_Some).
    assert (H1 : ∃ new, heapOr σ2 !! scanOr (sm σ2) = Some new
                        ∧ new !! 0%nat = a !! 0%nat).
    { destruct Hloc as [-> | ->]; apply Hor; rewrite Hh1.
      - by rewrite lookup_app_l.
      - by apply list_lookup_middle. }
    destruct H1 as (a' & Ha' & Ha0).
    destruct (Hstep scanOrStep steps) as (steps' & Hst' & Hs0).
    { rewrite Hs1. rewrite lookup_app_l; [done |]. by eapply lookup_lt_Some. }
    exists a, a', steps, steps'. done.
  - intros k loc τ loc' τ' Hk Hstep (Hloc & Hor & Hsteps & HT & HD).
    assert (Hk0 : k ≠ 0%nat).
    { rewrite Hvec in Hk. apply elem_of_seq in Hk. lia. }
    unfold gpc_step in Hstep.
    apply bind_Ok in Hstep as (d & τ1 & Hdet & Hstep).
    apply detect_shift_Ok in Hdet as ->.
    apply bind_Ok in Hstep as (u1 & τ2 & Happ & Hchk).
    assert (Hmid :
      (scanOr (sm τ2) = scanOr (sm σ) ∨ scanOr (sm τ2) = length (heapOr σ))
      ∧ (∀ p old, heapOr σ1 !! p = Some old →
           ∃ new, heapOr τ2 !! p = Some new ∧ new !! 0%nat = old !! 0%nat)
      ∧ (∀ p old, heapStep σ1 !! p = Some old →
           ∃ new, heapStep τ2 !! p = Some new ∧ new !! 0%nat = old !! 0%nat)
      ∧ imageTransform (sm τ2) !! 0%nat = imageTransform (sm σ) !! 0%nat
      ∧ imageDensity (sm τ2) !! 0%nat = imageDensity (sm σ) !! 0%nat).
    { apply apply_shift_cases in Happ
        as [-> | (arr & xy & lines & dir & st & row & Harr & Hxy & Hst2
                  & Hrow & _ & _ & _ & Hheap & Hsm2 & Hhs)]; [done |].
      rewrite Hheap, Hhs, Hsm2. cbn.
      split; [done |]. split; [| split].
      - intros p old Hp. destruct (Hor p old Hp) as (new0 & Hn0 & <-).
        by eapply insert_row_keeps_first.
      - intros p old Hp. destruct (Hsteps p old Hp) as (new0 & Hn0 & <-).
        by eapply insert_row_keeps_first.
      - by rewrite !list_lookup_insert_ne by done. }
    destruct Hmid as (Hloc2 & Hor2 & Hsteps2 & HT2 & HD2).
    apply check_regression_Ok in Hchk
      as [(_ & _ & ->) | [(_ & _ & _ & ->) | (_ & _ & _ & ->)]]; cbn; try done.
    split; [right; exact HLo |]. done.
  - rewrite Hsm1. split; [by left |].
    split; [intros p old Hp; by exists old |].
    split; [intros p old Hp; by exists old |]. done.
Qed.

(** ** The range of the step sizes *)

Lemma steps_within_insert (cfg : Config) (steps : list (list Q)) (k : nat)
    (row : list Q) :
  steps_within cfg steps →
  Forall (λ step, 0 <= step ∧ step <= refineInitialStep cfg) row →
  steps_within cfg (<[k := row]> steps).
Proof. intros Hs Hrow. by apply Forall_insert. Qed.

Lemma steps_bounded_store (cfg : Config) (n0 l : nat) (new : list (list Q))
    (σ : State) :
  steps_bounded_from cfg n0 σ → steps_within cfg new →
  steps_bounded_from cfg n0 (with_heapStep (<[l := new]> (heapStep σ)) σ).
Proof.
  intros [Hlen HJ] Hnew. split; cbn.
  - by rewrite length_insert.
  - intros p steps Hp Hl.
    apply list_lookup_insert_Some in Hl as [(_ & <- & _) | [_ Hl]]; [done |].
    by eapply HJ.
Qed.

Lemma steps_bounded_sm (cfg : Config) (n0 : nat) (s : sMerge) (σ : State) :
  steps_bounded_from cfg n0 σ → steps_bounded_from cfg n0 (with_sm s σ).
Proof. intros H. exact H. Qed.

Lemma steps_bounded_heapOr (cfg : Config) (n0 : nat)
    (h : list (list (list Q * list Q))) (σ : State) :
  steps_bounded_from cfg n0 σ → steps_bounded_from cfg n0 (with_heapOr h σ).
Proof. intros H. exact H. Qed.

Lemma steps_bounded_eq (cfg : Config) (n0 : nat) (σ σ' : State) :
  heapStep σ' = heapStep σ →
  steps_bounded_from cfg n0 σ → steps_bounded_from cfg n0 σ'.
Proof. unfold steps_bounded_from. by intros ->. Qed.

Lemma steps_bounded_refine_line (E : Env) (cfg : Config)
    (imageAlign : list (list Q)) (scanOrStep k m : nat)
    (order : option ((Q * Q) * list Q)) (pixelsMoved moved' : Q)
    (σ σ' : State) (n0 : nat) :
  0 <= stepSizeReduce cfg → stepSizeReduce cfg <= 1 → (n0 ≤ scanOrStep)%nat →
  refine_line E cfg imageAlign scanOrStep k order m pixelsMoved σ
  = Ok moved' σ' →
  steps_bounded_from cfg n0 σ → steps_bounded_from cfg n0 σ'.
Proof.
  intros Hr0 Hr1 Hn0 Hrun HJ.
  apply refine_line_effect in Hrun
    as (arr & steps & arr' & steps' & o & step & _ & Hst & _ & Hget & _
        & _ & Hhs & Hcase).
  apply (steps_bounded_eq cfg n0
           (with_heapStep (<[scanOrStep := steps']> (heapStep σ)) σ));
    [done |].
  apply steps_bounded_store; [done |].
  pose proof (proj2 HJ scanOrStep steps Hn0 Hst) as Hw.
  destruct Hcase as [[_ Hset] | [-> _]]; [| done].
  apply step_set_Some in Hset as (row & Hrow & Hm & ->).
  pose proof (proj1 (Forall_lookup _ _) Hw _ _ Hrow) as Hrw. cbv beta in Hrw.
  apply steps_within_insert; [done |].
  apply Forall_insert; [done |].
  unfold step_get in Hget. rewrite Hrow in Hget. cbn in Hget.
  pose proof (proj1 (Forall_lookup _ _) Hrw _ _ Hget) as [H0 H1].
  split; nra.
Qed.

Lemma steps_bounded_refine_image (E : Env) (cfg : Config)
    (scanOrStep k : nat) (pixelsMoved moved' : Q) (σ σ' : State) (n0 : nat) :
  0 <= stepSizeReduce cfg → stepSizeReduce cfg <= 1 → (n0 ≤ scanOrStep)%nat →
  refine_image E cfg scanOrStep k pixelsMoved σ = Ok moved' σ' →
  steps_bounded_from cfg n0 σ → steps_bounded_from cfg n0 σ'.
Proof.
  intros Hr0 Hr1 Hn0 Hrun HJ. unfold refine_image in Hrun.
  apply bind_Ok in Hrun as (s & τ0 & Hget & Hrun).
  apply get_sm_Ok in Hget as [-> ->].
  apply bind_Ok in Hrun as (order & τ1 & Hord & Hfold).
  assert (τ1 = σ) as -> by (destruct (flagPointOrder cfg); by inv_run).
  apply (foldM_inv _ (λ _ τ, steps_bounded_from cfg n0 τ)) in Hfold; [done | | done].
  intros m pm τ pm' τ' _ Hline HJτ.
  by eapply steps_bounded_refine_line.
Qed.

Lemma steps_bounded_apply_shift (E : Env) (cfg : Config) (scanOrStep k : nat)
    (dx dy : Q) (σ σ' : State) (u : unit) (n0 : nat) :
  0 <= refineInitialStep cfg → (n0 ≤ scanOrStep)%nat →
  apply_shift E cfg scanOrStep k dx dy σ = Ok u σ' →
  steps_bounded_from cfg n0 σ → steps_bounded_from cfg n0 σ'.
Proof.
  intros Hi Hn0 Hrun HJ.
  apply apply_shift_cases in Hrun
    as [-> | (arr & xy & lines & dir & st & row & _ & _ & Hst
              & Hrow & _ & _ & _ & _ & _ & Hhs)]; [done |].
  apply (steps_bounded_eq cfg n0
           (with_heapStep
              (<[scanOrStep := <[k := replicate (length row)
                                         (refineInitialStep cfg)]> st]>
                 (heapStep σ)) σ)); [done |].
  apply steps_bounded_store; [done |].
  apply steps_within_insert; [by apply (proj2 HJ scanOrStep) |].
  apply Forall_replicate. split; lra.
Qed.

Lemma steps_bounded_global_phase_correlation (E : Env) (cfg : Config)
    (scanOrStep : nat) (meanAbsDiff : option Q) (alignStep : nat)
    (σ σ' : State) (u : unit) (n0 : nat) :
  0 <= refineInitialStep cfg → (n0 ≤ scanOrStep)%nat →
  _global_phase_correlation E cfg scanOrStep meanAbsDiff alignStep σ = Ok u σ' →
  steps_bounded_from cfg n0 σ → steps_bounded_from cfg n0 σ'.
Proof.
  intros Hi Hn0 Hrun HJ. unfold _global_phase_correlation in Hrun.
  apply bind_Ok in Hrun as ([L vec] & σ1 & Henter & Hrun).
  apply bind_Ok in Hrun as (loc1 & σ2 & Hfold & Hret).
  apply ret_Ok in Hret as [-> ->].
  apply gpc_enter_Ok in Henter
    as (a & steps & Ha & Hst & Hsm1 & Hh1 & Hs1 & HLo & HLs & _ & Hvec).
  cbn [fst snd] in *.
  assert (Hlt : (scanOrStep < length (heapStep σ))%nat)
    by (by eapply lookup_lt_Some).
  apply (foldM_inv _
    (λ loc τ, (n0 ≤ loc)%nat ∧ steps_bounded_from cfg n0 τ)) in Hfold.
  - by destruct Hfold.
  - intros k loc τ loc' τ' _ Hstep [Hloc HJτ].
    unfold gpc_step in Hstep.
    apply bind_Ok in Hstep as (d & τ1 & Hdet & Hstep).
    apply detect_shift_Ok in Hdet as ->.
    apply bind_Ok in Hstep as (u1 & τ2 & Happ & Hchk).
    apply (steps_bounded_apply_shift _ _ _ _ _ _ _ _ _ n0 Hi Hloc) in Happ;
      [| done].
    apply check_regression_Ok in Hchk
      as [(_ & -> & ->) | [(_ & _ & -> & ->) | (_ & _ & -> & ->)]].
    + done.
    + done.
    + split; [lia | done].
  - split; [done |]. destruct HJ as [Hlen HJ]. split.
    + rewrite Hs1, length_app. lia.
    + intros l st Hl Hlook. rewrite Hs1 in Hlook.
      apply lookup_app_Some in Hlook as [Hlook | [_ Hlook]].
      * by eapply HJ.
      * apply list_lookup_singleton_Some in Hlook as [_ <-].
        by apply (HJ scanOrStep).
Qed.

Lemma kernel_on_origin_heapStep (E : Env) (originAverage : Q) (σ σ' : State)
    (u : unit) :
  _kernel_on_origin E originAverage σ = Ok u σ' → heapStep σ' = heapStep σ.
Proof. intros Hrun. unfold _kernel_on_origin in Hrun. by inv_run. Qed.

Lemma smoothing_step_heapStep (E : Env) (cfg : Config) (σ σ' : State)
    (u : unit) :
  smoothing_step E cfg σ = Ok u σ' → heapStep σ' = heapStep σ.
Proof.
  intros Hrun. unfold smoothing_step in Hrun.
  destruct (Qltb 0 (originWindowAverage cfg)).
  - by eapply kernel_on_origin_heapStep.
  - by inv_run.
Qed.

Lemma remake_images_heaps (E : Env) (l : list nat) (σ σ' : State) (u : unit) :
  forM (SPmakeImage E) l σ = Ok u σ' →
  heapOr σ' = heapOr σ ∧ heapStep σ' = heapStep σ.
Proof.
  intros Hrun.
  apply (forM_inv (SPmakeImage E)
           (λ τ, heapOr τ = heapOr σ ∧ heapStep τ = heapStep σ) l)
    with (σ := σ) (u := u); [| done | done].
  intros i τ τ' v _ Hmk Hτ.
  apply SPmakeImage_Ok in Hmk as (? & ? & ? & ? & _ & _ & _ & _ & ->).
  exact Hτ.
Qed.

Lemma steps_bounded_outer_iteration (E : Env) (cfg : Config)
    (scanOrStep alignStep : nat) (σ σ' : State) (pixelsMoved : Q) (n0 : nat) :
  0 <= refineInitialStep cfg →
  0 <= stepSizeReduce cfg → stepSizeReduce cfg <= 1 → (n0 ≤ scanOrStep)%nat →
  outer_iteration E cfg scanOrStep alignStep σ = Ok pixelsMoved σ' →
  steps_bounded_from cfg n0 σ → steps_bounded_from cfg n0 σ'.
Proof.
  intros Hi Hr0 Hr1 Hn0 Hrun HJ. unfold outer_iteration in Hrun.
  apply bind_Ok in Hrun as (s0 & τ0 & Hget & Hrun).
  apply get_sm_Ok in Hget as [-> ->].
  apply bind_Ok in Hrun as (u1 & τ1 & Hmk & Hrun).
  apply remake_images_heaps in Hmk as [_ Hs1].
  apply bind_Ok in Hrun as (s & τ2 & Hget & Hrun).
  apply get_sm_Ok in Hget as [-> ->].
  apply bind_Ok in Hrun as (u2 & τ3 & Hws & Hrun).
  apply write_stats_Ok in Hws as [_ ->].
  apply bind_Ok in Hrun as (u3 & τ4 & Hgpc & Hrun).
  apply bind_Ok in Hrun as (pm & τ5 & Hfold & Hrun).
  apply bind_Ok in Hrun as (u4 & τ6 & Hsmooth & Hret).
  apply ret_Ok in Hret as [-> ->].
  apply smoothing_step_heapStep in Hsmooth.
  apply (steps_bounded_eq cfg n0 τ5); [done |].
  apply (foldM_inv _ (λ _ τ, steps_bounded_from cfg n0 τ)) in Hfold; [done | |].
  - intros k pm0 τ pm1 τ' _ Himg HJτ. by eapply steps_bounded_refine_image.
  - assert (HJ1 : steps_bounded_from cfg n0
                    (with_sm (set_stats
                       (<[(alignStep - 1)%nat
                          := (inject_Z (Z.of_nat alignStep - 1),
                              meanAbsDiff_of cfg (sm τ1))]> (stats (sm τ1)))
                       (sm τ1)) τ1)).
    { apply steps_bounded_sm. by apply (steps_bounded_eq cfg n0 σ). }
    destruct (flagGlobalShift cfg).
    + by eapply steps_bounded_global_phase_correlation.
    + by inv_run.
Qed.

Lemma steps_bounded_refine_loop (E : Env) (cfg : Config) (scanOrStep n0 : nat) :
  0 <= refineInitialStep cfg →
  0 <= stepSizeReduce cfg → stepSizeReduce cfg <= 1 → (n0 ≤ scanOrStep)%nat →
  ∀ (fuel s : nat) (moved : list Q) (σ σ' : State) (r : nat * list Q),
  refine_loop E cfg fuel scanOrStep s moved σ = Ok r σ' →
  steps_bounded_from cfg n0 σ → steps_bounded_from cfg n0 σ'.
Proof.
  intros Hi Hr0 Hr1 Hn0.
  induction fuel as [| fuel IH]; intros s moved σ σ' r Hrun HJ;
    apply refine_loop_unfold in Hrun
      as [(_ & _ & ->)
         | (_ & fuel' & pm & σ1 & s' & Hfuel & Hbody & _ & Hrest)];
    try done.
  injection Hfuel as <-.
  eapply IH; [exact Hrest |].
  by eapply steps_bounded_outer_iteration.
Qed.

(** When [refineInitialStep] is not negative and [stepSizeReduce] lies
    between 0 and 1, every step size of a run stays between 0 and
    [refineInitialStep]: in the array that [SPmerge02] creates, which is
    still there at the end, and in the snapshots that the correction passes
    take of it.  A step size is only ever multiplied by [stepSizeReduce] or
    reset to [refineInitialStep]. *)
Theorem step_sizes_stay_in_range (E : Env) (cfg : Config) (fuel : nat)
    (σ σ' : State) (r : nat * list Q) :
  0 <= refineInitialStep cfg →
  0 <= stepSizeReduce cfg → stepSizeReduce cfg <= 1 →
  SPmerge02 E cfg fuel σ = Ok r σ' →
  (∃ steps, heapStep σ' !! length (heapStep σ) = Some steps
            ∧ steps_within cfg steps)
  ∧ ∀ l steps, (length (heapStep σ) ≤ l)%nat →
               heapStep σ' !! l = Some steps → steps_within cfg steps.
Proof.
  intros Hi Hr0 Hr1 Hrun. unfold SPmerge02 in Hrun.
  apply bind_Ok in Hrun as (s & τ0 & Hget & Hrun).
  apply get_sm_Ok in Hget as [-> ->].
  apply bind_Ok in Hrun as (l & τ1 & Hal & Hrun).
  apply alloc_step_Ok in Hal as [-> ->].
  apply bind_Ok in Hrun as (u1 & τ2 & Hput & Hrun).
  apply put_sm_Ok in Hput as ->.
  apply bind_Ok in Hrun as (r1 & τ3 & Hloop & Hrun).
  apply bind_Ok in Hrun as (u2 & τ4 & Hmk & Hrun).
  apply bind_Ok in Hrun as (s' & τ5 & Hget & Hrun).
  apply get_sm_Ok in Hget as [-> ->].
  apply bind_Ok in Hrun as (u3 & τ6 & Hws & Hret).
  apply write_stats_Ok in Hws as [_ ->].
  apply ret_Ok in Hret as [-> ->].
  assert (HJ : steps_bounded_from cfg (length (heapStep σ)) τ4).
  { assert (Hs4 : heapStep τ4 = heapStep τ3).
    { destruct (flagRemakeImage cfg).
      - by apply remake_images_heaps in Hmk as [_ ?].
      - by inv_run. }
    apply (steps_bounded_eq cfg _ τ3); [done |].
    eapply (steps_bounded_refine_loop E cfg (length (heapStep σ))); try done.
    split; cbn.
    - rewrite length_app. cbn. lia.
    - intros l steps Hl Hlook.
      apply lookup_app_Some in Hlook as [Hlook | [_ Hlook]].
      + apply lookup_lt_Some in Hlook. lia.
      + apply list_lookup_singleton_Some in Hlook as [_ <-].
        apply Forall_replicate, Forall_replicate. split; lra. }
  destruct HJ as [Hlen HJ]. cbn. split; [| exact HJ].
  destruct (lookup_lt_is_Some_2 (heapStep τ4) (length (heapStep σ)) Hlen)
    as [steps Hsteps].
  exists steps. split; [done |]. by apply (HJ (length (heapStep σ))).
Qed.

(** ** What a run never modifies *)

Lemma same_data_refl (s : sMerge) : same_data s s.
Proof. by repeat split. Qed.

Lemma same_data_trans (s1 s2 s3 : sMerge) :
  same_data s1 s2 → same_data s2 s3 → same_data s1 s3.
Proof. unfold same_data. intuition congruence. Qed.

Lemma same_data_set_scanOr (l : nat) (s : sMerge) : same_data s (set_scanOr l s).
Proof. by repeat split. Qed.

Lemma same_data_set_stats (st : list (Q * option Q)) (s : sMerge) :
  same_data s (set_stats st s).
Proof. by repeat split. Qed.

Lemma same_data_SPmakeImage (E : Env) (k : nat) (σ σ' : State) (u : unit) :
  SPmakeImage E k σ = Ok u σ' → same_data (sm σ) (sm σ').
Proof.
  intros Hrun.
  apply SPmakeImage_Ok in Hrun as (? & ? & ? & ? & _ & _ & _ & _ & ->).
  unfold same_data. cbn. by rewrite !length_insert.
Qed.

Lemma same_data_remake_images (E : Env) (l : list nat) (σ σ' : State) (u : unit) :
  forM (SPmakeImage E) l σ = Ok u σ' → same_data (sm σ) (sm σ').
Proof.
  intros Hrun.
  apply (forM_inv (SPmakeImage E) (λ τ, same_data (sm σ) (sm τ)) l)
    with (σ := σ) (u := u); [| done | apply same_data_refl].
  intros i τ τ' v _ Hmk Hτ.
  eapply same_data_trans; [exact Hτ |]. by eapply same_data_SPmakeImage.
Qed.

Lemma same_data_apply_shift (E : Env) (cfg : Config) (scanOrStep k : nat)
    (dx dy : Q) (σ σ' : State) (u : unit) :
  apply_shift E cfg scanOrStep k dx dy σ = Ok u σ' → same_data (sm σ) (sm σ').
Proof.
  intros Hrun.
  apply apply_shift_cases in Hrun
    as [-> | (arr & xy & lines & dir & st & row & _ & _ & _
              & _ & _ & _ & _ & _ & Hsm & _)]; [apply same_data_refl |].
  rewrite Hsm. unfold same_data. cbn. by rewrite !length_insert.
Qed.

Lemma same_data_global_phase_correlation (E : Env) (cfg : Config)
    (scanOrStep : nat) (meanAbsDiff : option Q) (alignStep : nat)
    (σ σ' : State) (u : unit) :
  _global_phase_correlation E cfg scanOrStep meanAbsDiff alignStep σ = Ok u σ' →
  same_data (sm σ) (sm σ').
Proof.
  intros Hrun. unfold _global_phase_correlation in Hrun.
  apply bind_Ok in Hrun as ([L vec] & σ1 & Henter & Hrun).
  apply bind_Ok in Hrun as (loc1 & σ2 & Hfold & Hret).
  apply ret_Ok in Hret as [-> ->].
  apply gpc_enter_Ok in Henter as (a & steps & _ & _ & Hsm1 & _).
  apply (foldM_inv _ (λ _ τ, same_data (sm σ) (sm τ))) in Hfold; [done | |].
  - intros k loc τ loc' τ' _ Hstep Hτ.
    unfold gpc_step in Hstep.
    apply bind_Ok in Hstep as (d & τ1 & Hdet & Hstep).
    apply detect_shift_Ok in Hdet as ->.
    apply bind_Ok in Hstep as (u1 & τ2 & Happ & Hchk).
    apply same_data_apply_shift in Happ.
    eapply same_data_trans; [exact Hτ |].
    eapply same_data_trans; [exact Happ |].
    apply check_regression_Ok in Hchk
      as [(_ & _ & ->) | [(_ & _ & _ & ->) | (_ & _ & _ & ->)]]; cbn.
    + apply same_data_refl.
    + apply same_data_set_stats.
    + apply same_data_set_scanOr.
  - rewrite Hsm1. apply same_data_refl.
Qed.

Lemma same_data_outer_iteration (E : Env) (cfg : Config)
    (scanOrStep alignStep : nat) (σ σ' : State) (pixelsMoved : Q) :
  outer_iteration E cfg scanOrStep alignStep σ = Ok pixelsMoved σ' →
  same_data (sm σ) (sm σ').
Proof.
  intros Hrun. unfold outer_iteration in Hrun.
  apply bind_Ok in Hrun as (s0 & τ0 & Hget & Hrun).
  apply get_sm_Ok in Hget as [-> ->].
  apply bind_Ok in Hrun as (u1 & τ1 & Hmk & Hrun).
  apply same_data_remake_images in Hmk.
  apply bind_Ok in Hrun as (s & τ2 & Hget & Hrun).
  apply get_sm_Ok in Hget as [-> ->].
  apply bind_Ok in Hrun as (u2 & τ3 & Hws & Hrun).
  apply write_stats_Ok in Hws as [_ ->].
  apply bind_Ok in Hrun as (u3 & τ4 & Hgpc & Hrun).
  apply bind_Ok in Hrun as (pm & τ5 & Hfold & Hrun).
  apply bind_Ok in Hrun as (u4 & τ6 & Hsmooth & Hret).
  apply ret_Ok in Hret as [-> ->].
  assert (H4 : same_data (sm σ) (sm τ4)).
  { eapply same_data_trans; [exact Hmk |].
    destruct (flagGlobalShift cfg).
    - apply same_data_global_phase_correlation in Hgpc.
      eapply same_data_trans; [| exact Hgpc]. apply same_data_set_stats.
    - inv_run. apply same_data_set_stats. }
  assert (H5 : same_data (sm σ) (sm τ5)).
  { apply (foldM_inv _ (λ _ τ, same_data (sm σ) (sm τ))) in Hfold;
      [done | | done].
    intros k pm0 τ pm1 τ' _ Himg Hτ.
    apply refine_image_sm in Himg as [-> _]. exact Hτ. }
  eapply same_data_trans; [exact H5 |].
  unfold smoothing_step in Hsmooth.
  destruct (Qltb 0 (originWindowAverage cfg)).
  - apply kernel_on_origin_sm in Hsmooth as [l ->]. apply same_data_set_scanOr.
  - inv_run. apply same_data_refl.
Qed.

Lemma same_data_refine_loop (E : Env) (cfg : Config) (scanOrStep : nat) :
  ∀ (fuel s : nat) (moved : list Q) (σ σ' : State) (r : nat * list Q),
  refine_loop E cfg fuel scanOrStep s moved σ = Ok r σ' →
  same_data (sm σ) (sm σ').
Proof.
  induction fuel as [| fuel IH]; intros s moved σ σ' r Hrun;
    apply refine_loop_unfold in Hrun
      as [(_ & _ & ->)
         | (_ & fuel' & pm & σ1 & s' & Hfuel & Hbody & _ & Hrest)];
    try done; try apply same_data_refl.
  injection Hfuel as <-.
  eapply same_data_trans; [by eapply same_data_outer_iteration |].
  by eapply IH.
Qed.

(** A run never modifies the measured scanlines, the scan directions, the
    size of the raster, the reference image or the counts of acquisitions,
    lines and samples, and it keeps the number of reconstructed images;
    it writes to the origins, the reconstructions and the history only. *)
Theorem refinement_keeps_the_data (E : Env) (cfg : Config) (fuel : nat)
    (σ σ' : State) (r : nat * list Q) :
  SPmerge02 E cfg fuel σ = Ok r σ' → same_data (sm σ) (sm σ').
Proof.
  intros Hrun. unfold SPmerge02 in Hrun.
  apply bind_Ok in Hrun as (s & τ0 & Hget & Hrun).
  apply get_sm_Ok in Hget as [-> ->].
  apply bind_Ok in Hrun as (l & τ1 & Hal & Hrun).
  apply alloc_step_Ok in Hal as [-> ->].
  apply bind_Ok in Hrun as (u1 & τ2 & Hput & Hrun).
  apply put_sm_Ok in Hput as ->.
  apply bind_Ok in Hrun as (r1 & τ3 & Hloop & Hrun).
  apply same_data_refine_loop in Hloop.
  apply bind_Ok in Hrun as (u2 & τ4 & Hmk & Hrun).
  apply bind_Ok in Hrun as (s' & τ5 & Hget & Hrun).
  apply get_sm_Ok in Hget as [-> ->].
  apply bind_Ok in Hrun as (u3 & τ6 & Hws & Hret).
  apply write_stats_Ok in Hws as [_ ->].
  apply ret_Ok in Hret as [-> ->].
  eapply same_data_trans; [| apply same_data_set_stats].
  eapply same_data_trans; [apply same_data_set_stats |].
  eapply same_data_trans; [exact Hloop |].
  destruct (flagRemakeImage cfg).
  - by eapply same_data_remake_images.
  - inv_run. apply same_data_refl.
Qed.

(** ** The array objects of the smoothing step *)

Lemma linear_fit_fit_length (n : nat) (row lin : list Q) :
  linear_fit n row = Some lin → length lin = n.
Proof.
  unfold linear_fit. intros H.
  destruct (lstsq_line n _) as [pp |]; [| done]. cbn in H. injection H as <-.
  unfold eval_line. by rewrite length_fmap, length_seq.
Qed.

Lemma smooth_row_length (K row : list Q) :
  length (smooth_row K row) = length row.
Proof.
  unfold smooth_row, convolve_same.
  rewrite length_zip_with, length_fmap, !length_imap, length_fmap. lia.
Qed.

(** The residual of an affine row is the constant -1: the fit is done on
    the row plus one. *)
Lemma residual_affine_row (n : nat) (row lin : list Q) :
  linear_fit n row = Some lin → affine row →
  Forall (λ x, x == - (1)) (zip_with Qminus row lin).
Proof.
  intros Hfit Haff.
  pose proof (linear_fit_length _ _ _ Hfit) as Hlen.
  destruct (linear_fit_affine n row Hlen Haff) as (lin' & Hfit' & HF).
  assert (lin' = lin) as -> by congruence.
  apply Forall_lookup. intros i d Hd.
  apply lookup_zip_with_Some in Hd as (x & l & -> & Hx & Hl).
  pose proof (Forall2_lookup_lr _ _ _ _ _ _ HF Hx Hl) as Hxl.
  cbv beta in Hxl. rewrite Hxl. ring.
Qed.

(** The smoothing step does not smooth in place.  It subtracts the linear
    fit in the array that [sm.scanOr] is bound to, binds [sm.scanOr] to a
    new array of the same shape for the smoothed origins, and adds the fit
    back in the new array only: the previous array object, which an alias
    taken before the call still refers to, is left holding the residuals,
    the constant -1 for every row that is an affine function of the line
    index. *)
Theorem smoothing_leaves_residuals_in_old_array (E : Env) (originAverage : Q)
    (σ σ' : State) (a : list (list Q * list Q)) (u : unit) :
  heapOr σ !! scanOr (sm σ) = Some a → length a = numImages (sm σ) →
  _kernel_on_origin E originAverage σ = Ok u σ' →
  sm σ' = set_scanOr (length (heapOr σ)) (sm σ)
  ∧ (∃ a', heapOr σ' !! length (heapOr σ) = Some a' ∧ same_shape_or a a')
  ∧ ∃ old,
      heapOr σ' !! scanOr (sm σ) = Some old ∧ same_shape_or a old
      ∧ ∀ k xy, a !! k = Some xy →
          ∃ lx ly,
            linear_fit (nr (sm σ)) xy.1 = Some lx
            ∧ linear_fit (nr (sm σ)) xy.2 = Some ly
            ∧ old !! k = Some (zip_with Qminus xy.1 lx, zip_with Qminus xy.2 ly)
            ∧ (affine xy.1 → Forall (λ x, x == - (1)) (zip_with Qminus xy.1 lx))
            ∧ (affine xy.2 → Forall (λ y, y == - (1)) (zip_with Qminus xy.2 ly)).
Proof.
  intros Ha Hlen Hrun. unfold _kernel_on_origin in Hrun.
  apply bind_Ok in Hrun as (s & τ0 & Hget & Hrun).
  apply get_sm_Ok in Hget as [-> ->].
  apply bind_Ok in Hrun as (arr & τ1 & Hload & Hrun).
  apply load_or_Ok in Hload as [Hload ->].
  assert (arr = a) as -> by congruence.
  apply bind_Ok in Hrun as (lin & τ2 & Hlin & Hrun).
  apply lift_Ok in Hlin as [Hlin ->].
  apply bind_Ok in Hrun as (u1 & τ3 & Hst1 & Hrun).
  apply store_or_Ok in Hst1 as ->.
  apply bind_Ok in Hrun as (l & τ4 & Hal & Hrun).
  apply alloc_or_Ok in Hal as [-> ->].
  apply bind_Ok in Hrun as (u2 & τ5 & Hput & Hrun).
  apply put_sm_Ok in Hput as ->.
  apply store_or_Ok in Hrun as ->.
  cbn [sm heapOr with_sm with_heapOr set_scanOr scanOr] in *.
  rewrite !length_insert in *.
  assert (Hlt : (scanOr (sm σ) < length (heapOr σ))%nat)
    by (by eapply lookup_lt_Some).
  pose proof (length_mapM _ _ _ Hlin) as Hll. rewrite length_seq in Hll.
  apply mapM_Some_1 in Hlin.
  assert (Hrows : ∀ k xy, a !! k = Some xy →
            ∃ lx ly, lin !! k = Some (lx, ly)
                     ∧ linear_fit (nr (sm σ)) xy.1 = Some lx
                     ∧ linear_fit (nr (sm σ)) xy.2 = Some ly).
  { intros k xy Hxy.
    assert (Hk : seq 0 (numImages (sm σ)) !! k = Some k).
    { apply lookup_seq_lt. apply lookup_lt_Some in Hxy. lia. }
    destruct (lookup_lt_is_Some_2 lin k) as [l Hl];
      [apply lookup_lt_Some in Hxy; lia |].
    pose proof (Forall2_lookup_lr _ _ _ _ _ _ Hlin Hk Hl) as Hfit.
    cbv beta in Hfit. rewrite Hxy in Hfit. cbn in Hfit.
    destruct (linear_fit (nr (sm σ)) xy.1) as [lx |] eqn:Hlx; [| done].
    destruct (linear_fit (nr (sm σ)) xy.2) as [ly |] eqn:Hly; [| done].
    cbn in Hfit. injection Hfit as <-. by exists lx, ly. }
  split; [done |]. split.
  - eexists. split.
    + apply list_lookup_insert_eq.
      rewrite length_app, length_insert. cbn. lia.
    + apply Forall2_same_length_lookup_2.
      * rewrite length_zip_with, length_fmap, length_zip_with. lia.
      * intros k xy xy' Hxy Hxy'.
        destruct (Hrows k xy Hxy) as (lx & ly & Hl & Hlx & Hly).
        rewrite lookup_zip_with, list_lookup_fmap, lookup_zip_with,
          Hxy, Hl in Hxy'.
        cbn [mbind option_bind fmap option_fmap option_map] in Hxy'.
        apply (inj Some) in Hxy'. subst xy'. cbn [fst snd].
        rewrite !length_zip_with, !smooth_row_length, !length_zip_with.
        rewrite (linear_fit_fit_length _ _ _ Hlx),
          (linear_fit_fit_length _ _ _ Hly),
          (linear_fit_length _ _ _ Hlx), (linear_fit_length _ _ _ Hly).
        lia.
  - eexists. split; [| split].
    + rewrite list_lookup_insert_ne by lia.
      rewrite lookup_app_l by (rewrite length_insert; lia).
      by apply list_lookup_insert_eq.
    + apply Forall2_same_length_lookup_2.
      * rewrite length_zip_with. lia.
      * intros k xy xy' Hxy Hxy'.
        destruct (Hrows k xy Hxy) as (lx & ly & Hl & Hlx & Hly).
        rewrite lookup_zip_with, Hxy, Hl in Hxy'.
        cbn [mbind option_bind fmap option_fmap option_map] in Hxy'.
        apply (inj Some) in Hxy'. subst xy'. cbn [fst snd].
        rewrite !length_zip_with.
        rewrite (linear_fit_fit_length _ _ _ Hlx),
          (linear_fit_fit_length _ _ _ Hly),
          (linear_fit_length _ _ _ Hlx), (linear_fit_length _ _ _ Hly).
        lia.
    + intros k xy Hxy.
      destruct (Hrows k xy Hxy) as (lx & ly & Hl & Hlx & Hly).
      exists lx, ly. split; [done |]. split; [done |]. split.
      * by rewrite lookup_zip_with, Hxy, Hl.
      * split; intros Haff; by eapply residual_affine_row.
Qed.

(** ** The consistency metric *)



Lemma length_pos_Q {A} (v : list A) :
  v ≠ [] → 0 < inject_Z (Z.of_nat (length v)).
Proof.
  intros Hv. change 0 with (inject_Z 0). rewrite <- Zlt_Qlt.
  destruct v; [done | cbn [length]; lia].
Qed.








(** ** The history and the correction pass *)

(** The correction pass does not change the history.  When it keeps a
    shift it assigns to the row of the iteration the metric from before the
    pass, which the row holds already from line 181: the lower metric
    reached by the shift is not recorded. *)
Theorem global_pass_keeps_the_history (E : Env) (cfg : Config)
    (scanOrStep : nat) (meanAbsDiff : option Q) (alignStep : nat)
    (σ σ' : State) (u : unit) :
  stats (sm σ) !! (alignStep - 1)%nat
  = Some (inject_Z (Z.of_nat alignStep - 1), meanAbsDiff) →
  _global_phase_correlation E cfg scanOrStep meanAbsDiff alignStep σ = Ok u σ' →
  stats (sm σ') = stats (sm σ).
Proof.
  intros Hrow Hrun.
  apply (keeps_global_phase_correlation E cfg meanAbsDiff (stats (sm σ))
           (numImages (sm σ))) in Hrun as [Hst _]; done.
Qed.

(** ** A run without refinement steps *)

(** With [refineMaxSteps = 0] the loop is not entered, whatever the fuel:
    the origins are not touched, the images are reconstructed once when
    [flagRemakeImage] is set and left alone otherwise, and the history is
    the single row [(0, metric)]. *)
Theorem zero_steps_only_measure (E : Env) (cfg : Config) (fuel : nat)
    (σ σ' : State) (r : nat * list Q) :
  refineMaxSteps cfg = 0%nat →
  SPmerge02 E cfg fuel σ = Ok r σ' →
  r = (1%nat, [])
  ∧ heapOr σ' = heapOr σ ∧ scanOr (sm σ') = scanOr (sm σ)
  ∧ stats (sm σ') = [(0, meanAbsDiff_of cfg (sm σ'))]
  ∧ (flagRemakeImage cfg = false →
     imageTransform (sm σ') = imageTransform (sm σ)
     ∧ imageDensity (sm σ') = imageDensity (sm σ))
  ∧ (flagRemakeImage cfg = true →
     ∀ k, (k < numImages (sm σ))%nat →
          ∃ td, reconstruction_of E σ k = Some td
                ∧ imageTransform (sm σ') !! k = Some td.1
                ∧ imageDensity (sm σ') !! k = Some td.2).
Proof.
  intros Hmax Hrun. unfold SPmerge02 in Hrun.
  apply bind_Ok in Hrun as (s & τ0 & Hget & Hrun).
  apply get_sm_Ok in Hget as [-> ->].
  apply bind_Ok in Hrun as (l & τ1 & Hal & Hrun).
  apply alloc_step_Ok in Hal as [-> ->].
  apply bind_Ok in Hrun as (u1 & τ2 & Hput & Hrun).
  apply put_sm_Ok in Hput as ->.
  apply bind_Ok in Hrun as (r1 & τ3 & Hloop & Hrun).
  apply refine_loop_unfold in Hloop
    as [(_ & -> & ->) | (Hle & _)]; [| rewrite Hmax in Hle; lia].
  apply bind_Ok in Hrun as (u2 & τ4 & Hmk & Hrun).
  apply bind_Ok in Hrun as (s' & τ5 & Hget & Hrun).
  apply get_sm_Ok in Hget as [-> ->].
  apply bind_Ok in Hrun as (u3 & τ6 & Hws & Hret).
  apply write_stats_Ok in Hws as [_ ->].
  apply ret_Ok in Hret as [-> ->].
  cbn [fst snd sm with_sm heapOr scanOr stats set_stats imageTransform
       imageDensity].
  split; [done |].
  destruct (flagRemakeImage cfg) eqn:Hflag.
  - pose proof Hmk as Hmk'.
    apply remake_images_Ok in Hmk as (Hh & _ & Hsm & Hin & _).
    cbn in Hh, Hsm, Hin.
    split; [done |]. split; [by rewrite Hsm |].
    split.
    { rewrite Hsm. cbn. rewrite Hmax. cbn. unfold meanAbsDiff_of. cbn.
      rewrite Hsm. done. }
    split; [done |]. intros _ k Hk.
    destruct (Hin k ltac:(lia)) as (td & Htd & Ht & Hd).
    exists td. done.
  - inv_run. cbn. rewrite Hmax. done.
Qed.

(** ** The alignment image *)

Lemma others_insert {A} (k : nat) (l : list A) (x : A) :
  others k (<[k := x]> l) = others k l.
Proof.
  unfold others. by rewrite take_insert_ge, drop_insert_lt by lia.
Qed.

(** A map over the pixels of a grid depends on the shape of the grid only. *)
Lemma imap_grid_shape {A B} (F : nat → nat → B) (g g' : list (list A)) :
  Forall2 (λ r r', length r' = length r) g g' →
  imap (λ i row, imap (λ j _, F i j) row) g'
  = imap (λ i row, imap (λ j _, F i j) row) g.
Proof.
  intros HF. revert F. induction HF as [| r r' g g' Hr _ IH]; intros F.
  - done.
  - rewrite !imap_cons. f_equal.
    + apply list_eq. intros j. rewrite !list_lookup_imap.
      destruct (r !! j) as [x |] eqn:Hx.
      * destruct (lookup_lt_is_Some_2 r' j) as [y Hy];
          [apply lookup_lt_Some in Hx; lia |].
        by rewrite Hy.
      * apply lookup_ge_None_1 in Hx.
        by rewrite (lookup_ge_None_2 r' j) by lia.
    + apply (IH (λ i j, F (S i) j)).
Qed.

(** Acquisition [k] is aligned against the other acquisitions only: when
    no reference image is given, its alignment image does not depend on
    its own reconstruction, as long as this has the shape of the images. *)
Theorem imageAlign_leaves_acquisition_out (cfg : Config) (s : sMerge) (k : nat)
    (t d : list (list Q)) :
  imageRef s = None →
  (∀ old, imageTransform s !! k = Some old →
          Forall2 (λ r r', length r' = length r) old t) →
  imageAlign_of cfg
    (set_images (<[k := t]> (imageTransform s)) (<[k := d]> (imageDensity s)) s)
    k
  = imageAlign_of cfg s k.
Proof.
  intros Href Hshape. unfold imageAlign_of.
  cbn [imageRef imageTransform imageDensity set_images]. rewrite Href.
  rewrite !others_insert.
  assert (Hgrid : Forall2 (λ r r', length r' = length r)
                    (default [] (head (imageTransform s)))
                    (default [] (head (<[k := t]> (imageTransform s))))).
  { destruct (imageTransform s) as [| img rest] eqn:HT; [by constructor |].
    destruct k as [| k]; cbn.
    - apply (Hshape img). done.
    - apply Forall2_same_length_lookup_2; [done |]. intros; by simplify_eq. }
  cbv zeta.
  by rewrite !(imap_grid_shape _ _ _ Hgrid).
Qed.

(** ** The search on an image without features *)



(** ** Keyword arguments *)

Lemma kwargs_get_known (kwargs : list (string * Value)) (key : string)
    (dflt : Value) :
  key ∈ _args_list →
  kwargs_get (filter (λ e, e.1 ∈ _args_list) kwargs) key dflt
  = kwargs_get kwargs key dflt.
Proof.
  intros Hkey. induction kwargs as [| [k v] rest IH]; [done |].
  rewrite filter_cons. cbn [fst]. destruct (decide (k ∈ _args_list)) as [Hk | Hk].
  - cbn [kwargs_get]. by rewrite IH.
  - cbn [kwargs_get]. rewrite decide_False; [exact IH |].
    intros ->. done.
Qed.

Lemma settings_of_known (s : sMerge) (scanActive_is_None : bool)
    (refineMaxSteps_arg initialRefineSteps_arg : option nat)
    (kwargs : list (string * Value)) :
  settings_of s scanActive_is_None refineMaxSteps_arg initialRefineSteps_arg
    (filter (λ e, e.1 ∈ _args_list) kwargs)
  = settings_of s scanActive_is_None refineMaxSteps_arg initialRefineSteps_arg
      kwargs.
Proof.
  unfold settings_of. cbv zeta.
  rewrite !kwargs_get_known; [done | ..].
  all: unfold _args_list;
    repeat first [apply list_elem_of_here | apply list_elem_of_further].
Qed.

(** A keyword argument that [SPmerge02] does not know is ignored, it only
    makes the function issue a warning: the settings and the run on the
    session are those of the call without the unknown arguments, and there
    is one warning per unknown argument, none for a known one. *)
Theorem unknown_keywords_are_ignored (E : Env)
    (SPmerge02_initial : Q → Q → Q → M unit) (fuel : nat)
    (scanActive_is_None : bool)
    (refineMaxSteps_arg initialRefineSteps_arg : option nat)
    (kwargs : list (string * Value)) :
  let known := filter (λ e, e.1 ∈ _args_list) kwargs in
  let call := SPmerge02_call E SPmerge02_initial fuel scanActive_is_None
                refineMaxSteps_arg initialRefineSteps_arg in
  (∀ s, settings_of s scanActive_is_None refineMaxSteps_arg
          initialRefineSteps_arg kwargs
        = settings_of s scanActive_is_None refineMaxSteps_arg
            initialRefineSteps_arg known)
  ∧ (∀ σ, (call kwargs).2 σ = (call known).2 σ)
  ∧ (call known).1 = []
  ∧ (length (call kwargs).1 + length known = length kwargs)%nat.
Proof.
  intros known call. split; [| split; [| split]].
  - intros s. symmetry. apply settings_of_known.
  - intros σ. unfold call, SPmerge02_call. cbn [snd].
    unfold bind, get_sm. unfold known. by rewrite settings_of_known.
  - unfold call, SPmerge02_call, warnings_of, known. cbn [fst].
    induction kwargs as [| [k v] rest IH]; [done |].
    rewrite filter_cons. cbn [fst]. destruct (decide (k ∈ _args_list)).
    + rewrite fmap_cons, filter_cons. cbn [fst].
      rewrite decide_False by (intros H; by apply H). exact IH.
    + exact IH.
  - unfold call, SPmerge02_call, warnings_of, known. cbn [fst].
    rewrite length_fmap.
    induction kwargs as [| [k v] rest IH]; [done |].
    rewrite fmap_cons, !filter_cons. cbn [fst length].
    destruct (decide (k ∈ _args_list)).
    + rewrite decide_False by (intros H; by apply H). cbn [length].
      cbv zeta in IH. lia.
    + rewrite decide_True by done. cbn [length]. cbv zeta in IH. lia.
Qed.

(** ** The image that is plotted *)

Lemma concat_fmap_fmap {A B} (f : A → B) (a : list (list A)) :
  concat (fmap (fmap (M := list) f) a) = f <$> concat a.
Proof.
  induction a as [| row a IH]; [done |].
  cbn [fmap list_fmap concat]. rewrite fmap_app. f_equal. exact IH.
Qed.

Lemma select_fmap (f : Q → Q) (mask : list (list bool)) (a : list (list Q)) :
  select mask (fmap (fmap (M := list) f) a) = f <$> select mask a.
Proof.
  unfold select. rewrite concat_fmap_fmap.
  generalize (concat mask) (concat a). clear mask a.
  intros m. induction m as [| b m IH]; intros l; [done |].
  destruct l as [| x l]; [done |].
  cbn [fmap list_fmap zip_with omap list_omap fst snd].
  destruct b; cbn [fmap list_fmap]; [f_equal |]; apply IH.
Qed.

Lemma vsum_fmap_div (l : list Q) (r : Q) :
  vsum ((λ v, v / r) <$> l) == vsum l / r.
Proof.
  induction l as [| x l IH]; unfold vsum in *; cbn [fmap list_fmap foldr].
  - unfold Qdiv. ring.
  - rewrite IH. unfold Qdiv. ring.
Qed.

Lemma vsum_fmap_minus (l : list Q) (m : Q) :
  vsum ((λ v, v - m) <$> l) == vsum l - inject_Z (Z.of_nat (length l)) * m.
Proof.
  induction l as [| x l IH]; unfold vsum in *;
    cbn [fmap list_fmap foldr length].
  - change (inject_Z (Z.of_nat 0)) with 0. ring.
  - rewrite IH, inject_Z_S. ring.
Qed.

Lemma vsum_fmap_sq_div (l : list Q) (r : Q) :
  ¬ r == 0 →
  vsum ((λ v, v * v) <$> ((λ v, v / r) <$> l))
  == vsum ((λ v, v * v) <$> l) / (r * r).
Proof.
  intros Hr.
  induction l as [| x l IH]; unfold vsum in *; cbn [fmap list_fmap foldr].
  - field. done.
  - rewrite IH. field. done.
Qed.

(** The image that [_plot] shows is normalised over the pixels of density
    above 0.5: there its mean is zero and, when the square root of line 455
    is exact, its mean square is one.  Plotting draws the markers of every
    acquisition, draws the curve of the statistics when the history has
    more than one row, and leaves the session as it was. *)
Theorem plot_shows_normalised_image (E : Env) (σ σ' : State) (fig : Figure) :
  _plot E σ = Ok fig σ' →
  σ' = σ
  ∧ length (markers fig) = numImages (sm σ)
  ∧ (is_Some (curve fig) ↔ (1 < length (stats (sm σ)))%nat)
  ∧ ∀ img, shown fig = Some img →
      ∃ centred,
        plot_centred (sm σ) = Some centred
        ∧ mean (select (plot_mask (sm σ)) img) == 0
        ∧ (np_sqrt E (plot_mean_square centred (sm σ))
           * np_sqrt E (plot_mean_square centred (sm σ))
           == plot_mean_square centred (sm σ) →
           mean ((λ v, v * v) <$> select (plot_mask (sm σ)) img) == 1).
Proof.
  intros Hrun. unfold _plot in Hrun.
  apply bind_Ok in Hrun as (s & τ0 & Hget & Hrun).
  apply get_sm_Ok in Hget as [-> ->].
  apply bind_Ok in Hrun as (a & τ1 & Hload & Hrun).
  apply load_or_Ok in Hload as [Hload ->].
  apply bind_Ok in Hrun as (marks & τ2 & Hmarks & Hret).
  apply lift_Ok in Hmarks as [Hmarks ->].
  apply ret_Ok in Hret as [-> ->].
  cbn [shown markers curve].
  split; [done |]. split.
  { apply length_mapM in Hmarks. by rewrite <- Hmarks, length_seq. }
  split.
  { case_decide as Hlt; split; intros Hc; try done. }
  intros img Himg. unfold plot_image in Himg.
  destruct (plot_centred (sm σ)) as [centred |] eqn:Hc; [| done].
  cbn [mbind option_bind] in Himg.
  set (q := plot_mean_square centred (sm σ)) in *.
  destruct (Qeq_bool (np_sqrt E q) 0) eqn:Hz; [done |].
  apply (inj Some) in Himg. subst img.
  assert (Hr : ¬ np_sqrt E q == 0).
  { intros H0. apply Qeq_bool_iff in H0. congruence. }
  exists centred. split; [done |].
  unfold plot_centred in Hc.
  destruct (select (plot_mask (sm σ)) (plot_average (sm σ)))
    as [| x sel] eqn:Hsel; [done |].
  apply (inj Some) in Hc.
  assert (Hcs : select (plot_mask (sm σ)) centred
                = (λ v, v - mean (x :: sel)) <$> (x :: sel)).
  { by rewrite <- Hc, select_fmap, Hsel. }
  pose proof (length_pos_Q (x :: sel) ltac:(done)) as Hn.
  split.
  - rewrite select_fmap, Hcs. unfold mean at 1.
    rewrite !length_fmap, vsum_fmap_div, vsum_fmap_minus.
    unfold mean. field. split; [lra | done].
  - intros Hsq. rewrite select_fmap. unfold mean.
    rewrite !length_fmap, vsum_fmap_sq_div by done.
    subst q. unfold plot_mean_square, mean in Hsq, Hr |- *.
    rewrite !length_fmap in Hsq, Hr |- *.
    set (S2 := vsum ((λ v, v * v) <$> select (plot_mask (sm σ)) centred)) in *.
    set (n := inject_Z (Z.of_nat (length (select (plot_mask (sm σ)) centred))))
      in *.
    set (r := np_sqrt E (S2 / n)) in *.
    assert (Hn' : 0 < n).
    { unfold n. rewrite Hcs, length_fmap. exact Hn. }
    assert (HS : S2 == r * r * n) by (rewrite Hsq; field; lra).
    rewrite HS. clearbody r n S2. field. split; [done | lra].
Qed.

(** ** The length of a move *)








(** ** A run on a well-formed session *)

Lemma origins_ok_lookup (s : sMerge) (a : list (list Q * list Q)) (k : nat) :
  origins_ok s a → (k < numImages s)%nat →
  ∃ xy, a !! k = Some xy ∧ length xy.1 = nr s ∧ length xy.2 = nr s.
Proof.
  intros [Hlen Hrows] Hk.
  destruct (lookup_lt_is_Some_2 a k) as [xy Hxy]; [lia |].
  exists xy. split; [done |].
  exact (proj1 (Forall_lookup _ _) Hrows _ _ Hxy).
Qed.

Lemma steps_ok_lookup (s : sMerge) (steps : list (list Q)) (k : nat) :
  steps_ok s steps → (k < numImages s)%nat →
  ∃ row, steps !! k = Some row ∧ length row = nr s.
Proof.
  intros [Hlen Hrows] Hk.
  destruct (lookup_lt_is_Some_2 steps k) as [row Hrow]; [lia |].
  exists row. split; [done |].
  exact (proj1 (Forall_lookup _ _) Hrows _ _ Hrow).
Qed.

Lemma origins_ok_shape (s : sMerge) (a a' : list (list Q * list Q)) :
  origins_ok s a → same_shape_or a a' → origins_ok s a'.
Proof.
  intros [Hlen Hrows] Hsh. split.
  - by rewrite <- (Forall2_length _ _ _ Hsh).
  - apply Forall_lookup. intros i xy' Hxy'.
    destruct (Forall2_lookup_r _ _ _ _ _ Hsh Hxy') as (xy & Hxy & H1 & H2).
    destruct (proj1 (Forall_lookup _ _) Hrows _ _ Hxy) as [H3 H4].
    split; congruence.
Qed.

Lemma steps_ok_shape (s : sMerge) (a a' : list (list Q)) :
  steps_ok s a → same_shape_step a a' → steps_ok s a'.
Proof.
  intros [Hlen Hrows] Hsh. split.
  - by rewrite <- (Forall2_length _ _ _ Hsh).
  - apply Forall_lookup. intros i row' Hrow'.
    destruct (Forall2_lookup_r _ _ _ _ _ Hsh Hrow') as (row & Hrow & H1).
    pose proof (proj1 (Forall_lookup _ _) Hrows _ _ Hrow) as H2.
    cbv beta in H2. congruence.
Qed.

Lemma origins_ok_same_data (s s' : sMerge) (a : list (list Q * list Q)) :
  same_data s s' → origins_ok s a → origins_ok s' a.
Proof.
  intros (Hn & Hr & _) [Hlen Hrows]. unfold origins_ok.
  by rewrite Hn, Hr.
Qed.

Lemma data_ok_same_data (cfg : Config) (R C : nat) (s s' : sMerge) :
  same_data s s' → data_ok cfg R C s → data_ok cfg R C s'.
Proof.
  intros (Hn & Hr & Hc & Hl & Hd & Hs & Href & HT & HD).
  unfold data_ok. rewrite Hn, Hr, Hc, Hl, Hd, Hs, Href, HT, HD. done.
Qed.

(** ** Running the monad forwards *)

Lemma bind_eq {A B} (m : M A) (f : A → M B) (σ σ1 : State) (a : A) :
  m σ = Ok a σ1 → bind m f σ = f a σ1.
Proof. unfold bind. by intros ->. Qed.

Lemma lift_eq {A} (o : option A) (a : A) (σ : State) :
  o = Some a → lift o σ = Ok a σ.
Proof. by intros ->. Qed.

Lemma get_sm_eq (σ : State) : get_sm σ = Ok (sm σ) σ.
Proof. done. Qed.

Lemma load_or_eq (l : nat) (a : list (list Q * list Q)) (σ : State) :
  heapOr σ !! l = Some a → load_or l σ = Ok a σ.
Proof. intros H. unfold load_or. by rewrite H. Qed.

Lemma load_step_eq (l : nat) (a : list (list Q)) (σ : State) :
  heapStep σ !! l = Some a → load_step l σ = Ok a σ.
Proof. intros H. unfold load_step. by rewrite H. Qed.

Lemma store_or_eq (l : nat) (a : list (list Q * list Q)) (σ : State) :
  store_or l a σ = Ok tt (with_heapOr (<[l := a]> (heapOr σ)) σ).
Proof. done. Qed.

Lemma store_step_eq (l : nat) (a : list (list Q)) (σ : State) :
  store_step l a σ = Ok tt (with_heapStep (<[l := a]> (heapStep σ)) σ).
Proof. done. Qed.

Lemma alloc_or_eq (a : list (list Q * list Q)) (σ : State) :
  alloc_or a σ = Ok (length (heapOr σ)) (with_heapOr (heapOr σ ++ [a]) σ).
Proof. done. Qed.

Lemma alloc_step_eq (a : list (list Q)) (σ : State) :
  alloc_step a σ = Ok (length (heapStep σ)) (with_heapStep (heapStep σ ++ [a]) σ).
Proof. done. Qed.

Lemma put_sm_eq (s : sMerge) (σ : State) : put_sm s σ = Ok tt (with_sm s σ).
Proof. done. Qed.

Ltac run H := erewrite (bind_eq _ _ _ _ _ H); cbv beta.
Ltac run_get :=
  erewrite (bind_eq get_sm _ _ _ _ (get_sm_eq _)); cbv beta.
Ltac run_lift H :=
  erewrite (bind_eq (lift _) _ _ _ _ (lift_eq _ _ _ H)); cbv beta.

(** A loop over a range whose body returns and moves an invariant from
    one index to the next returns, with the invariant at the end of the
    range. *)
Lemma foldM_seq_returns {A} (f : nat → A → M A)
    (I : nat → A → State → Prop) (len : nat) :
  ∀ (start : nat) (a : A) (σ : State),
  (∀ i b τ, (start ≤ i < start + len)%nat → I i b τ →
            ∃ b' τ', f i b τ = Ok b' τ' ∧ I (S i) b' τ') →
  I start a σ →
  ∃ a' σ', foldM f (seq start len) a σ = Ok a' σ' ∧ I (start + len)%nat a' σ'.
Proof.
  induction len as [| len IH]; intros start a σ Hf HI.
  - exists a, σ. by rewrite Nat.add_0_r.
  - destruct (Hf start a σ ltac:(lia) HI) as (b & τ & Hstep & HIb).
    destruct (IH (S start) b τ) as (a' & σ' & Hrest & HI').
    + intros i c τ' Hi. apply Hf. lia.
    + done.
    + exists a', σ'. split.
      * cbn [seq foldM]. by rewrite (bind_eq _ _ _ _ _ Hstep).
      * by replace (start + S len)%nat with (S start + len)%nat by lia.
Qed.

(** ** The shapes of the store *)

Lemma or_get_ok (s : sMerge) (a : list (list Q * list Q)) (k m : nat) :
  origins_ok s a → (k < numImages s)%nat → (m < nr s)%nat →
  is_Some (or_get a k m).
Proof.
  intros Ha Hk Hm.
  destruct (origins_ok_lookup s a k Ha Hk) as (xy & Hxy & H1 & H2).
  destruct (lookup_lt_is_Some_2 xy.1 m) as [x Hx]; [lia |].
  destruct (lookup_lt_is_Some_2 xy.2 m) as [y Hy]; [lia |].
  exists (x, y). unfold or_get. rewrite Hxy. cbn [mbind option_bind].
  rewrite Hx. cbn [mbind option_bind]. by rewrite Hy.
Qed.

Lemma step_get_ok (s : sMerge) (steps : list (list Q)) (k m : nat) :
  steps_ok s steps → (k < numImages s)%nat → (m < nr s)%nat →
  is_Some (step_get steps k m).
Proof.
  intros Hs Hk Hm.
  destruct (steps_ok_lookup s steps k Hs Hk) as (row & Hrow & H1).
  unfold step_get. rewrite Hrow. cbn [mbind option_bind].
  apply lookup_lt_is_Some_2. lia.
Qed.

Lemma or_set_ok (s : sMerge) (a : list (list Q * list Q)) (k m : nat)
    (p : Q * Q) :
  origins_ok s a → (k < numImages s)%nat → (m < nr s)%nat →
  ∃ a', or_set a k m p = Some a' ∧ origins_ok s a'.
Proof.
  intros Ha Hk Hm.
  destruct (origins_ok_lookup s a k Ha Hk) as (xy & Hxy & H1 & H2).
  unfold or_set. rewrite Hxy. cbn [mbind option_bind].
  rewrite decide_True by lia. eexists. split; [done |].
  eapply origins_ok_shape; [exact Ha |].
  eapply same_shape_or_insert; [exact Hxy | |]; cbn [fst snd];
    by rewrite length_insert.
Qed.

Lemma step_set_ok (s : sMerge) (steps : list (list Q)) (k m : nat) (v : Q) :
  steps_ok s steps → (k < numImages s)%nat → (m < nr s)%nat →
  ∃ steps', step_set steps k m v = Some steps' ∧ steps_ok s steps'.
Proof.
  intros Hs Hk Hm.
  destruct (steps_ok_lookup s steps k Hs Hk) as (row & Hrow & H1).
  unfold step_set. rewrite Hrow. cbn [mbind option_bind].
  rewrite decide_True by lia. eexists. split; [done |].
  eapply steps_ok_shape; [exact Hs |].
  eapply same_shape_step_insert; [exact Hrow |]. by rewrite length_insert.
Qed.

Lemma step_fill_ok (s : sMerge) (steps : list (list Q)) (k : nat) (v : Q) :
  steps_ok s steps → (k < numImages s)%nat →
  ∃ steps', step_fill steps k v = Some steps' ∧ steps_ok s steps'.
Proof.
  intros Hs Hk.
  destruct (steps_ok_lookup s steps k Hs Hk) as (row & Hrow & H1).
  unfold step_fill. rewrite Hrow. cbn [mbind option_bind].
  eexists. split; [done |].
  eapply steps_ok_shape; [exact Hs |].
  eapply same_shape_step_insert; [exact Hrow |]. by rewrite length_replicate.
Qed.

Lemma or_set_rows_ok (s : sMerge) (a : list (list Q * list Q)) (k : nat)
    (xy : list Q * list Q) (xNew yNew : list Q) :
  origins_ok s a → a !! k = Some xy →
  length xNew = length xy.1 → length yNew = length xy.2 →
  ∃ a', or_set_rows a k xNew yNew = Some a' ∧ origins_ok s a'.
Proof.
  intros Ha Hxy H1 H2.
  unfold or_set_rows. rewrite Hxy. cbn [mbind option_bind].
  rewrite decide_True by done. eexists. split; [done |].
  eapply origins_ok_shape; [exact Ha |].
  by eapply same_shape_or_insert.
Qed.

Section ShapedStore.

Context (E : Env) (cfg : Config) (R C : nat) (s0 : sMerge) (l0 n0 m0 N : nat).
Hypothesis Hdata : data_ok cfg R C s0.
Hypothesis Hrec : reconstruct_ok E.

Lemma store_ok_or (τ : State) :
  store_ok s0 l0 n0 m0 N τ →
  ∃ a, heapOr τ !! scanOr (sm τ) = Some a ∧ origins_ok s0 a.
Proof.
  intros (_ & _ & Hloc & Hlt & _ & _ & Hor & _).
  destruct (lookup_lt_is_Some_2 _ _ Hlt) as [a Ha].
  exists a. split; [done |]. by eapply Hor.
Qed.

Lemma store_ok_step (τ : State) (l : nat) :
  store_ok s0 l0 n0 m0 N τ → (m0 ≤ l < length (heapStep τ))%nat →
  ∃ st, heapStep τ !! l = Some st ∧ steps_ok s0 st.
Proof.
  intros (_ & _ & _ & _ & _ & _ & _ & Hst) [Hm Hlt].
  destruct (lookup_lt_is_Some_2 _ _ Hlt) as [st Hl].
  exists st. split; [done |]. by eapply Hst.
Qed.

Lemma store_ok_store_or (τ : State) (a' : list (list Q * list Q)) :
  store_ok s0 l0 n0 m0 N τ → origins_ok s0 a' →
  store_ok s0 l0 n0 m0 N (with_heapOr (<[scanOr (sm τ) := a']> (heapOr τ)) τ).
Proof.
  intros (Hsd & Hstats & Hloc & Hlt & Hn & Hm & Hor & Hst) Ha'.
  unfold store_ok. cbn [sm heapOr heapStep with_heapOr].
  rewrite length_insert. repeat (split; [done |]). split; [| done].
  intros l a Hl Hcase.
  apply list_lookup_insert_Some in Hl as [(_ & <- & _) | [_ Hl]]; [done |].
  by eapply Hor.
Qed.

Lemma store_ok_store_step (τ : State) (l : nat) (st' : list (list Q)) :
  store_ok s0 l0 n0 m0 N τ → steps_ok s0 st' →
  store_ok s0 l0 n0 m0 N (with_heapStep (<[l := st']> (heapStep τ)) τ).
Proof.
  intros (Hsd & Hstats & Hloc & Hlt & Hn & Hm & Hor & Hst) Hst'.
  unfold store_ok. cbn [sm heapOr heapStep with_heapStep].
  rewrite length_insert. repeat (split; [done |]).
  intros l2 st Hl Hcase.
  apply list_lookup_insert_Some in Hl as [(_ & <- & _) | [_ Hl]]; [done |].
  by eapply Hst.
Qed.

Lemma store_ok_alloc_or (τ : State) (a : list (list Q * list Q)) :
  store_ok s0 l0 n0 m0 N τ → origins_ok s0 a →
  store_ok s0 l0 n0 m0 N (with_heapOr (heapOr τ ++ [a]) τ).
Proof.
  intros (Hsd & Hstats & Hloc & Hlt & Hn & Hm & Hor & Hst) Ha.
  unfold store_ok. cbn [sm heapOr heapStep with_heapOr].
  rewrite length_app. cbn [length].
  split; [done |]. split; [done |]. split; [done |].
  split; [lia |]. split; [lia |]. split; [done |]. split; [| done].
  intros l a2 Hl Hcase.
  apply lookup_snoc_Some in Hl as [[_ Hl] | [_ <-]]; [by eapply Hor | done].
Qed.

Lemma store_ok_alloc_step (τ : State) (st : list (list Q)) :
  store_ok s0 l0 n0 m0 N τ → steps_ok s0 st →
  store_ok s0 l0 n0 m0 N (with_heapStep (heapStep τ ++ [st]) τ).
Proof.
  intros (Hsd & Hstats & Hloc & Hlt & Hn & Hm & Hor & Hst) Hs.
  unfold store_ok. cbn [sm heapOr heapStep with_heapStep].
  rewrite length_app. cbn [length].
  split; [done |]. split; [done |]. split; [done |].
  split; [done |]. split; [done |]. split; [lia |]. split; [done |].
  intros l st2 Hl Hcase.
  apply lookup_snoc_Some in Hl as [[_ Hl] | [_ <-]]; [by eapply Hst | done].
Qed.

Lemma store_ok_put_images (τ : State) (t d : list (list (list Q))) :
  store_ok s0 l0 n0 m0 N τ →
  length t = length (imageTransform (sm τ)) →
  length d = length (imageDensity (sm τ)) →
  store_ok s0 l0 n0 m0 N (with_sm (set_images t d (sm τ)) τ).
Proof.
  intros (Hsd & Hrest) Ht Hd. split; [| exact Hrest].
  eapply same_data_trans; [exact Hsd |].
  unfold same_data. cbn. by rewrite Ht, Hd.
Qed.

Lemma store_ok_put_stats (τ : State) (st : list (Q * option Q)) :
  store_ok s0 l0 n0 m0 N τ → length st = N →
  store_ok s0 l0 n0 m0 N (with_sm (set_stats st (sm τ)) τ).
Proof.
  intros (Hsd & _ & Hrest) Hlen. split; [| split; [exact Hlen | exact Hrest]].
  eapply same_data_trans; [exact Hsd |]. apply same_data_set_stats.
Qed.

Lemma store_ok_put_scanOr (τ : State) (l : nat) :
  store_ok s0 l0 n0 m0 N τ → (n0 ≤ l < length (heapOr τ))%nat →
  store_ok s0 l0 n0 m0 N (with_sm (set_scanOr l (sm τ)) τ).
Proof.
  intros (Hsd & Hstats & _ & _ & Hrest) [Hl1 Hl2].
  split; [| split; [exact Hstats |]].
  - eapply same_data_trans; [exact Hsd |]. apply same_data_set_scanOr.
  - cbn. split; [by right |]. split; [done |]. exact Hrest.
Qed.

Lemma store_ok_data (τ : State) :
  store_ok s0 l0 n0 m0 N τ → data_ok cfg R C (sm τ).
Proof. intros (Hsd & _). by eapply data_ok_same_data. Qed.

End ShapedStore.

(** ** Reconstruction and history on a shaped store *)

Section ShapedRun.

Context (E : Env) (cfg : Config) (R C : nat) (s0 : sMerge) (l0 n0 m0 N : nat).
Hypothesis Hdata : data_ok cfg R C s0.
Hypothesis Hrec : reconstruct_ok E.

Lemma SPmakeImage_returns (τ : State) (k : nat) :
  store_ok s0 l0 n0 m0 N τ → (k < numImages s0)%nat →
  ∃ t d,
    SPmakeImage E k τ
    = Ok tt (with_sm (set_images (<[k := t]> (imageTransform (sm τ)))
                        (<[k := d]> (imageDensity (sm τ))) (sm τ)) τ)
    ∧ rect R C t ∧ rect R C d.
Proof.
  intros HI Hk.
  destruct (store_ok_or _ _ _ _ _ _ HI) as (a & Ha & Hao).
  destruct HI as (Hsd & _).
  destruct Hsd as (Hn & Hr & Hc & Hl & Hd & Hs & Href & HT & HD).
  destruct Hdata as (_ & _ & _ & Hsize & _ & _ & Hll & _ & Hld & HlT & HlD & _).
  destruct (lookup_lt_is_Some_2 (scanLines (sm τ)) k) as [lines Hlines];
    [rewrite Hl; lia |].
  destruct (lookup_lt_is_Some_2 (scanDir (sm τ)) k) as [dir Hdir];
    [rewrite Hd; lia |].
  destruct (origins_ok_lookup _ _ k Hao Hk) as (org & Horg & _).
  destruct (lookup_lt_is_Some_2 (imageTransform (sm τ)) k) as [t0 Ht0];
    [rewrite HT; lia |].
  destruct (lookup_lt_is_Some_2 (imageDensity (sm τ)) k) as [d0 Hd0];
    [rewrite HD; lia |].
  exists (reconstruct E lines dir org (imageSize (sm τ))).1,
         (reconstruct E lines dir org (imageSize (sm τ))).2.
  split.
  - unfold SPmakeImage. run_get. run (load_or_eq _ _ _ Ha).
    run_lift Hlines. run_lift Hdir. run_lift Horg. run_lift Ht0. run_lift Hd0.
    reflexivity.
  - pose proof (Hrec lines dir org (imageSize (sm τ))) as Hshape.
    rewrite Hs, Hsize in Hshape. cbn [fst snd] in Hshape.
    rewrite !Nat2Z.id in Hshape. by rewrite Hs, Hsize.
Qed.

(** The loop that rebuilds every image returns; afterwards all images have
    the shape of the raster. *)
Lemma remake_returns (τ : State) :
  store_ok s0 l0 n0 m0 N τ →
  ∃ τ', forM (SPmakeImage E) (seq 0 (numImages s0)) τ = Ok tt τ'
        ∧ store_ok s0 l0 n0 m0 N τ' ∧ images_ok R C (sm τ')
        ∧ heapStep τ' = heapStep τ.
Proof.
  intros HI. unfold forM.
  destruct (foldM_seq_returns (λ i _, SPmakeImage E i)
    (λ i _ τ', store_ok s0 l0 n0 m0 N τ' ∧ heapStep τ' = heapStep τ
       ∧ ∀ k, (k < i)%nat →
           (∃ t, imageTransform (sm τ') !! k = Some t ∧ rect R C t)
           ∧ ∃ d, imageDensity (sm τ') !! k = Some d ∧ rect R C d)
    (numImages s0) 0%nat tt τ) as ([] & τ' & Hrun & HI' & Hhs & Himg).
  - intros i [] τ1 Hi (HI1 & Hhs1 & Himg1).
    destruct (SPmakeImage_returns τ1 i HI1 ltac:(lia)) as (t & d & Hmk & Ht & Hd).
    eexists tt, _. split; [exact Hmk |].
    pose proof HI1 as (Hsd & _).
    destruct Hsd as (Hn & _ & _ & _ & _ & _ & _ & HT & HD).
    destruct Hdata as (_ & _ & _ & _ & _ & _ & _ & _ & _ & HlT & HlD & _).
    split; [| split; [done |]].
    + apply store_ok_put_images; [done | |]; by rewrite length_insert.
    + intros k Hk. cbn [sm with_sm set_images imageTransform imageDensity].
      destruct (decide (k = i)) as [-> | Hne].
      * rewrite !list_lookup_insert_eq by lia.
        split; eexists; (split; [reflexivity | done]).
      * rewrite !list_lookup_insert_ne by done. apply Himg1. lia.
  - split; [done |]. split; [done |]. intros k Hk. lia.
  - exists τ'. split; [done |]. split; [done |]. split; [| done].
    pose proof HI' as (Hsd & _).
    destruct Hsd as (Hn & _ & _ & _ & _ & _ & _ & HT & HD).
    destruct Hdata as (_ & _ & _ & _ & _ & _ & _ & _ & _ & HlT & HlD & _).
    split; apply Forall_lookup; intros k x Hx.
    + destruct (Himg k) as [(t & Ht & Hrt) _];
        [apply lookup_lt_Some in Hx; lia |].
      congruence.
    + destruct (Himg k) as [_ (d & Hd & Hrd)];
        [apply lookup_lt_Some in Hx; lia |].
      congruence.
Qed.

Lemma write_stats_returns (τ : State) (i : nat) (row : Q * option Q) :
  store_ok s0 l0 n0 m0 N τ → (i < N)%nat →
  write_stats i row τ
  = Ok tt (with_sm (set_stats (<[i := row]> (stats (sm τ))) (sm τ)) τ)
  ∧ store_ok s0 l0 n0 m0 N
      (with_sm (set_stats (<[i := row]> (stats (sm τ))) (sm τ)) τ).
Proof.
  intros HI Hi. pose proof HI as (_ & Hstats & _).
  destruct (lookup_lt_is_Some_2 (stats (sm τ)) i) as [old Hold]; [lia |].
  split.
  - unfold write_stats. run_get. run_lift Hold. reflexivity.
  - apply store_ok_put_stats; [done |]. by rewrite length_insert.
Qed.

End ShapedRun.

(** ** The line search on a shaped store *)

Lemma vBound_of_ok (vParam : list Q) (n m : nat) :
  length vParam = n → (2 ≤ n)%nat → (m < n)%nat →
  is_Some (vBound_of vParam n m).
Proof.
  intros Hlen Hn Hm. unfold vBound_of.
  case_decide as H0.
  - destruct (lookup_lt_is_Some_2 vParam (m + 1)) as [hi ->]; [lia |]. done.
  - case_decide as H1.
    + destruct (lookup_lt_is_Some_2 vParam (m - 1)) as [lo ->]; [lia |]. done.
    + destruct (lookup_lt_is_Some_2 vParam (m - 1)) as [lo ->]; [lia |].
      destruct (lookup_lt_is_Some_2 vParam (m + 1)) as [hi ->]; [lia |]. done.
Qed.

Lemma orTest_of_ok (s : sMerge) (order : option ((Q * Q) * list Q))
    (m : nat) (o : Q * Q) (step : Q) :
  (m < nr s)%nat →
  match order with
  | Some (_, vParam) => length vParam = nr s ∧ (2 ≤ nr s)%nat
  | None => True
  end →
  is_Some (orTest_of s order m o step).
Proof.
  intros Hm Hord. unfold orTest_of. destruct order as [[nn vParam] |]; [| done].
  destruct Hord as [Hlen H2].
  destruct (vBound_of_ok vParam (nr s) m Hlen H2 Hm) as [vBound ->]. done.
Qed.

Lemma rect_fmap_imap {A} (R C : nat) (g : A → Q) (F : nat → nat → A)
    (grid : list (list Q)) :
  rect R C grid →
  rect R C (fmap (fmap (M := list) g)
              (imap (λ (i : nat) (row : list Q),
                       imap (λ (j : nat) (_ : Q), F i j) row) grid)).
Proof.
  intros [Hlen Hrows]. split.
  - by rewrite length_fmap, length_imap.
  - apply Forall_lookup. intros i row Hrow.
    rewrite list_lookup_fmap, list_lookup_imap in Hrow.
    destruct (grid !! i) as [r |] eqn:Hr; [| done].
    cbn in Hrow. injection Hrow as <-.
    rewrite length_fmap, length_imap.
    exact (proj1 (Forall_lookup _ _) Hrows _ _ Hr).
Qed.

Lemma score_candidate_ok (R C : nat) (s : sMerge) (image : list (list Q))
    (k m : nat) (p sd : Q * Q) (meas : list Q) :
  rect R C image → (2 ≤ R)%nat → (2 ≤ C)%nat →
  imageSize s = (Z.of_nat R, Z.of_nat C) →
  scanDir s !! k = Some sd →
  (scanLines s !! k ≫= λ lines, lines !! m) = Some meas →
  length meas = nc s →
  is_Some (score_candidate s image k m p).
Proof.
  intros Hrect HR HC Hsize Hsd Hmeas Hlen.
  set (l := zip (seq 1 (nc s)) meas).
  assert (Hfst : seq 1 (nc s) = l.*1)
    by (symmetry; apply fst_zip; rewrite length_seq; lia).
  assert (Hsnd : meas = l.*2)
    by (symmetry; apply snd_zip; rewrite length_seq; lia).
  set (cx := λ a : nat * Q,
         clip (p.1 + inject_Z (Z.of_nat a.1) * sd.1) 0
           (inject_Z ((imageSize s).1 - 2))).
  set (cy := λ a : nat * Q,
         clip (p.2 + inject_Z (Z.of_nat a.1) * sd.2) 0
           (inject_Z ((imageSize s).2 - 2))).
  assert (Hscore : score_candidate s image k m p
    = calcScore image ((Qfloor ∘ cx) <$> l) ((Qfloor ∘ cy) <$> l)
        ((λ a, cx a - inject_Z (Qfloor (cx a))) <$> l)
        ((λ a, cy a - inject_Z (Qfloor (cy a))) <$> l)
        (snd <$> l)).
  { unfold score_candidate. rewrite Hsd. simpl. rewrite Hmeas. simpl.
    unfold sample_coords. rewrite Hfst, <- Hsnd.
    rewrite <- !list_fmap_compose, !zip_with_fmap_same.
    reflexivity. }
  assert (Hall : Forall (λ a, corner_ok R C ((Qfloor ∘ cx) a) ((Qfloor ∘ cy) a)) l).
  { apply Forall_forall. intros a _. unfold corner_ok, cx, cy, compose.
    rewrite Hsize. cbn [fst snd].
    pose proof (floor_clip_bounds
                  (p.1 + inject_Z (Z.of_nat a.1) * sd.1) R HR).
    pose proof (floor_clip_bounds
                  (p.2 + inject_Z (Z.of_nat a.1) * sd.2) C HC).
    lia. }
  rewrite Hscore, (calcScore_fmap R C) by (done || lia). done.
Qed.

Section ShapedSearch.

Context (E : Env) (cfg : Config) (R C : nat) (s0 : sMerge) (l0 n0 m0 N : nat).
Hypothesis Hdata : data_ok cfg R C s0.

Lemma score_candidate_returns (s : sMerge) (image : list (list Q))
    (k m : nat) (p : Q * Q) :
  same_data s0 s → rect R C image → (k < numImages s0)%nat →
  (m < nr s0)%nat →
  is_Some (score_candidate s image k m p).
Proof.
  intros Hsd Hrect Hk Hm.
  destruct Hsd as (Hn & Hr & Hc & Hl & Hd & Hs & _).
  destruct Hdata as (_ & _ & _ & Hsize & HR & HC & Hll & Hlines & Hld & _).
  destruct (lookup_lt_is_Some_2 (scanDir s) k) as [sd Hsd];
    [rewrite Hd; lia |].
  destruct (lookup_lt_is_Some_2 (scanLines s0) k) as [lines Hlk]; [lia |].
  destruct (proj1 (Forall_lookup _ _) Hlines _ _ Hlk) as [Hlen Hrows].
  destruct (lookup_lt_is_Some_2 lines m) as [meas Hmeas]; [lia |].
  pose proof (proj1 (Forall_lookup _ _) Hrows _ _ Hmeas) as Hnc.
  cbv beta in Hnc.
  eapply (score_candidate_ok R C); [done | done | done | congruence | done | |].
  - rewrite Hl, Hlk. exact Hmeas.
  - congruence.
Qed.

Lemma imageAlign_rect (s : sMerge) (k : nat) :
  same_data s0 s → images_ok R C s → rect R C (imageAlign_of cfg s k).
Proof.
  intros Hsd [HT _].
  destruct Hsd as (Hn & _ & _ & _ & _ & _ & Href & HlT & _).
  destruct Hdata as (Hn1 & _ & _ & _ & _ & _ & _ & _ & _ & HlT0 & _ & Hrefok).
  unfold imageAlign_of. destruct (imageRef s) as [ref |] eqn:Hr.
  - apply Hrefok. congruence.
  - cbv zeta. apply rect_fmap_imap.
    destruct (imageTransform s) as [| t ts]; [cbn in HlT; lia |].
    cbn. by apply Forall_cons in HT as [HT _].
Qed.

Lemma refine_line_returns (τ : State) (imageAlign : list (list Q))
    (l k m : nat) (order : option ((Q * Q) * list Q)) (pixelsMoved : Q) :
  store_ok s0 l0 n0 m0 N τ → (m0 ≤ l < length (heapStep τ))%nat →
  rect R C imageAlign → (k < numImages s0)%nat → (m < nr s0)%nat →
  match order with
  | Some (_, vParam) => length vParam = nr s0 ∧ (2 ≤ nr s0)%nat
  | None => True
  end →
  ∃ moved' τ',
    refine_line E cfg imageAlign l k order m pixelsMoved τ = Ok moved' τ'
    ∧ store_ok s0 l0 n0 m0 N τ' ∧ sm τ' = sm τ
    ∧ length (heapStep τ') = length (heapStep τ).
Proof.
  intros HI Hl Hrect Hk Hm Hord.
  destruct (store_ok_or _ _ _ _ _ _ HI) as (a & Ha & Hao).
  destruct (store_ok_step _ _ _ _ _ _ l HI Hl) as (steps & Hst & Hso).
  pose proof HI as (Hsd & _).
  pose proof Hsd as (_ & Hnr & _).
  destruct (or_get_ok _ _ k m Hao Hk Hm) as [o Ho].
  destruct (step_get_ok _ _ k m Hso Hk Hm) as [step Hstep].
  destruct (orTest_of_ok (sm τ) order m o step) as [orTest HorTest];
    [lia | by rewrite Hnr |].
  assert (Hscore : is_Some (mapM (score_candidate (sm τ) imageAlign k m) orTest)).
  { apply mapM_is_Some_2, Forall_forall. intros p _.
    by apply score_candidate_returns. }
  destruct Hscore as [score Hscore].
  pose proof (orTest_of_length _ _ _ _ _ _ HorTest) as H5.
  pose proof (length_mapM _ _ _ Hscore) as Hlen.
  assert (Harg : is_Some (argmin score)).
  { destruct score; [cbn in Hlen; lia | done]. }
  destruct Harg as [ind Hind].
  assert (Hread : read_origin k m τ = Ok o τ).
  { unfold read_origin. run_get. run (load_or_eq _ _ _ Ha). by apply lift_eq. }
  unfold refine_line. run_get. run Hread. run (load_step_eq _ _ _ Hst).
  run_lift Hstep. run_lift HorTest. run_lift Hscore. run_lift Hind.
  case_decide as Hz.
  - destruct (step_set_ok _ _ k m (step * stepSizeReduce cfg) Hso Hk Hm)
      as (steps' & Hset & Hso').
    run_lift Hset. run (store_step_eq l steps' τ).
    eexists _, _. split; [reflexivity |].
    split; [by apply store_ok_store_step |]. split; [done |].
    cbn. by rewrite length_insert.
  - destruct (argmin_first_min _ _ Hind) as (v & Hv & _).
    destruct (lookup_lt_is_Some_2 orTest ind) as [best Hbest];
      [apply lookup_lt_Some in Hv; lia |].
    run_lift Hbest.
    destruct (or_set_ok _ _ k m best Hao Hk Hm) as (a' & Hset & Hao').
    assert (Hwrite : write_origin k m best τ
              = Ok tt (with_heapOr (<[scanOr (sm τ) := a']> (heapOr τ)) τ)).
    { unfold write_origin. run_get. run (load_or_eq _ _ _ Ha). run_lift Hset.
      reflexivity. }
    run Hwrite. eexists _, _. split; [reflexivity |].
    split; [by apply store_ok_store_or |]. done.
Qed.

(** The pass over one acquisition returns and keeps the shapes. *)
Lemma refine_image_returns (τ : State) (l k : nat) (pixelsMoved : Q) :
  store_ok s0 l0 n0 m0 N τ → images_ok R C (sm τ) →
  (m0 ≤ l < length (heapStep τ))%nat → (k < numImages s0)%nat →
  ∃ moved' τ',
    refine_image E cfg l k pixelsMoved τ = Ok moved' τ'
    ∧ store_ok s0 l0 n0 m0 N τ' ∧ sm τ' = sm τ
    ∧ length (heapStep τ') = length (heapStep τ).
Proof.
  intros HI Himg Hl Hk.
  pose proof HI as (Hsd & _).
  pose proof (imageAlign_rect (sm τ) k Hsd Himg) as Hrect.
  pose proof Hsd as (_ & Hnr & _ & _ & Hdir & _).
  assert (Hfold : ∀ order,
    match order with
    | Some (_, vParam) => length vParam = nr s0 ∧ (2 ≤ nr s0)%nat
    | None => True
    end →
    ∃ moved' τ',
      foldM (refine_line E cfg (imageAlign_of cfg (sm τ) k) l k order)
        (seq 0 (nr (sm τ))) pixelsMoved τ = Ok moved' τ'
      ∧ store_ok s0 l0 n0 m0 N τ' ∧ sm τ' = sm τ
      ∧ length (heapStep τ') = length (heapStep τ)).
  { intros order Hord. rewrite Hnr.
    apply (foldM_seq_returns _
      (λ _ _ τ', store_ok s0 l0 n0 m0 N τ' ∧ sm τ' = sm τ
                 ∧ length (heapStep τ') = length (heapStep τ))); [| done].
    intros m pm τ1 Hm (HI1 & Hsm1 & Hlen1).
    destruct (refine_line_returns τ1 (imageAlign_of cfg (sm τ) k) l k m order pm)
      as (pm' & τ2 & Hrun & HI2 & Hsm2 & Hlen2);
      [done | lia | done | done | lia | done |].
    exists pm', τ2. split; [done |]. split; [done |]. split; congruence. }
  unfold refine_image. run_get.
  destruct (flagPointOrder cfg) eqn:Hflag.
  - destruct (store_ok_or _ _ _ _ _ _ HI) as (a & Ha & Hao).
    destruct Hdata as (_ & _ & H2 & _ & _ & _ & _ & _ & Hld & _).
    destruct (lookup_lt_is_Some_2 (scanDir (sm τ)) k) as [sd Hsdk];
      [rewrite Hdir; lia |].
    destruct (origins_ok_lookup _ _ k Hao Hk) as (xy & Hxy & Hx & Hy).
    match goal with
    | |- ∃ _ _, bind ?m _ τ = _ ∧ _ =>
        assert (Horder : m τ = Ok (Some (perp sd, vParam_of (perp sd) xy)) τ)
    end.
    { run_lift Hsdk. run (load_or_eq _ _ _ Ha). run_lift Hxy. reflexivity. }
    run Horder. apply Hfold. split; [| by apply H2].
    unfold vParam_of. rewrite length_zip_with. lia.
  - match goal with
    | |- ∃ _ _, bind ?m _ τ = _ ∧ _ =>
        assert (Horder : m τ = Ok None τ) by reflexivity
    end.
    run Horder. by apply Hfold.
Qed.

End ShapedSearch.

(** ** The global pass and the smoothing on a shaped store *)

Lemma withinBoundary_of_ok (imgsz : Z * Z) (xNew yNew : list Q) :
  (0 < length xNew)%nat → (0 < length yNew)%nat →
  is_Some (withinBoundary_of imgsz xNew yNew).
Proof.
  destruct xNew, yNew; cbn [length]; try lia. intros _ _.
  unfold withinBoundary_of, vmin, vmax. cbn [mbind option_bind]. done.
Qed.

Lemma linear_fit_ok (n : nat) (row : list Q) :
  length row = n → is_Some (linear_fit n row).
Proof.
  intros Hlen. unfold linear_fit, lstsq_line.
  rewrite decide_True by (by rewrite length_fmap).
  cbv zeta. by destruct (Qeq_bool _ 0).
Qed.

Lemma origins_ok_zip_with (s : sMerge) (f : Q → Q → Q)
    (a lin : list (list Q * list Q)) :
  origins_ok s a → length lin = numImages s →
  Forall (λ l, length l.1 = nr s ∧ length l.2 = nr s) lin →
  origins_ok s (zip_with (λ xy l : list Q * list Q,
                            (zip_with f xy.1 l.1, zip_with f xy.2 l.2)) a lin).
Proof.
  intros [Hlen Hrows] Hll Hlin. split.
  - rewrite length_zip_with. lia.
  - apply Forall_lookup. intros i xy' Hxy'.
    apply lookup_zip_with_Some in Hxy' as (xy & l & -> & Hxy & Hl).
    destruct (proj1 (Forall_lookup _ _) Hrows _ _ Hxy) as [H1 H2].
    destruct (proj1 (Forall_lookup _ _) Hlin _ _ Hl) as [H3 H4].
    cbn [fst snd]. rewrite !length_zip_with. lia.
Qed.

Lemma origins_ok_smooth (s : sMerge) (K : list Q) (a : list (list Q * list Q)) :
  origins_ok s a →
  origins_ok s (fmap (λ xy : list Q * list Q,
                        (smooth_row K xy.1, smooth_row K xy.2)) a).
Proof.
  intros [Hlen Hrows]. split.
  - by rewrite length_fmap.
  - apply Forall_fmap. eapply Forall_impl; [exact Hrows |].
    intros xy [H1 H2]. unfold compose. cbn [fst snd].
    by rewrite !smooth_row_length.
Qed.

Section ShapedPasses.

Context (E : Env) (cfg : Config) (R C : nat) (s0 : sMerge) (l0 n0 m0 N : nat).
Hypothesis Hdata : data_ok cfg R C s0.
Hypothesis Hrec : reconstruct_ok E.

Lemma apply_shift_returns (τ : State) (l k : nat) (dx dy : Q) :
  store_ok s0 l0 n0 m0 N τ → images_ok R C (sm τ) →
  (m0 ≤ l < length (heapStep τ))%nat → (k < numImages s0)%nat →
  ∃ τ', apply_shift E cfg l k dx dy τ = Ok tt τ'
        ∧ store_ok s0 l0 n0 m0 N τ' ∧ images_ok R C (sm τ')
        ∧ length (heapOr τ') = length (heapOr τ)
        ∧ length (heapStep τ') = length (heapStep τ).
Proof.
  intros HI Himg Hl Hk. unfold apply_shift.
  destruct (Qltb _ _); [| by exists τ].
  destruct (store_ok_or _ _ _ _ _ _ HI) as (a & Ha & Hao).
  destruct (store_ok_step _ _ _ _ _ _ l HI Hl) as (steps & Hst & Hso).
  destruct (origins_ok_lookup _ _ k Hao Hk) as (xy & Hxy & Hx & Hy).
  pose proof Hdata as (_ & Hnr & _).
  run_get. run (load_or_eq _ _ _ Ha). run_lift Hxy.
  destruct (withinBoundary_of_ok (imageSize (sm τ))
              ((λ x, x + dx) <$> xy.1) ((λ y, y + dy) <$> xy.2))
    as [wb Hwb]; [rewrite length_fmap; lia | rewrite length_fmap; lia |].
  run_lift Hwb. destruct wb; [| by exists τ].
  destruct (or_set_rows_ok _ _ k xy ((λ x, x + dx) <$> xy.1)
              ((λ y, y + dy) <$> xy.2) Hao Hxy)
    as (a' & Hset & Hao'); [by rewrite length_fmap | by rewrite length_fmap |].
  run_lift Hset. run (store_or_eq (scanOr (sm τ)) a' τ).
  pose proof (store_ok_store_or _ _ _ _ _ _ a' HI Hao') as HI1.
  destruct (SPmakeImage_returns E cfg R C s0 l0 n0 m0 N Hdata Hrec _ k HI1 Hk)
    as (t & d & Hmk & Ht & Hd).
  run Hmk.
  match goal with
  | |- context [bind (load_step l) _ ?τ2] =>
      run (load_step_eq l steps τ2 Hst)
  end.
  destruct (step_fill_ok _ _ k (refineInitialStep cfg) Hso Hk)
    as (steps' & Hfill & Hso').
  run_lift Hfill. eexists. split; [reflexivity |].
  pose proof HI as (Hsd & _).
  destruct Hsd as (_ & _ & _ & _ & _ & _ & _ & HT & HD).
  split; [| split; [| split]].
  - apply store_ok_store_step; [| done].
    apply store_ok_put_images; [done | |]; by rewrite length_insert.
  - destruct Himg as [HiT HiD]. split; by apply Forall_insert.
  - cbn. by rewrite length_insert.
  - cbn. by rewrite length_insert.
Qed.

Lemma check_regression_returns (τ : State) (L : GpcLocals)
    (meanAbsDiff : option Q) (alignStep l : nat) :
  store_ok s0 l0 n0 m0 N τ → (alignStep - 1 < N)%nat →
  (n0 ≤ scanOrCurrent L < length (heapOr τ))%nat →
  ∃ l' τ',
    check_regression cfg L meanAbsDiff alignStep l τ = Ok l' τ'
    ∧ store_ok s0 l0 n0 m0 N τ'
    ∧ imageTransform (sm τ') = imageTransform (sm τ)
    ∧ imageDensity (sm τ') = imageDensity (sm τ)
    ∧ heapOr τ' = heapOr τ ∧ heapStep τ' = heapStep τ
    ∧ (l' = l ∨ l' = scanOrStepCurrent L).
Proof.
  intros HI Hstep Hoc. unfold check_regression.
  destruct (negb _);
    [| exists l, τ; do 6 (split; [done |]); by left].
  run_get. destruct (metric_lt _ _).
  - destruct (write_stats_returns s0 l0 n0 m0 N τ (alignStep - 1)
                (inject_Z (Z.of_nat alignStep - 1), meanAbsDiff) HI Hstep)
      as [Hw HI'].
    run Hw. eexists _, _. split; [reflexivity |].
    split; [done |]. do 4 (split; [done |]). by left.
  - run (put_sm_eq (set_scanOr (scanOrCurrent L) (sm τ)) τ).
    eexists _, _. split; [reflexivity |].
    split; [by apply store_ok_put_scanOr |]. do 4 (split; [done |]). by right.
Qed.

Lemma detect_shift_returns (τ : State) (L : GpcLocals) (k : nat) :
  store_ok s0 l0 n0 m0 N τ → (k < numImages s0)%nat →
  ∃ d, detect_shift E cfg L k τ = Ok d τ.
Proof.
  intros (Hsd & _) Hk.
  destruct Hsd as (_ & _ & _ & _ & _ & _ & _ & HT & HD).
  destruct Hdata as (_ & _ & _ & _ & _ & _ & _ & _ & _ & HlT & HlD & _).
  destruct (lookup_lt_is_Some_2 (imageTransform (sm τ)) k) as [t Ht]; [lia |].
  destruct (lookup_lt_is_Some_2 (imageDensity (sm τ)) k) as [d Hd]; [lia |].
  assert (Hsm : smooth_target E cfg (sm τ) (intensityMedian L) k
                = Some (feather t (density_mask E cfg 64 d) (intensityMedian L))).
  { unfold smooth_target. rewrite Hd. cbn [mbind option_bind].
    by rewrite Ht. }
  unfold detect_shift. run_get. run_lift Hsm. eexists. reflexivity.
Qed.

Lemma gpc_enter_returns (τ : State) (l : nat) (meanAbsDiff : option Q) :
  store_ok s0 l0 n0 m0 N τ → (m0 ≤ l < length (heapStep τ))%nat →
  ∃ L vec τ1,
    gpc_enter E cfg l meanAbsDiff τ = Ok (L, vec) τ1
    ∧ store_ok s0 l0 n0 m0 N τ1 ∧ sm τ1 = sm τ
    ∧ scanOrCurrent L = length (heapOr τ)
    ∧ scanOrStepCurrent L = length (heapStep τ)
    ∧ length (heapOr τ1) = S (length (heapOr τ))
    ∧ length (heapStep τ1) = S (length (heapStep τ))
    ∧ ∃ start len, vec = seq start len ∧ (start + len ≤ numImages s0)%nat.
Proof.
  intros HI Hl.
  destruct (store_ok_or _ _ _ _ _ _ HI) as (a & Ha & Hao).
  destruct (store_ok_step _ _ _ _ _ _ l HI Hl) as (steps & Hst & Hso).
  pose proof HI as (Hsd & _).
  destruct Hsd as (Hn & _ & _ & _ & _ & _ & _ & HT & HD).
  destruct Hdata as (Hn1 & _ & _ & _ & _ & _ & _ & _ & _ & HlT & HlD & _).
  destruct (lookup_lt_is_Some_2 (imageTransform (sm τ)) 0) as [t Ht]; [lia |].
  destruct (lookup_lt_is_Some_2 (imageDensity (sm τ)) 0) as [d Hd]; [lia |].
  assert (HI1 : store_ok s0 l0 n0 m0 N
                  (with_heapStep (heapStep τ ++ [steps])
                     (with_heapOr (heapOr τ ++ [a]) τ))).
  { apply (store_ok_alloc_step s0 l0 n0 m0 N (with_heapOr (heapOr τ ++ [a]) τ));
      [| done].
    by apply store_ok_alloc_or. }
  unfold gpc_enter. run_get. run (load_or_eq _ _ _ Ha).
  run (alloc_or_eq a τ).
  match goal with
  | |- context [bind (load_step l) _ ?τ2] =>
      run (load_step_eq l steps τ2 Hst)
  end.
  match goal with
  | |- context [bind (alloc_step steps) _ ?τ2] =>
      run (alloc_step_eq steps τ2)
  end.
  run_lift Hd.
  destruct (imageRef (sm τ)) as [ref |].
  - eexists _, _, _. split; [reflexivity |]. split; [exact HI1 |].
    cbn. rewrite !length_app. cbn.
    repeat (split; [done || lia |]).
    exists 0%nat, (numImages (sm τ)). split; [done | lia].
  - run_lift Ht.
    eexists _, _, _. split; [reflexivity |]. split; [exact HI1 |].
    cbn. rewrite !length_app. cbn.
    repeat (split; [done || lia |]).
    exists 1%nat, (numImages (sm τ) - 1)%nat. split; [done | lia].
Qed.

(** The global pass returns and keeps the shapes of the store and of the
    images. *)
Lemma global_phase_correlation_returns (τ : State) (l : nat)
    (meanAbsDiff : option Q) (alignStep : nat) :
  store_ok s0 l0 n0 m0 N τ → images_ok R C (sm τ) →
  (m0 ≤ l < length (heapStep τ))%nat → (alignStep - 1 < N)%nat →
  ∃ τ', _global_phase_correlation E cfg l meanAbsDiff alignStep τ = Ok tt τ'
        ∧ store_ok s0 l0 n0 m0 N τ' ∧ images_ok R C (sm τ')
        ∧ (length (heapStep τ) ≤ length (heapStep τ'))%nat.
Proof.
  intros HI Himg Hl Hstep.
  destruct (gpc_enter_returns τ l meanAbsDiff HI Hl)
    as (L & vec & τ1 & Henter & HI1 & Hsm1 & Hoc & Hsc & Hlo & Hls
        & start & len & -> & Hrange).
  unfold _global_phase_correlation. run Henter. cbn [fst snd].
  destruct (foldM_seq_returns (gpc_step E cfg L meanAbsDiff alignStep)
    (λ _ loc τ', store_ok s0 l0 n0 m0 N τ' ∧ images_ok R C (sm τ')
       ∧ length (heapOr τ') = length (heapOr τ1)
       ∧ length (heapStep τ') = length (heapStep τ1)
       ∧ (loc = l ∨ loc = scanOrStepCurrent L))
    len start l τ1) as (loc & τ' & Hrun & HI' & Himg' & _ & Hls' & _).
  - intros k loc τ2 Hk (HI2 & Himg2 & Hlo2 & Hls2 & Hloc).
    destruct (detect_shift_returns τ2 L k HI2 ltac:(lia)) as [d Hdet].
    assert (Hvalid : (m0 ≤ loc < length (heapStep τ2))%nat).
    { pose proof HI as (_ & _ & _ & _ & _ & Hm0 & _).
      destruct Hloc as [-> | ->]; lia. }
    destruct (apply_shift_returns τ2 loc k d.1 d.2 HI2 Himg2 Hvalid ltac:(lia))
      as (τ3 & Happ & HI3 & Himg3 & Hlo3 & Hls3).
    destruct (check_regression_returns τ3 L meanAbsDiff alignStep loc HI3 Hstep)
      as (loc' & τ4 & Hchk & HI4 & HT4 & HD4 & Hho4 & Hhs4 & Hloc').
    { pose proof HI as (_ & _ & _ & _ & Hn0 & _). lia. }
    exists loc', τ4. split.
    + unfold gpc_step. run Hdet. run Happ. exact Hchk.
    + split; [done |]. split; [unfold images_ok; by rewrite HT4, HD4 |].
      split; [congruence |]. split; [congruence |].
      destruct Hloc' as [-> | ->]; [done | by right].
  - split; [done |]. split; [by rewrite Hsm1 |]. split; [done |].
    split; [done | by left].
  - exists τ'. split; [by run Hrun |]. split; [done |]. split; [done |]. lia.
Qed.

(** The smoothing returns; [sm.scanOr] is bound to a new array of the
    shape of the session. *)
Lemma smoothing_step_returns (τ : State) :
  store_ok s0 l0 n0 m0 N τ →
  ∃ τ', smoothing_step E cfg τ = Ok tt τ'
        ∧ store_ok s0 l0 n0 m0 N τ' ∧ heapStep τ' = heapStep τ.
Proof.
  intros HI. unfold smoothing_step.
  destruct (Qltb _ _); [| by exists τ].
  destruct (store_ok_or _ _ _ _ _ _ HI) as (a & Ha & Hao).
  pose proof HI as (Hsd & _ & _ & Hlt & Hn0 & _).
  destruct Hsd as (Hn & Hnr & _).
  assert (Hlin : is_Some (mapM (λ k : nat,
                    xy ← a !! k;
                    lx ← linear_fit (nr (sm τ)) xy.1;
                    ly ← linear_fit (nr (sm τ)) xy.2;
                    Some (lx, ly)) (seq 0 (numImages (sm τ))))).
  { apply mapM_is_Some_2, Forall_forall. intros k Hk.
    apply elem_of_seq in Hk. unfold compose.
    destruct (origins_ok_lookup _ _ k Hao ltac:(lia)) as (xy & -> & Hx & Hy).
    cbn [mbind option_bind].
    destruct (linear_fit_ok (nr (sm τ)) xy.1 ltac:(lia)) as [lx ->].
    cbn [mbind option_bind].
    destruct (linear_fit_ok (nr (sm τ)) xy.2 ltac:(lia)) as [ly ->].
    done. }
  destruct Hlin as [lin Hlin].
  assert (Hll : length lin = numImages s0).
  { apply length_mapM in Hlin. rewrite length_seq in Hlin. lia. }
  assert (Hshape : Forall (λ l, length l.1 = nr s0 ∧ length l.2 = nr s0) lin).
  { apply Forall_lookup. intros i l Hl.
    destruct (Forall2_lookup_r _ _ _ _ _ (mapM_Some_1 _ _ _ Hlin) Hl)
      as (k & _ & Hfit).
    destruct (a !! k) as [xy |]; [| done]. cbn [mbind option_bind] in Hfit.
    destruct (linear_fit (nr (sm τ)) xy.1) as [lx |] eqn:Hlx; [| done].
    cbn [mbind option_bind] in Hfit.
    destruct (linear_fit (nr (sm τ)) xy.2) as [ly |] eqn:Hly; [| done].
    cbn [mbind option_bind] in Hfit. injection Hfit as <-. cbn [fst snd].
    rewrite (linear_fit_fit_length _ _ _ Hlx),
      (linear_fit_fit_length _ _ _ Hly). done. }
  unfold _kernel_on_origin. cbv zeta.
  run_get. run (load_or_eq _ _ _ Ha). run_lift Hlin.
  erewrite (bind_eq (store_or _ _) _ _ _ _ (store_or_eq _ _ _)). cbv beta.
  erewrite (bind_eq (alloc_or _) _ _ _ _ (alloc_or_eq _ _)). cbv beta.
  erewrite (bind_eq (put_sm _) _ _ _ _ (put_sm_eq _ _)). cbv beta.
  eexists. split; [reflexivity |]. split; [| done].
  pose proof (origins_ok_zip_with s0 Qminus a lin Hao Hll Hshape) as Ha1.
  pose proof (origins_ok_smooth s0 (KDEorigin E (originWindowAverage cfg)) _ Ha1)
    as Ha2.
  pose proof (origins_ok_zip_with s0 Qplus _ lin Ha2 Hll Hshape) as Ha3.
  pose proof (store_ok_store_or _ _ _ _ _ _ _ HI Ha1) as HI1.
  pose proof (store_ok_alloc_or _ _ _ _ _ _ _ HI1 Ha2) as HI2.
  pose proof (store_ok_put_scanOr s0 l0 n0 m0 N _ (length (heapOr τ)) HI2)
    as HI3.
  cbn [heapOr with_heapOr] in HI3.
  rewrite length_app, length_insert in HI3. cbn [length] in HI3.
  specialize (HI3 ltac:(lia)).
  pose proof (store_ok_store_or _ _ _ _ _ _ _ HI3 Ha3) as HI4.
  cbn [sm with_sm set_scanOr scanOr heapOr with_heapOr] in HI4 |- *.
  rewrite length_insert. exact HI4.
Qed.

(** ** The loop on a shaped store *)

Lemma outer_iteration_returns (τ : State) (l alignStep : nat) :
  store_ok s0 l0 n0 m0 N τ → (m0 ≤ l < length (heapStep τ))%nat →
  (alignStep - 1 < N)%nat →
  ∃ pixelsMoved τ',
    outer_iteration E cfg l alignStep τ = Ok pixelsMoved τ'
    ∧ store_ok s0 l0 n0 m0 N τ' ∧ (m0 ≤ l < length (heapStep τ'))%nat.
Proof.
  intros HI Hl Hstep.
  pose proof HI as ((Hn & _) & _).
  destruct (remake_returns E cfg R C s0 l0 n0 m0 N Hdata Hrec τ HI)
    as (τ1 & Hremake & HI1 & Himg1 & Hhs1).
  destruct (write_stats_returns s0 l0 n0 m0 N τ1 (alignStep - 1)
              (inject_Z (Z.of_nat alignStep - 1), meanAbsDiff_of cfg (sm τ1))
              HI1 Hstep) as [Hw HI2].
  set (τ2 := with_sm _ τ1) in Hw, HI2.
  assert (Himg2 : images_ok R C (sm τ2)) by exact Himg1.
  assert (Hl2 : (m0 ≤ l < length (heapStep τ2))%nat).
  { subst τ2. cbn. rewrite Hhs1. lia. }
  assert (Hgpc : ∃ τ3,
    (if flagGlobalShift cfg
     then _global_phase_correlation E cfg l (meanAbsDiff_of cfg (sm τ1)) alignStep
     else ret tt) τ2 = Ok tt τ3
    ∧ store_ok s0 l0 n0 m0 N τ3 ∧ images_ok R C (sm τ3)
    ∧ (m0 ≤ l < length (heapStep τ3))%nat).
  { destruct (flagGlobalShift cfg).
    - destruct (global_phase_correlation_returns τ2 l
                  (meanAbsDiff_of cfg (sm τ1)) alignStep HI2 Himg2 Hl2 Hstep)
        as (τ3 & Hrun & HI3 & Himg3 & Hlen3).
      exists τ3. split; [done |]. split; [done |]. split; [done | lia].
    - by exists τ2. }
  destruct Hgpc as (τ3 & Hgpc & HI3 & Himg3 & Hl3).
  destruct (foldM_seq_returns (refine_image E cfg l)
    (λ _ _ τ', store_ok s0 l0 n0 m0 N τ' ∧ images_ok R C (sm τ')
               ∧ (m0 ≤ l < length (heapStep τ'))%nat)
    (numImages s0) 0%nat 0 τ3) as (pm & τ4 & Hfold & HI4 & _ & Hl4).
  - intros k pm τ' Hk (HI' & Himg' & Hl').
    destruct (refine_image_returns E cfg R C s0 l0 n0 m0 N Hdata τ' l k pm
                HI' Himg' Hl' ltac:(lia))
      as (pm' & τ'' & Hrun & HI'' & Hsm'' & Hlen'').
    exists pm', τ''. split; [done |]. split; [done |].
    split; [by rewrite Hsm'' | lia].
  - done.
  - destruct (smoothing_step_returns τ4 HI4) as (τ5 & Hsmooth & HI5 & Hhs5).
    exists pm, τ5. split; [| split; [done | by rewrite Hhs5]].
    unfold outer_iteration. run_get. rewrite Hn. run Hremake. run_get.
    run Hw. run Hgpc.
    pose proof HI1 as ((Hn1 & _) & _). rewrite Hn1.
    run Hfold. by run Hsmooth.
Qed.

Lemma refine_loop_returns (l : nat) :
  N = (refineMaxSteps cfg + 1)%nat →
  ∀ (fuel alignStep : nat) (moved : list Q) (τ : State),
  store_ok s0 l0 n0 m0 N τ → (m0 ≤ l < length (heapStep τ))%nat →
  (1 ≤ alignStep ≤ refineMaxSteps cfg + 1)%nat →
  (refineMaxSteps cfg + 1 - alignStep ≤ fuel)%nat →
  ∃ r τ',
    refine_loop E cfg fuel l alignStep moved τ = Ok r τ'
    ∧ store_ok s0 l0 n0 m0 N τ' ∧ (r.1 - 1 < N)%nat.
Proof.
  intros HN fuel. induction fuel as [| fuel IH];
    intros alignStep moved τ HI Hl Hstep Hfuel.
  - exists (alignStep, moved), τ. cbn [refine_loop].
    rewrite decide_False by lia. split; [done |]. split; [done |]. cbn. lia.
  - cbn [refine_loop]. case_decide as Hle.
    + destruct (outer_iteration_returns τ l alignStep HI Hl ltac:(lia))
        as (pm & τ1 & Hrun & HI1 & Hl1).
      run Hrun. run_get.
      pose proof HI1 as ((Hn1 & _) & _).
      pose proof Hdata as (Hn & _).
      assert (Hnext : ∃ s', next_alignStep cfg (numImages (sm τ1)) alignStep pm
                            = Some s'
                            ∧ (alignStep < s' ≤ refineMaxSteps cfg + 1)%nat).
      { unfold next_alignStep. rewrite decide_False by lia.
        destruct (Qltb _ _); eexists; (split; [reflexivity | lia]). }
      destruct Hnext as (s' & Hnext & Hs').
      run_lift Hnext. apply IH; [done | done | lia | lia].
    + exists (alignStep, moved), τ. split; [done |]. split; [done |].
      cbn. lia.
Qed.

End ShapedPasses.

Lemma well_formed_store_ok (cfg : Config) (R C : nat) (σ : State)
    (init : list (list Q)) (st : list (Q * option Q)) :
  well_formed cfg R C σ → steps_ok (sm σ) init →
  store_ok (sm σ) (scanOr (sm σ)) (length (heapOr σ)) (length (heapStep σ))
    (length st)
    (with_sm (set_stats st (sm σ)) (with_heapStep (heapStep σ ++ [init]) σ)).
Proof.
  intros (Hdata & a & Ha & Hao) Hinit.
  unfold store_ok. cbn [sm heapOr heapStep with_sm with_heapStep].
  split; [apply same_data_set_stats |]. split; [done |].
  split; [by left |]. split; [by eapply lookup_lt_Some |].
  split; [done |]. split; [rewrite length_app; lia |]. split.
  - intros l a' Hl [-> | Hge]; [congruence |].
    apply lookup_lt_Some in Hl. lia.
  - intros l st' Hl Hge.
    apply lookup_snoc_Some in Hl as [[Hlt _] | [_ <-]]; [lia | done].
Qed.

(** On a well-formed session the primary refinement returns: no index of
    an origin, of a step size, of a scanline, of an image or of the
    history is out of range and no score is taken outside the alignment
    image.  The session it leaves is well-formed, with a history of
    [refineMaxSteps + 1] rows. *)
Theorem refinement_returns_on_well_formed_session (E : Env) (cfg : Config)
    (R C : nat) (fuel : nat) (σ : State) :
  reconstruct_ok E → well_formed cfg R C σ →
  (refineMaxSteps cfg ≤ fuel)%nat →
  ∃ r σ',
    SPmerge02 E cfg fuel σ = Ok r σ'
    ∧ well_formed cfg R C σ'
    ∧ length (stats (sm σ')) = (refineMaxSteps cfg + 1)%nat.
Proof.
  intros Hrec Hwf Hfuel. pose proof Hwf as (Hdata & _).
  set (init := replicate (numImages (sm σ))
                 (replicate (nr (sm σ)) (1 * refineInitialStep cfg))).
  set (st := replicate (refineMaxSteps cfg + 1) (0, Some 0) : list (Q * option Q)).
  assert (Hinit : steps_ok (sm σ) init).
  { unfold init. split; [by rewrite length_replicate |].
    apply Forall_replicate. by rewrite length_replicate. }
  pose proof (well_formed_store_ok cfg R C σ init st Hwf Hinit) as HI0.
  assert (Hst : length st = (refineMaxSteps cfg + 1)%nat)
    by apply length_replicate.
  set (s0 := sm σ) in *. set (l0 := scanOr s0) in *.
  set (n0 := length (heapOr σ)) in *. set (m0 := length (heapStep σ)) in *.
  rewrite Hst in HI0.
  destruct (refine_loop_returns E cfg R C s0 l0 n0 m0 _ Hdata Hrec m0 eq_refl
              fuel 1%nat [] _ HI0) as (r & τ1 & Hloop & HI1 & Hr);
    [cbn; rewrite length_app; cbn; lia | lia | lia |].
  assert (Hremake : ∃ τ2,
    (if flagRemakeImage cfg then forM (SPmakeImage E) (seq 0 (numImages s0))
     else ret tt) τ1 = Ok tt τ2
    ∧ store_ok s0 l0 n0 m0 (refineMaxSteps cfg + 1) τ2).
  { destruct (flagRemakeImage cfg); [| by exists τ1].
    destruct (remake_returns E cfg R C s0 l0 n0 m0 _ Hdata Hrec τ1 HI1)
      as (τ2 & Hrun & HI2 & _).
    by exists τ2. }
  destruct Hremake as (τ2 & Hremake & HI2).
  destruct (write_stats_returns s0 l0 n0 m0 _ τ2 (r.1 - 1)
              (inject_Z (Z.of_nat r.1 - 1), meanAbsDiff_of cfg (sm τ2)) HI2 Hr)
    as [Hw HI3].
  eexists r, _. split; [| split].
  - unfold SPmerge02. run_get. fold s0.
    erewrite (bind_eq (alloc_step _) _ _ _ _ (alloc_step_eq _ _)). cbv beta.
    erewrite (bind_eq (put_sm _) _ _ _ _ (put_sm_eq _ _)). cbv beta.
    fold m0. run Hloop. run Hremake. run_get. run Hw. reflexivity.
  - split; [by eapply store_ok_data |].
    destruct (store_ok_or _ _ _ _ _ _ HI3) as (a & Ha & Hao).
    exists a. split; [done |].
    pose proof HI3 as (Hsd & _). by eapply origins_ok_same_data.
  - by destruct HI3 as (_ & Hlen & _).
Qed.

(** * The theorems on a concrete input *)

Lemma demo_exp_pos (q : Q) : 0 < demo_exp q.
Proof.
  unfold demo_exp. destruct (Qle_bool q 0) eqn:Hq.
  - apply Qle_bool_iff in Hq. apply Qlt_shift_div_l; lra.
  - destruct (Qlt_le_dec 0 q) as [Hlt | Hle]; [lra |].
    apply Qle_bool_iff in Hle. congruence.
Qed.

Lemma demo_sqrt_nonneg (q : Q) : 0 <= q → 0 <= demo_sqrt q.
Proof.
  intros _. unfold demo_sqrt, Qle. cbn.
  pose proof (Z.sqrt_nonneg (Qnum q)). lia.
Qed.

Lemma demo_image_rect : rect 6 6 (flat_image (6%Z, 6%Z) 2).
Proof. split; [reflexivity | repeat constructor]. Qed.

Lemma score_is_clamped_bilinear_sad_witness :
  ∃ v, score_candidate demo_sm (flat_image (6%Z, 6%Z) 2) 0 0 (2, 1) = Some v
       ∧ v == score_spec (flat_image (6%Z, 6%Z) 2) (6%Z, 6%Z) (2, 1) (1, 0) [1; 2].
Proof.
  destruct (score_is_clamped_bilinear_sad demo_sm (flat_image (6%Z, 6%Z) 2)
              6 6 0 0 (2, 1) (1, 0) [1; 2])
    as [(v & Hv & Hspec & _) _].
  - exact demo_image_rect.
  - lia.
  - lia.
  - reflexivity.
  - reflexivity.
  - reflexivity.
  - reflexivity.
  - exists v. split; [exact Hv | exact Hspec].
Defined.


Lemma refine_line_commits_argmin_witness :
  ∃ moved' σ',
    refine_line demo_env demo_config (imageAlign_of demo_config demo_sm 0)
      0 0 None 0 0 demo_state = Ok moved' σ'
    ∧ sm σ' = sm demo_state.
Proof.
  destruct (refine_line demo_env demo_config
              (imageAlign_of demo_config demo_sm 0) 0 0 None 0 0 demo_state)
    as [moved' σ' | |] eqn:Hrun;
    [| vm_compute in Hrun; discriminate..].
  exists moved', σ'. split; [reflexivity |].
  destruct (refine_line_commits_argmin _ _ _ _ _ _ _ _ _ _ _ Hrun)
    as (a & steps & o & step & orTest & score & ind
        & _ & _ & _ & _ & _ & _ & _ & _ & _ & _ & _ & H0 & Hne & _).
  destruct (decide (ind = 0%nat)) as [Hind | Hind].
  - destruct (H0 Hind) as (_ & Hsm & _). exact Hsm.
  - destruct (Hne Hind) as (best & a' & _ & _ & Hsm & _). exact Hsm.
Defined.

Lemma demo_shift_accepted :
  shift_accepted demo_config (6%Z, 6%Z) ([2; 3], [1; 1]) (- (2)) 0.
Proof.
  unfold shift_accepted. cbn [fst snd].
  split; [vm_compute; reflexivity |].
  split; repeat constructor; vm_compute; congruence.
Qed.

Lemma apply_shift_iff_accepted_witness :
  ∃ σ',
    apply_shift demo_env demo_config 0 1 (- (2)) 0 demo_state = Ok tt σ'
    ∧ heapOr σ'
      = [[([2; 3], [1; 1]);
          ((λ x, x + - (2)) <$> [2; 3], (λ y, y + 0) <$> [1; 1])]].
Proof.
  destruct (apply_shift demo_env demo_config 0 1 (- (2)) 0 demo_state)
    as [[] σ' | |] eqn:Hrun;
    [| vm_compute in Hrun; discriminate..].
  exists σ'. split; [reflexivity |].
  destruct (apply_shift_iff_accepted demo_env demo_config 0 1 (- (2)) 0
              demo_state σ' tt
              [([2; 3], [1; 1]); ([2; 3], [1; 1])] ([2; 3], [1; 1]))
    as [Hacc _].
  - reflexivity.
  - reflexivity.
  - exact Hrun.
  - destruct (Hacc demo_shift_accepted) as (Hheap & _). exact Hheap.
Defined.

Lemma demo_rows_affine : affine [2; 3] ∧ affine [1; 1].
Proof.
  split.
  - exists 2, 1. intros [| [| j]] x Hj; try discriminate;
      injection Hj as <-; vm_compute; reflexivity.
  - exists 1, 0. intros [| [| j]] x Hj; try discriminate;
      injection Hj as <-; vm_compute; reflexivity.
Qed.

Lemma smoothing_is_identity_on_linear_origins_witness :
  ∃ σ' a' xy',
    smoothing_step demo_env (default_config 2) demo_state = Ok tt σ'
    ∧ heapOr σ' !! scanOr (sm σ') = Some a'
    ∧ a' !! 1%nat = Some xy'
    ∧ rows_eq ([2; 3], [1; 1]) xy'.
Proof.
  destruct (smoothing_step demo_env (default_config 2) demo_state)
    as [[] σ' | |] eqn:Hrun;
    [| vm_compute in Hrun; discriminate..].
  destruct (smoothing_is_identity_on_linear_origins demo_env (default_config 2))
    as [Hid _].
  destruct (Hid demo_state σ' [([2; 3], [1; 1]); ([2; 3], [1; 1])] tt)
    as (a' & Ha' & Hrows).
  - exact demo_exp_pos.
  - vm_compute. reflexivity.
  - reflexivity.
  - reflexivity.
  - exact Hrun.
  - destruct (Hrows 1%nat ([2; 3], [1; 1]) eq_refl
                (proj1 demo_rows_affine) (proj2 demo_rows_affine))
      as (xy' & Hxy' & Heq).
    exists σ', a', xy'. split; [reflexivity |].
    split; [exact Ha' |]. split; [exact Hxy' | exact Heq].
Defined.

Lemma refinement_loop_terminates_witness :
  SPmerge02 demo_env demo_config 3 demo_state ≠ Timeout
  ∧ ∃ final moved σ',
      SPmerge02 demo_env demo_config 3 demo_state = Ok (final, moved) σ'
      ∧ length moved = 1%nat.
Proof.
  destruct (refinement_loop_terminates demo_env demo_config demo_state)
    as (Hterm & Hiter & _).
  split; [apply Hterm; vm_compute; lia |].
  destruct (SPmerge02 demo_env demo_config 3 demo_state)
    as [[final moved] σ' | |] eqn:Hrun;
    [| vm_compute in Hrun; discriminate..].
  exists final, moved, σ'. split; [reflexivity |].
  destruct (Hiter 3%nat final moved σ' Hrun) as (_ & _ & _ & _ & Hone & _).
  pose proof Hrun as Hval. vm_compute in Hval.
  injection Hval as _ Hmoved _.
  apply (Hone 0).
  - rewrite <- Hmoved. reflexivity.
  - vm_compute. reflexivity.
Defined.



(** * The further properties on a concrete input *)

Lemma wrap_shift_is_signed_witness :
  wrap_shift 4 6 == inject_Z 4 - inject_Z 6 ∧ wrap_shift 2 6 == inject_Z 2.
Proof.
  destruct (wrap_shift_is_signed 4 6) as (_ & _ & Hback); [lia |].
  destruct (wrap_shift_is_signed 2 6) as (_ & Hfwd & _); [lia |].
  split; [apply Hback; lia | apply Hfwd; lia].
Defined.

Lemma demo_rect_2 : rect 2 2 [[1; 2]; [3; 4]].
Proof. split; [reflexivity | repeat constructor]. Qed.

Lemma calcScore_returns_iff_corners_inside_witness :
  is_Some (calcScore [[1; 2]; [3; 4]] [0%Z] [0%Z] [1 # 2] [1 # 2] [2])
  ∧ ¬ is_Some (calcScore [[1; 2]; [3; 4]] [1%Z] [0%Z] [0] [0] [2]).
Proof.
  split.
  - destruct (calcScore_returns_iff_corners_inside 2 2 [[1; 2]; [3; 4]]
                [0%Z] [0%Z] [1 # 2] [1 # 2] [2]) as [Hiff _];
      [exact demo_rect_2 | lia | reflexivity.. |].
    apply Hiff. constructor; [unfold corner_ok; lia | constructor].
  - destruct (calcScore_returns_iff_corners_inside 2 2 [[1; 2]; [3; 4]]
                [1%Z] [0%Z] [0] [0] [2]) as [Hiff _];
      [exact demo_rect_2 | lia | reflexivity.. |].
    intros Hsome. apply Hiff in Hsome.
    apply Forall2_cons_1 in Hsome as [Hc _]. unfold corner_ok in Hc. lia.
Defined.





Lemma refine_image_changes_only_its_rows_witness :
  ∃ moved' σ' a',
    refine_image demo_env demo_config 0 0 0 demo_state_ramp = Ok moved' σ'
    ∧ heapOr σ' = [a'] ∧ a' !! 1%nat = Some ([2; 3], [1; 1])
    ∧ sm σ' = sm demo_state_ramp.
Proof.
  destruct (refine_image demo_env demo_config 0 0 0 demo_state_ramp)
    as [moved' σ' | |] eqn:Hrun;
    [| vm_compute in Hrun; discriminate..].
  destruct (refine_image_changes_only_its_rows demo_env demo_config 0 0 0
              moved' demo_state_ramp σ'
              [([2; 3], [1; 1]); ([2; 3], [1; 1])]
              [[1 # 4; 1 # 4]; [1 # 4; 1 # 4]] eq_refl eq_refl Hrun)
    as (Hsm & a' & steps' & Hheap & _ & Hrows & _).
  exists moved', σ', a'. split; [reflexivity |].
  split; [exact Hheap |]. split; [| exact Hsm].
  destruct (Hrows 1%nat) as [Ha' _]; [lia |]. exact Ha'.
Defined.


Lemma single_scanline_raises_under_ordering_witness :
  refine_image demo_env demo_config 0 0 0 demo_state1 = Raise.
Proof.
  apply single_scanline_raises_under_ordering.
  - reflexivity.
  - reflexivity.
  - intros a xy Ha Hxy. injection Ha as <-. injection Hxy as <-. reflexivity.
Defined.

Lemma global_pass_keeps_acquisition_0_witness :
  ∃ σ' a',
    _global_phase_correlation demo_env demo_config 0
      (meanAbsDiff_of demo_config demo_sm) 1 demo_state = Ok tt σ'
    ∧ heapOr σ' !! scanOr (sm σ') = Some a'
    ∧ a' !! 0%nat = Some ([2; 3], [1; 1]).
Proof.
  destruct (_global_phase_correlation demo_env demo_config 0
              (meanAbsDiff_of demo_config demo_sm) 1 demo_state)
    as [[] σ' | |] eqn:Hrun;
    [| vm_compute in Hrun; discriminate..].
  destruct (global_pass_keeps_acquisition_0 demo_env demo_config 0
              (meanAbsDiff_of demo_config demo_sm) 1 demo_state σ' tt
              eq_refl Hrun)
    as (a & a' & steps & steps' & Ha & Ha' & H0 & _).
  exists σ', a'. split; [reflexivity |]. split; [exact Ha' |].
  rewrite H0. injection Ha as <-. reflexivity.
Defined.

Lemma step_sizes_stay_in_range_witness :
  ∃ r σ' steps,
    SPmerge02 demo_env demo_config 3 demo_state = Ok r σ'
    ∧ heapStep σ' !! 1%nat = Some steps
    ∧ steps_within demo_config steps.
Proof.
  destruct (SPmerge02 demo_env demo_config 3 demo_state)
    as [r σ' | |] eqn:Hrun;
    [| vm_compute in Hrun; discriminate..].
  destruct (step_sizes_stay_in_range demo_env demo_config 3 demo_state σ' r)
    as [(steps & Hsteps & Hin) _].
  - vm_compute. discriminate.
  - vm_compute. discriminate.
  - vm_compute. discriminate.
  - exact Hrun.
  - exists r, σ', steps. split; [reflexivity |]. split; [exact Hsteps | exact Hin].
Defined.

Lemma refinement_keeps_the_data_witness :
  ∃ r σ',
    SPmerge02 demo_env demo_config 3 demo_state = Ok r σ'
    ∧ scanLines (sm σ') = [[[1; 2]; [3; 4]]; [[1; 2]; [3; 4]]].
Proof.
  destruct (SPmerge02 demo_env demo_config 3 demo_state)
    as [r σ' | |] eqn:Hrun;
    [| vm_compute in Hrun; discriminate..].
  exists r, σ'. split; [reflexivity |].
  destruct (refinement_keeps_the_data demo_env demo_config 3 demo_state σ' r
              Hrun) as (_ & _ & _ & Hlines & _).
  exact Hlines.
Defined.

Lemma smoothing_leaves_residuals_in_old_array_witness :
  ∃ σ' old xy',
    _kernel_on_origin demo_env 1 demo_state = Ok tt σ'
    ∧ scanOr (sm σ') = 1%nat
    ∧ heapOr σ' !! 0%nat = Some old
    ∧ old !! 1%nat = Some xy'
    ∧ Forall (λ x, x == - (1)) xy'.1 ∧ Forall (λ y, y == - (1)) xy'.2.
Proof.
  destruct (_kernel_on_origin demo_env 1 demo_state)
    as [[] σ' | |] eqn:Hrun;
    [| vm_compute in Hrun; discriminate..].
  destruct (smoothing_leaves_residuals_in_old_array demo_env 1 demo_state σ'
              [([2; 3], [1; 1]); ([2; 3], [1; 1])] tt eq_refl eq_refl Hrun)
    as (Hsm & _ & old & Hold & _ & Hrows).
  destruct (Hrows 1%nat ([2; 3], [1; 1]) eq_refl)
    as (lx & ly & _ & _ & Hrow & Hax & Hay).
  exists σ', old, (zip_with Qminus [2; 3] lx, zip_with Qminus [1; 1] ly).
  split; [reflexivity |]. split; [by rewrite Hsm |].
  split; [exact Hold |]. split; [exact Hrow |].
  split; [apply Hax, demo_rows_affine | apply Hay, demo_rows_affine].
Defined.


Lemma imageAlign_leaves_acquisition_out_witness :
  imageAlign_of demo_config
    (set_images (<[0%nat := flat_image (6%Z, 6%Z) 7]> (imageTransform demo_sm))
       (<[0%nat := flat_image (6%Z, 6%Z) 0]> (imageDensity demo_sm)) demo_sm)
    0
  = imageAlign_of demo_config demo_sm 0.
Proof.
  apply imageAlign_leaves_acquisition_out.
  - reflexivity.
  - intros old Hold. injection Hold as <-. repeat constructor.
Defined.

Lemma global_pass_keeps_the_history_witness :
  ∃ σ',
    _global_phase_correlation demo_env demo_config 0 (Some 0) 1 demo_state
    = Ok tt σ'
    ∧ stats (sm σ') = replicate 4 (0, Some 0).
Proof.
  destruct (_global_phase_correlation demo_env demo_config 0 (Some 0) 1
              demo_state) as [[] σ' | |] eqn:Hrun;
    [| vm_compute in Hrun; discriminate..].
  exists σ'. split; [reflexivity |].
  apply (global_pass_keeps_the_history demo_env demo_config 0 (Some 0) 1
           demo_state σ' tt eq_refl Hrun).
Defined.

Lemma zero_steps_only_measure_witness :
  ∃ r σ',
    SPmerge02 demo_env demo_config0 0 demo_state = Ok r σ'
    ∧ r = (1%nat, []) ∧ heapOr σ' = heapOr demo_state
    ∧ length (stats (sm σ')) = 1%nat.
Proof.
  destruct (SPmerge02 demo_env demo_config0 0 demo_state)
    as [r σ' | |] eqn:Hrun;
    [| vm_compute in Hrun; discriminate..].
  destruct (zero_steps_only_measure demo_env demo_config0 0 demo_state σ' r
              eq_refl Hrun) as (Hr & Hheap & _ & Hstats & _).
  exists r, σ'. split; [reflexivity |]. split; [exact Hr |].
  split; [exact Hheap |]. by rewrite Hstats.
Defined.


Lemma plot_shows_normalised_image_witness :
  ∃ fig img,
    _plot demo_env demo_plot_state = Ok fig demo_plot_state
    ∧ shown fig = Some img
    ∧ mean (select (plot_mask (sm demo_plot_state)) img) == 0
    ∧ mean ((λ v, v * v) <$> select (plot_mask (sm demo_plot_state)) img) == 1.
Proof.
  destruct (_plot demo_env demo_plot_state) as [fig σ' | |] eqn:Hrun;
    [| vm_compute in Hrun; discriminate..].
  destruct (plot_shows_normalised_image demo_env demo_plot_state σ' fig Hrun)
    as (-> & _ & _ & Himg).
  destruct (shown fig) as [img |] eqn:Hshown.
  2:{ pose proof Hrun as Hval. vm_compute in Hval.
      injection Hval as <-. discriminate Hshown. }
  destruct (Himg img eq_refl) as (centred & Hc & Hmean & Hsq).
  exists fig, img. split; [reflexivity |]. split; [exact Hshown |].
  split; [exact Hmean |]. apply Hsq.
  vm_compute in Hc. injection Hc as <-. vm_compute. reflexivity.
Defined.

Lemma demo_reconstruct_ok : reconstruct_ok demo_env.
Proof.
  intros lines dir org size. cbn [reconstruct demo_env fst snd].
  unfold flat_image, rect.
  split; (split; [apply length_replicate |]);
    apply Forall_replicate, length_replicate.
Qed.

Lemma demo_well_formed : well_formed demo_config 6 6 demo_state.
Proof.
  split.
  - unfold data_ok. cbn.
    do 11 (split; [first [lia | reflexivity | (intros _; lia)
                          | (repeat constructor)] |]).
    intros ref Href. discriminate Href.
  - exists [([2; 3], [1; 1]); ([2; 3], [1; 1])]. split; [reflexivity |].
    split; [reflexivity |]. cbn. repeat constructor.
Qed.

Lemma refinement_returns_on_well_formed_session_witness :
  ∃ r σ',
    SPmerge02 demo_env demo_config 3 demo_state = Ok r σ'
    ∧ well_formed demo_config 6 6 σ'
    ∧ length (stats (sm σ')) = 4%nat.
Proof.
  apply (refinement_returns_on_well_formed_session demo_env demo_config 6 6 3
           demo_state demo_reconstruct_ok demo_well_formed).
  cbn. lia.
Defined.
